(** * QuestScope: the log parser and the statistics engine

    A shallow embedding of the parse-and-aggregate pipeline of QuestScope
    (parsers/LogParser.js, processors/DataProcessor.js, handlers/FileHandler.js
    and utils/FileUtils.js), of the store the results go to
    (store/DataStore.js) and of the grouping of the heatmaps
    (visualization/ChartManager.js), and the properties the specification
    states about it, followed by further properties of the code.

    Conventions of the embedding.
    - A JavaScript string is a [string] of 8-bit code units; the log lines
      the tool reads are ASCII.
    - A regular expression literal is a term of [regex]; [rmatch] is the
      backtracking matcher of ECMAScript (leftmost start, alternatives left
      to right, greedy and lazy quantifiers, capture groups).
    - A JavaScript number is a [number]: a rational, [NaN] or one of the
      two infinities.  Where the rounding of the doubles decides an index,
      an integer result or the order of two results (in
      [calculatePercentile], [calculateStatistics], [createHistogramBins]
      and [calculateProgress]) the operations are those of binary64, [F64]:
      the exact result rounded to the nearest double.  Elsewhere (sums and
      averages of execution times and of row counts, differences of time
      values) the operations are exact.  The sign of zero is not modelled.
      Time values of dates and line indices are integers.
    - [null] and [undefined] results are [None]; a thrown exception is the
      [Throw] branch of [Result].
    - An object literal used as a map is an association list in the order
      in which its properties were created: [Obj.t] for keys that are
      numbers, [Dict.t] for keys that are strings, where a name that is
      no own property may still be found on [Object.prototype]. *)

From Stdlib Require Import Bool Arith ZArith QArith Qround Qpower Qabs Lia Lqa.
From Stdlib Require Import List Permutation Sorted Ascii String DecimalString.
Import ListNotations.

Local Open Scope string_scope.
Local Open Scope list_scope.

(* ================================================================== *)
(** ** Strings *)
(* ================================================================== *)

Module Str.

Definition code (a : ascii) : nat := nat_of_ascii a.

(** [\d] *)
Definition isDigit (a : ascii) : bool :=
  (48 <=? code a)%nat && (code a <=? 57)%nat.

(** [\s], on 8-bit code units: TAB, LF, VT, FF, CR, SPACE and NBSP. *)
Definition isSpace (a : ascii) : bool :=
  ((9 <=? code a)%nat && (code a <=? 13)%nat)
  || (code a =? 32)%nat || (code a =? 160)%nat.

(** [.] without the [s] flag: everything but the line terminators. *)
Definition isDot (a : ascii) : bool :=
  negb ((code a =? 10)%nat || (code a =? 13)%nat).

Definition isLower (a : ascii) : bool :=
  (97 <=? code a)%nat && (code a <=? 122)%nat.

(** Canonicalization of the [i] flag: upper case of an ASCII letter. *)
Definition toUpper (a : ascii) : ascii :=
  if isLower a then ascii_of_nat (code a - 32) else a.

Definition eqb_ci (a b : ascii) : bool := Ascii.eqb (toUpper a) (toUpper b).

(** [s.substring(0, n)] *)
Fixpoint take (n : nat) (s : string) : string :=
  match n, s with
  | S n', String a s' => String a (take n' s')
  | _, _ => EmptyString
  end.

(** The part of [s] consumed when the matcher has [s'] left. *)
Definition consumed (s s' : string) : string :=
  take (String.length s - String.length s') s.

Fixpoint all (p : ascii -> bool) (s : string) : bool :=
  match s with
  | EmptyString => true
  | String a s' => p a && all p s'
  end.

(** [s.split(sep)] for a one-character separator: never empty, and an
    empty field between two adjacent separators. *)
Fixpoint split (sep : ascii) (s : string) : list string :=
  match s with
  | EmptyString => [EmptyString]
  | String a s' =>
      if Ascii.eqb a sep then EmptyString :: split sep s'
      else match split sep s' with
           | w :: ws => String a w :: ws
           | [] => [String a EmptyString]
           end
  end.

(** [parts.join(sep)] *)
Fixpoint join (sep : string) (parts : list string) : string :=
  match parts with
  | [] => EmptyString
  | [w] => w
  | w :: ws => w ++ sep ++ join sep ws
  end.

(** [a.slice(0, n)] on arrays *)
Definition slice0 {A} (n : nat) (l : list A) : list A := firstn n l.

End Str.

(* ================================================================== *)
(** ** Regular expressions *)
(* ================================================================== *)

Module Regex.

Inductive regex : Type :=
| RChar (p : ascii -> bool)            (* a class, an escape or a literal *)
| REmpty
| RSeq (r1 r2 : regex)
| RAlt (r1 r2 : regex)                 (* r1|r2 *)
| RStar (greedy : bool) (r : regex)    (* r* and r*? *)
| RGroup (n : nat) (r : regex)         (* the n-th capturing group *)
| REnd.                                (* $ without the m flag *)

(** Captures, most recent first. *)
Definition captures := list (nat * string).

Fixpoint capture (n : nat) (c : captures) : option string :=
  match c with
  | [] => None
  | (m, s) :: c' => if (m =? n)%nat then Some s else capture n c'
  end.

Section Matcher.
Context {A : Type}.

(** A matcher in continuation-passing style: it is given the input,
    the captures so far and what to do with the rest of the input;
    [None] makes the caller backtrack. *)
Definition Continuation := string -> captures -> option A.
Definition Matcher := string -> captures -> Continuation -> option A.

(** The quantifiers [*] and [*?] over the matcher [m] of their body:
    at most [fuel] iterations, each one consuming input (an iteration
    that consumes nothing is rejected, as RepeatMatcher does). *)
Fixpoint starLoop (m : Matcher) (greedy : bool) (k : Continuation)
         (fuel : nat) (s : string) (c : captures) : option A :=
  match fuel with
  | O => k s c
  | S fuel' =>
      let again : Continuation := fun s' c' =>
        if (String.length s' <? String.length s)%nat
        then starLoop m greedy k fuel' s' c' else None in
      if greedy then
        match m s c again with
        | Some x => Some x
        | None => k s c
        end
      else
        match k s c with
        | Some x => Some x
        | None => m s c again
        end
  end.

(** [rmatch r s c k]: match [r] at the front of [s], then run [k] on
    what is left. *)
Fixpoint rmatch (r : regex) (s : string) (c : captures)
         (k : Continuation) {struct r} : option A :=
  match r with
  | RChar p =>
      match s with
      | String a s' => if p a then k s' c else None
      | EmptyString => None
      end
  | REmpty => k s c
  | RSeq r1 r2 => rmatch r1 s c (fun s1 c1 => rmatch r2 s1 c1 k)
  | RAlt r1 r2 =>
      match rmatch r1 s c k with
      | Some x => Some x
      | None => rmatch r2 s c k
      end
  | RStar greedy r1 =>
      starLoop (rmatch r1) greedy k (S (String.length s)) s c
  | RGroup n r1 =>
      rmatch r1 s c (fun s' c' => k s' ((n, Str.consumed s s') :: c'))
  | REnd =>
      match s with
      | EmptyString => k s c
      | String _ _ => None
      end
  end.
End Matcher.
Arguments rmatch {A} !r s c k /.
Arguments starLoop {A} m greedy k !fuel s c /.

(** The result of a successful match: the text before it, the matched
    text, the text after it and the captures. *)
Record MatchResult := {
  before : string;
  matched : string;
  after : string;
  groups : captures
}.

(** [regex.exec(s)] without the [g] flag: the first start position, from
    the left, at which the pattern matches.  [pre] is the text already
    skipped, reversed. *)
Fixpoint exec_from (r : regex) (pre : list ascii) (s : string)
  : option MatchResult :=
  match rmatch r s [] (fun s' c => Some (s', c)) with
  | Some (s', c) =>
      Some {| before := string_of_list_ascii (rev pre);
              matched := Str.consumed s s';
              after := s';
              groups := c |}
  | None =>
      match s with
      | EmptyString => None
      | String a s1 => exec_from r (a :: pre) s1
      end
  end.

Definition exec (r : regex) (s : string) : option MatchResult :=
  exec_from r [] s.

(** [regex.test(s)] *)
Definition test (r : regex) (s : string) : bool :=
  match exec r s with Some _ => true | None => false end.

(** [s.replace(regex, replacement)] without the [g] flag and without
    [$] patterns in the replacement. *)
Definition replace (r : regex) (s replacement : string) : string :=
  match exec r s with
  | Some m => before m ++ replacement ++ after m
  | None => s
  end.

(** [m[n]] of a match array, for a group that took part in the match. *)
Definition group (n : nat) (m : MatchResult) : string :=
  match capture n (groups m) with
  | Some s => s
  | None => EmptyString
  end.

(** *** Notation of the patterns *)

Definition chr (a : ascii) : regex := RChar (Ascii.eqb a).
Definition chr_ci (a : ascii) : regex := RChar (Str.eqb_ci a).
Definition digit : regex := RChar Str.isDigit.
Definition space : regex := RChar Str.isSpace.
Definition dot : regex := RChar Str.isDot.
Definition noneOf (l : list ascii) : regex :=
  RChar (fun a => negb (existsb (Ascii.eqb a) l)).

Fixpoint lit (s : string) : regex :=
  match s with
  | EmptyString => REmpty
  | String a EmptyString => chr a
  | String a s' => RSeq (chr a) (lit s')
  end.

Fixpoint lit_ci (s : string) : regex :=
  match s with
  | EmptyString => REmpty
  | String a EmptyString => chr_ci a
  | String a s' => RSeq (chr_ci a) (lit_ci s')
  end.

Fixpoint seq (l : list regex) : regex :=
  match l with
  | [] => REmpty
  | [r] => r
  | r :: l' => RSeq r (seq l')
  end.

Definition star (r : regex) : regex := RStar true r.
Definition lazy (r : regex) : regex := RStar false r.
Definition plus (r : regex) : regex := RSeq r (RStar true r).
Definition opt (r : regex) : regex := RAlt r REmpty.

Fixpoint times (n : nat) (r : regex) : regex :=
  match n with
  | O => REmpty
  | S O => r
  | S n' => RSeq r (times n' r)
  end.

End Regex.

Import Regex.

(* ================================================================== *)
(** ** parsers/LogParser.js: the patterns and the table name *)
(* ================================================================== *)

(** [(\d{4}-\d{2}-\d{2}T\d{2}:\d{2}:\d{2}\.\d+Z)] as group [n] *)
Definition timestampGroup (n : nat) : regex :=
  RGroup n (seq [times 4 digit; lit "-"; times 2 digit; lit "-";
                 times 2 digit; lit "T"; times 2 digit; lit ":";
                 times 2 digit; lit ":"; times 2 digit; lit ".";
                 plus digit; lit "Z"]).

Module PATTERNS.

Definition query : regex :=
  seq [timestampGroup 1; lazy dot; lit "QueryProgress"; plus space;
       RGroup 2 (RAlt (lit "fin") (lit "exe")); lazy dot;
       lit "sql=`"; RGroup 3 (plus (noneOf ["`"%char])); lit "`";
       lazy dot; lit "time="; RGroup 4 (plus digit); lit "]"].

Definition walJob : regex :=
  seq [timestampGroup 1; lazy dot; lit "ApplyWal2TableJob job ";
       RAlt (lit "finished") (lit "ejected");
       lit " [table="; RGroup 2 (plus (noneOf [","%char]));
       lit ", seqTxn="; plus digit;
       lit ", transactions="; RGroup 3 (plus digit);
       lit ", rows="; RGroup 4 (plus digit);
       lit ", time="; RGroup 5 (plus digit);
       lit "ms, rate="; RGroup 6 (plus digit);
       lit "rows/s, ampl=";
       RGroup 7 (plus (RChar (fun a => Str.isDigit a || Ascii.eqb a "."%char)));
       lit "]"].

Definition walCommit : regex :=
  seq [timestampGroup 1; lazy dot; lit "WalWriter commit [wal=/";
       RGroup 2 (plus (noneOf ["/"%char])); lit "/"; lazy dot;
       lit ", segTxn="; plus digit; lit ", seqTxn="; plus digit;
       lit ", rowLo="; RGroup 3 (plus digit);
       lit ", rowHi="; RGroup 4 (plus digit); lit ","].

Definition partitionClosing : regex :=
  seq [timestampGroup 1; lazy dot; lit "TableReader closed partition [path=/";
       RGroup 2 (plus (noneOf [","%char; "~"%char; "/"%char]));
       opt (RSeq (lit "~") (plus digit));
       lit ", timestamp="; RGroup 3 (plus (noneOf ["]"%char])); lit "]"].

Definition pgwireConnection : regex :=
  seq [timestampGroup 1; lazy dot; lit "pg-server connected [ip=";
       RGroup 2 (plus (noneOf [","%char]));
       lit ", fd="; RGroup 3 (plus digit);
       lit ", connCount="; RGroup 4 (plus digit); lit "]"].

Definition o3Partition : regex :=
  seq [lit_ci "o3 split partition [table=";
       RGroup 1 (plus (noneOf [","%char]))].

Definition partitionSquashing : regex :=
  seq [lit_ci "squashing partitions [table=";
       RGroup 1 (plus (noneOf [","%char]))].

Definition mergePartition : regex :=
  seq [timestampGroup 1; lazy dot; lit "TableWriter merged partition [table=`";
       RGroup 2 (plus (noneOf ["`"%char])); lit "`, ts="; lazy dot;
       lit ", txn="; RGroup 3 (plus digit);
       lit ", rows="; RGroup 4 (plus digit); lit "]"].

Definition connectionLimit : regex :=
  seq [lit_ci "max connection limit reached"; star dot;
       lit_ci "unregistered listener"].

End PATTERNS.

(** [/~\d+$/] *)
Definition shardSuffix : regex := seq [lit "~"; plus digit; REnd].

Definition normalizeTableName (tableName : string) : string :=
  Regex.replace shardSuffix tableName "".

(* ================================================================== *)
(** ** Numbers and dates *)
(* ================================================================== *)

Module Num.

Inductive number : Type :=
| Fin (q : Q)
| PInf
| NInf
| NaN.

Definition ofZ (z : Z) : number := Fin (inject_Z z).
Definition ofNat (n : nat) : number := ofZ (Z.of_nat n).

(** Equality of numbers: equality of the rationals they denote. *)
Definition numeq (a b : number) : Prop :=
  match a, b with
  | Fin x, Fin y => x == y
  | PInf, PInf | NInf, NInf | NaN, NaN => True
  | _, _ => False
  end.

Definition add (a b : number) : number :=
  match a, b with
  | NaN, _ | _, NaN => NaN
  | Fin x, Fin y => Fin (x + y)
  | PInf, NInf | NInf, PInf => NaN
  | PInf, _ | _, PInf => PInf
  | NInf, _ | _, NInf => NInf
  end.

Definition neg (a : number) : number :=
  match a with
  | Fin x => Fin (- x)
  | PInf => NInf
  | NInf => PInf
  | NaN => NaN
  end.

Definition sub (a b : number) : number := add a (neg b).

(** The infinity of the sign of [s], or [NaN] when [s] is zero. *)
Definition signedInf (s : Q) (positive : bool) : number :=
  match (s ?= 0)%Q with
  | Eq => NaN
  | Gt => if positive then PInf else NInf
  | Lt => if positive then NInf else PInf
  end.

Definition mul (a b : number) : number :=
  match a, b with
  | NaN, _ | _, NaN => NaN
  | Fin x, Fin y => Fin (x * y)
  | Fin x, PInf | PInf, Fin x => signedInf x true
  | Fin x, NInf | NInf, Fin x => signedInf x false
  | PInf, PInf | NInf, NInf => PInf
  | PInf, NInf | NInf, PInf => NInf
  end.

(** Division; a zero divisor is [+0]. *)
Definition div (a b : number) : number :=
  match a, b with
  | NaN, _ | _, NaN => NaN
  | Fin x, Fin y =>
      match (y ?= 0)%Q with
      | Eq => signedInf x true
      | _ => Fin (x / y)
      end
  | Fin _, (PInf | NInf) => Fin 0
  | PInf, Fin y => match (y ?= 0)%Q with Lt => NInf | _ => PInf end
  | NInf, Fin y => match (y ?= 0)%Q with Lt => PInf | _ => NInf end
  | (PInf | NInf), (PInf | NInf) => NaN
  end.

(** [Math.floor] and [Math.ceil] *)
Definition floor (a : number) : number :=
  match a with Fin x => ofZ (Qfloor x) | _ => a end.

Definition ceil (a : number) : number :=
  match a with Fin x => ofZ (Qceiling x) | _ => a end.

(** [Math.min(a, b)] and [Math.max(a, b)] *)
Definition min2 (a b : number) : number :=
  match a, b with
  | NaN, _ | _, NaN => NaN
  | NInf, _ | _, NInf => NInf
  | PInf, x | x, PInf => x
  | Fin x, Fin y => if Qle_bool x y then a else b
  end.

Definition max2 (a b : number) : number :=
  match a, b with
  | NaN, _ | _, NaN => NaN
  | PInf, _ | _, PInf => PInf
  | NInf, x | x, NInf => x
  | Fin x, Fin y => if Qle_bool x y then b else a
  end.

(** [Math.min(...l)] and [Math.max(...l)]: the infinities on no
    argument. *)
Definition Math_min (l : list number) : number := fold_left min2 l PInf.
Definition Math_max (l : list number) : number := fold_left max2 l NInf.

(** [l.reduce((a, b) => a + b, 0)] *)
Definition sum (l : list number) : number := fold_left add l (Fin 0).

End Num.

Import Num.

Declare Scope num_scope.
Delimit Scope num_scope with num.
Infix "=n=" := numeq (at level 70, no associativity) : num_scope.

(* ================================================================== *)
(** ** Arithmetic in binary64 *)
(* ================================================================== *)

(** The arithmetic of the doubles of IEEE 754, for the places where the
    rounding of a result decides what the code does: the exact result of
    an operation is rounded to the nearest double, ties going to the even
    significand.  The sign of zero is not modelled. *)
Module F64.

(** [floor (log2 x)] for a positive [x]. *)
Definition ilog2 (x : Q) : Z :=
  let k := (Z.log2 (Qnum x) - Z.log2 (Zpos (Qden x)))%Z in
  if Qle_bool (2 ^ k) x then k else (k - 1)%Z.

(** The integer nearest to [x], the even one of two. *)
Definition nearestEven (x : Q) : Z :=
  let f := Qfloor x in
  match (x - inject_Z f ?= 1 # 2)%Q with
  | Lt => f
  | Gt => (f + 1)%Z
  | Eq => if Z.even f then f else (f + 1)%Z
  end.

(** The exponent of the unit in the last place of the doubles near a
    positive [x]: significands have 53 bits, and the exponent of the
    subnormal numbers is the least. *)
Definition ulpExponent (x : Q) : Z := Z.max (ilog2 x - 52) (-1074).

(** The double nearest to a positive [x]; the infinity from
    [2^1024 - 2^970] on. *)
Definition roundPositive (x : Q) : number :=
  let e := ulpExponent x in
  let r := inject_Z (nearestEven (x / 2 ^ e)) * 2 ^ e in
  if Qle_bool (2 ^ 1024) r then PInf else Fin (Qred r).

Definition round (x : Q) : number :=
  match (x ?= 0)%Q with
  | Eq => Fin 0
  | Gt => roundPositive x
  | Lt => neg (roundPositive (- x))
  end.

(** The Number value of the result of an operation. *)
Definition rounded (a : number) : number :=
  match a with
  | Fin q => round q
  | _ => a
  end.

Definition fadd (a b : number) : number := rounded (add a b).
Definition fsub (a b : number) : number := rounded (sub a b).
Definition fmul (a b : number) : number := rounded (mul a b).
Definition fdiv (a b : number) : number := rounded (div a b).

(** [l.reduce((a, b) => a + b, 0)] *)
Definition fsum (l : list number) : number := fold_left fadd l (Fin 0).

End F64.
Import F64.

(* ------------------------------------------------------------------ *)
(** *** Number.prototype.toFixed *)

(** The decimal digits of a natural number. *)
Definition decimal (n : Z) : string :=
  NilZero.string_of_uint (N.to_uint (Z.to_N n)).

Definition roundsTo (y x : Q) : bool :=
  match round y with
  | Fin r => Qeq_bool r x
  | _ => false
  end.

(** The pairs [(s, n)] of an integer [s] of [k] digits and an exponent
    [n] for which [s * 10^(n - k)] rounds to the double [x], for an [x] of
    at least 10^21: [n] is the number of the digits of [x], or next to
    it. *)
Definition spellings (x : Q) (k : Z) : list (Z * Z) :=
  let d := Z.of_nat (String.length (decimal (Qfloor x))) in
  flat_map
    (fun n =>
       let scale := (10 ^ (n - k))%Z in
       let s := Qfloor (x / inject_Z scale) in
       filter (fun sn : Z * Z =>
                 (10 ^ (k - 1) <=? fst sn)%Z && (fst sn <? 10 ^ k)%Z
                 && roundsTo (inject_Z (fst sn * scale)) x)
              [(s, n); ((s + 1)%Z, n)])
    [(d - 1)%Z; d; (d + 1)%Z].

(** Of two spellings the one nearer to [x], the even one at the same
    distance. *)
Definition nearer (x : Q) (k : Z) (a b : Z * Z) : Z * Z :=
  let distance (sn : Z * Z) :=
    Qabs (inject_Z (fst sn * 10 ^ (snd sn - k)) - x) in
  match (distance a ?= distance b)%Q with
  | Lt => a
  | Gt => b
  | Eq => if Z.even (fst a) then a else b
  end.

Definition nearestSpelling (x : Q) (k : Z) : option (Z * Z) :=
  match spellings x k with
  | [] => None
  | a :: l => Some (fold_left (nearer x k) l a)
  end.

(** The spelling of [x] with the fewest digits [k], from [k] on: a double
    has one of 17 digits or fewer.  For a rational that is no double,
    which no operation of [F64] returns, the first 18 digits are taken. *)
Fixpoint shortestSpelling (x : Q) (k : Z) (fuel : nat) : Z * Z * Z :=
  match fuel with
  | O =>
      let d := Z.of_nat (String.length (decimal (Qfloor x))) in
      (k, Qfloor (x / inject_Z (10 ^ (d - k))), d)
  | S fuel' =>
      match nearestSpelling x k with
      | Some (s, n) => (k, s, n)
      | None => shortestSpelling x (k + 1) fuel'
      end
  end.

(** [Number::toString(x)] for [x >= 10^21]: the digits, a point after the
    first of them when there are more, and the exponent. *)
Definition exponential (x : Q) : string :=
  let '(k, s, n) := shortestSpelling x 1 17 in
  let e := ("e+" ++ decimal (n - 1))%string in
  match decimal s with
  | String c EmptyString => String c e
  | String c rest => String c ("." ++ rest ++ e)%string
  | EmptyString => e
  end.

Fixpoint zeros (n : nat) : string :=
  match n with
  | O => ""
  | S n' => String "0" (zeros n')
  end.

(** [a.toFixed(fractionDigits)], for [fractionDigits] from 0 to 100: the
    integer [n] nearest to [x * 10^fractionDigits], the larger of two,
    spelled with a point before its last [fractionDigits] digits. *)
Definition toFixed (a : number) (fractionDigits : nat) : string :=
  match a with
  | NaN => "NaN"
  | PInf => "Infinity"
  | NInf => "-Infinity"
  | Fin x =>
      let s := if Qle_bool 0 x then "" else "-" in
      let x := Qabs x in
      if Qle_bool (10 ^ 21) x then (s ++ exponential x)%string
      else
        let n := Qfloor (x * 10 ^ Z.of_nat fractionDigits + (1 # 2)) in
        let m := decimal n in
        if (fractionDigits =? 0)%nat then (s ++ m)%string
        else
          let m := (zeros (fractionDigits + 1 - String.length m) ++ m)%string in
          let k := String.length m in
          (s ++ substring 0 (k - fractionDigits) m ++ "."
             ++ substring (k - fractionDigits) fractionDigits m)%string
  end.

(** A [Date] object: its time value, in milliseconds since the epoch, or
    the invalid date, whose time value is [NaN].  The range of the time
    values of ECMAScript, 8.64e15 ms either way, is not modelled. *)
Inductive Date : Type :=
| ValidDate (time : Z)
| InvalidDate.

(** [d.getTime()] *)
Definition getTime (d : Date) : option Z :=
  match d with
  | ValidDate t => Some t
  | InvalidDate => None
  end.

(** [new Date(t)] of a time value, [None] being [NaN]. *)
Definition dateOfTime (t : option Z) : Date :=
  match t with
  | Some z => ValidDate z
  | None => InvalidDate
  end.

(** Every object is truthy, so is every [Date]. *)
Definition truthy (d : Date) : bool := true.

(* ------------------------------------------------------------------ *)
(** *** parseInt and parseFloat *)

Definition digitValue (a : ascii) : Z := Z.of_nat (Str.code a) - 48.

(** The value of the longest prefix of decimal digits, and whether there
    is one. *)
Fixpoint digitsPrefix (acc : Z) (seen : bool) (s : string) : Z * bool * string :=
  match s with
  | String a s' =>
      if Str.isDigit a then digitsPrefix (10 * acc + digitValue a) true s'
      else (acc, seen, s)
  | EmptyString => (acc, seen, s)
  end.

Fixpoint trimStart (s : string) : string :=
  match s with
  | String a s' => if Str.isSpace a then trimStart s' else s
  | EmptyString => s
  end.

(** [parseInt(s)] on decimal input: leading white space, a sign, then the
    longest prefix of digits; [NaN] when there is no digit. *)
Definition parseInt (s : string) : number :=
  let body (t : string) :=
    match digitsPrefix 0 false t with
    | (v, true, _) => Some v
    | (_, false, _) => None
    end in
  match trimStart s with
  | String "-" t =>
      match body t with Some v => ofZ (- v) | None => NaN end
  | String "+" t =>
      match body t with Some v => ofZ v | None => NaN end
  | t => match body t with Some v => ofZ v | None => NaN end
  end.

(** [parseFloat(s)] on input without exponent: digits, then a point and
    digits; [NaN] when there is no digit at all. *)
Definition parseFloat (s : string) : number :=
  let body (t : string) : option Q :=
    let '(ip, seenI, rest) := digitsPrefix 0 false t in
    match rest with
    | String "." u =>
        let '(fp, seenF, rest') := digitsPrefix 0 false u in
        if seenI || seenF then
          let ndigits := (String.length u - String.length rest')%nat in
          Some (inject_Z ip + inject_Z fp / inject_Z (10 ^ Z.of_nat ndigits))
        else None
    | _ => if seenI then Some (inject_Z ip) else None
    end in
  match trimStart s with
  | String "-" t => match body t with Some v => Fin (- v) | None => NaN end
  | String "+" t => match body t with Some v => Fin v | None => NaN end
  | t => match body t with Some v => Fin v | None => NaN end
  end.

(* ================================================================== *)
(** ** parsers/LogParser.js: the records and the extractors *)
(* ================================================================== *)

(** The [timestamp] field every record has. *)
Class Timestamped (A : Type) := timestamp : A -> Date.

(** The [executionTimeMs] field of the items of the time buckets. *)
Class Timed (A : Type) := executionTimeMs : A -> number.

Record QueryRecord := {
  query_timestamp : Date;
  query_executionTimeMs : number;
  sqlPreview : string;
  fullSql : string;
  query_file : string
}.

Record WalJobRecord := {
  walJob_timestamp : Date;
  walJob_table : string;
  transactions : number;
  rows : number;
  timeMs : number;
  rate : number;
  amplification : number;
  walJob_file : string
}.

Record WalCommitRecord := {
  walCommit_timestamp : Date;
  walCommit_table : string;
  rowsCommitted : number;
  rowLo : number;
  rowHi : number;
  walCommit_file : string
}.

Record PartitionClosingRecord := {
  closing_timestamp : Date;
  closing_table : string;
  partitionTimestamp : string;
  closing_file : string
}.

Record PgwireConnectionRecord := {
  pgwire_timestamp : Date;
  ip : string;
  fd : number;
  connCount : number;
  pgwire_file : string
}.

Record SystemEventRecord := {
  event_timestamp : Date;
  errorType : string;
  event_table : option string;
  message : string;
  event_file : string
}.

#[export] Instance query_Timestamped : Timestamped QueryRecord := query_timestamp.
#[export] Instance query_Timed : Timed QueryRecord := query_executionTimeMs.
#[export] Instance walJob_Timestamped : Timestamped WalJobRecord := walJob_timestamp.
#[export] Instance walCommit_Timestamped : Timestamped WalCommitRecord := walCommit_timestamp.
#[export] Instance closing_Timestamped : Timestamped PartitionClosingRecord := closing_timestamp.
#[export] Instance pgwire_Timestamped : Timestamped PgwireConnectionRecord := pgwire_timestamp.
#[export] Instance event_Timestamped : Timestamped SystemEventRecord := event_timestamp.

(** The object [parseQuestDBLog] returns. *)
Record ParseResult := {
  queries : list QueryRecord;
  walJobs : list WalJobRecord;
  walCommits : list WalCommitRecord;
  partitionClosings : list PartitionClosingRecord;
  pgwireConnections : list PgwireConnectionRecord;
  systemEvents : list SystemEventRecord
}.

Definition emptyResult : ParseResult :=
  {| queries := []; walJobs := []; walCommits := [];
     partitionClosings := []; pgwireConnections := []; systemEvents := [] |}.

(** The number of records in the six collections. *)
Definition recordTotal (r : ParseResult) : nat :=
  List.length (queries r) + List.length (walJobs r)
  + List.length (walCommits r) + List.length (partitionClosings r)
  + List.length (pgwireConnections r) + List.length (systemEvents r).

(** [sql.split(' ').slice(0, 5).join(' ') + (sql.split(' ').length > 5 ? '...' : '')] *)
Definition makeSqlPreview (sql : string) : string :=
  Str.join " " (Str.slice0 5 (Str.split " " sql))
  ++ (if (5 <? List.length (Str.split " " sql))%nat then "..." else "").

Section LogParser.

(** [new Date(timestampStr)]: the date parser of the host.  ECMAScript
    fixes it on three fractional digits only, and the logs carry six. *)
Variable newDate : string -> Date.

Definition parseQueryEntry (line fileName : string) : option QueryRecord :=
  match Regex.exec PATTERNS.query line with
  | None => None
  | Some m =>
      if negb (String.eqb (group 2 m) "fin") then None
      else
        let timestampStr := group 1 m in
        let sql := group 3 m in
        let timeNanos := group 4 m in
        let timeMs := div (parseInt timeNanos) (ofZ 1000000) in
        Some {| query_timestamp := newDate timestampStr;
                query_executionTimeMs := timeMs;
                sqlPreview := makeSqlPreview sql;
                fullSql := sql;
                query_file := fileName |}
  end.

Definition parseWalJobEntry (line fileName : string) : option WalJobRecord :=
  match Regex.exec PATTERNS.walJob line with
  | None => None
  | Some m =>
      Some {| walJob_timestamp := newDate (group 1 m);
              walJob_table := normalizeTableName (group 2 m);
              transactions := parseInt (group 3 m);
              rows := parseInt (group 4 m);
              timeMs := parseInt (group 5 m);
              rate := parseInt (group 6 m);
              amplification := parseFloat (group 7 m);
              walJob_file := fileName |}
  end.

Definition parseWalCommitEntry (line fileName : string) : option WalCommitRecord :=
  match Regex.exec PATTERNS.walCommit line with
  | None => None
  | Some m =>
      let rowLoStr := group 3 m in
      let rowHiStr := group 4 m in
      Some {| walCommit_timestamp := newDate (group 1 m);
              walCommit_table := normalizeTableName (group 2 m);
              rowsCommitted := sub (parseInt rowHiStr) (parseInt rowLoStr);
              rowLo := parseInt rowLoStr;
              rowHi := parseInt rowHiStr;
              walCommit_file := fileName |}
  end.

Definition parsePartitionClosingEntry (line fileName : string)
  : option PartitionClosingRecord :=
  match Regex.exec PATTERNS.partitionClosing line with
  | None => None
  | Some m =>
      Some {| closing_timestamp := newDate (group 1 m);
              closing_table := normalizeTableName (group 2 m);
              partitionTimestamp := group 3 m;
              closing_file := fileName |}
  end.

(** The pgwire branch that [parseQuestDBLog] has inline. *)
Definition parsePgwireConnection (line fileName : string)
  : option PgwireConnectionRecord :=
  match Regex.exec PATTERNS.pgwireConnection line with
  | None => None
  | Some m =>
      Some {| pgwire_timestamp := newDate (group 1 m);
              ip := group 2 m;
              fd := parseInt (group 3 m);
              connCount := parseInt (group 4 m);
              pgwire_file := fileName |}
  end.

Definition parseSystemEvent (line fileName : string) : option SystemEventRecord :=
  match Regex.exec (timestampGroup 1) line with
  | None => None
  | Some timestampMatch =>
      let timestamp := newDate (group 1 timestampMatch) in
      if Regex.test PATTERNS.connectionLimit line then
        Some {| event_timestamp := timestamp;
                errorType := "Connection Limit";
                event_table := None;
                message := Str.take 200 line;
                event_file := fileName |}
      else
      match Regex.exec PATTERNS.o3Partition line with
      | Some o3Match =>
          Some {| event_timestamp := timestamp;
                  errorType := "O3 Partition Split";
                  event_table := Some (normalizeTableName (group 1 o3Match));
                  message := "O3 partition split for table: " ++ group 1 o3Match;
                  event_file := fileName |}
      | None =>
      match Regex.exec PATTERNS.partitionSquashing line with
      | Some squashMatch =>
          Some {| event_timestamp := timestamp;
                  errorType := "Partition Squashing";
                  event_table := Some (normalizeTableName (group 1 squashMatch));
                  message := "Squashing partitions for table: " ++ group 1 squashMatch;
                  event_file := fileName |}
      | None =>
      match Regex.exec PATTERNS.mergePartition line with
      | Some mergeMatch =>
          Some {| event_timestamp := timestamp;
                  errorType := "Merge Partition";
                  event_table := Some (normalizeTableName (group 2 mergeMatch));
                  message := "Merged partition for table: " ++ group 2 mergeMatch
                             ++ ", rows: " ++ group 4 mergeMatch;
                  event_file := fileName |}
      | None => None
      end end end
  end.

(** *** The main loop *)

(** A call of the progress callback: [(current, total)]. *)
Definition ProgressCall : Type := nat * nat.

(** The state of the loop: the result under construction and the calls
    of the progress callback so far. *)
Record LoopState := {
  result : ParseResult;
  progress : list ProgressCall
}.

Definition push {A} (l : list A) (x : A) : list A := l ++ [x].

(** The part of the loop body after the progress report: the entry types
    in turn, each one ending the iteration when it yields a record. *)
Definition parseLine (line fileName : string) (r : ParseResult) : ParseResult :=
  match parseQueryEntry line fileName with
  | Some queryEntry =>
      {| queries := push (queries r) queryEntry; walJobs := walJobs r;
         walCommits := walCommits r; partitionClosings := partitionClosings r;
         pgwireConnections := pgwireConnections r; systemEvents := systemEvents r |}
  | None =>
  match parseWalJobEntry line fileName with
  | Some walJobEntry =>
      {| queries := queries r; walJobs := push (walJobs r) walJobEntry;
         walCommits := walCommits r; partitionClosings := partitionClosings r;
         pgwireConnections := pgwireConnections r; systemEvents := systemEvents r |}
  | None =>
  match parseWalCommitEntry line fileName with
  | Some walCommitEntry =>
      {| queries := queries r; walJobs := walJobs r;
         walCommits := push (walCommits r) walCommitEntry;
         partitionClosings := partitionClosings r;
         pgwireConnections := pgwireConnections r; systemEvents := systemEvents r |}
  | None =>
  match parsePartitionClosingEntry line fileName with
  | Some partitionClosingEntry =>
      {| queries := queries r; walJobs := walJobs r; walCommits := walCommits r;
         partitionClosings := push (partitionClosings r) partitionClosingEntry;
         pgwireConnections := pgwireConnections r; systemEvents := systemEvents r |}
  | None =>
  match parsePgwireConnection line fileName with
  | Some pgwireEntry =>
      {| queries := queries r; walJobs := walJobs r; walCommits := walCommits r;
         partitionClosings := partitionClosings r;
         pgwireConnections := push (pgwireConnections r) pgwireEntry;
         systemEvents := systemEvents r |}
  | None =>
  match parseSystemEvent line fileName with
  | Some systemEvent =>
      {| queries := queries r; walJobs := walJobs r; walCommits := walCommits r;
         partitionClosings := partitionClosings r;
         pgwireConnections := pgwireConnections r;
         systemEvents := push (systemEvents r) systemEvent |}
  | None => r
  end end end end end end.

(** One iteration, for the line of index [i]: the progress report every
    1000 lines when a callback is supplied, then the line. *)
Definition loopBody (fileName : string) (progressCallback : bool)
           (totalLines i : nat) (line : string) (st : LoopState) : LoopState :=
  {| progress :=
       if progressCallback && (i mod 1000 =? 0)%nat
       then push (progress st) (i, totalLines) else progress st;
     result := parseLine line fileName (result st) |}.

(** [for (let i = ...; i < totalLines; i++)] over the lines left. *)
Fixpoint loop (fileName : string) (progressCallback : bool)
         (totalLines i : nat) (lines : list string) (st : LoopState) : LoopState :=
  match lines with
  | [] => st
  | line :: rest =>
      loop fileName progressCallback totalLines (S i) rest
           (loopBody fileName progressCallback totalLines i line st)
  end.

(** [parseQuestDBLog(logContent, fileName, progressCallback)], with the
    calls it makes of the callback. *)
Definition parseQuestDBLog_traced (logContent fileName : string)
           (progressCallback : bool) : LoopState :=
  let lines := Str.split "010" logContent in
  let totalLines := List.length lines in
  loop fileName progressCallback totalLines 0 lines
       {| result := emptyResult; progress := [] |}.

Definition parseQuestDBLog (logContent fileName : string)
           (progressCallback : bool) : ParseResult :=
  result (parseQuestDBLog_traced logContent fileName progressCallback).

End LogParser.

(* ================================================================== *)
(** ** Arrays, objects and exceptions *)
(* ================================================================== *)

Record Error := {
  errorName : string;
  errorMessage : string
}.

Inductive Result (A : Type) : Type :=
| Ok (a : A)
| Throw (e : Error).
Arguments Ok {A} a.
Arguments Throw {A} e.

(** Reading a property of [undefined]. *)
Definition TypeError : Error :=
  {| errorName := "TypeError";
     errorMessage := "Cannot read properties of undefined" |}.

(** [a[i]] for a number [i]: [undefined] unless [i] is an integer within
    the array. *)
Definition arrayGet {A} (a : list A) (i : number) : option A :=
  match i with
  | Fin q =>
      if Qeq_bool q (inject_Z (Qfloor q)) && (0 <=? Qfloor q)%Z
      then nth_error a (Z.to_nat (Qfloor q)) else None
  | _ => None
  end.

(** The array [a] with [f] applied to its element of index [n]. *)
Fixpoint arrayUpdate {A} (a : list A) (n : nat) (f : A -> A) : list A :=
  match a, n with
  | [], _ => []
  | x :: a', O => f x :: a'
  | x :: a', S n' => x :: arrayUpdate a' n' f
  end.

(** [a.sort(cmp)]: the stable sort; [gt x y] is [cmp(x, y) > 0]. *)
Section Sort.
Context {A : Type} (gt : A -> A -> bool).

Fixpoint insertSorted (x : A) (l : list A) : list A :=
  match l with
  | [] => [x]
  | y :: l' => if gt x y then y :: insertSorted x l' else x :: l
  end.

Fixpoint sort (l : list A) : list A :=
  match l with
  | [] => []
  | x :: l' => insertSorted x (sort l')
  end.
End Sort.

(** An object used as a map from numbers to values: the properties in
    the order of their creation.  The key is the number its name spells,
    [None] for the name ["NaN"]. *)
Module Obj.
Section Obj.
Context {V : Type}.

Definition key := option Z.
Definition t := list (key * V).

Definition key_eqb (a b : key) : bool :=
  match a, b with
  | Some x, Some y => (x =? y)%Z
  | None, None => true
  | _, _ => false
  end.

(** [o[k]] *)
Fixpoint get (o : t) (k : key) : option V :=
  match o with
  | [] => None
  | (k', v) :: o' => if key_eqb k' k then Some v else get o' k
  end.

(** [o[k] = v]: an existing property keeps its place. *)
Fixpoint set (o : t) (k : key) (v : V) : t :=
  match o with
  | [] => [(k, v)]
  | (k', v') :: o' =>
      if key_eqb k' k then (k', v) :: o' else (k', v') :: set o' k v
  end.

(** An array index: an integer from 0 to 2^32 - 2. *)
Definition isArrayIndex (k : key) : bool :=
  match k with
  | Some z => (0 <=? z)%Z && (z <? 4294967295)%Z
  | None => false
  end.

Definition key_gt (a b : key * V) : bool :=
  match fst a, fst b with
  | Some x, Some y => (x >? y)%Z
  | _, _ => false
  end.

(** [Object.entries(o)]: the array indices in ascending order, then
    the other names in the order of their creation. *)
Definition entries (o : t) : list (key * V) :=
  sort key_gt (filter (fun e => isArrayIndex (fst e)) o)
  ++ filter (fun e => negb (isArrayIndex (fst e))) o.
End Obj.
Arguments t : clear implicits.
End Obj.

(* ================================================================== *)
(** ** processors/DataProcessor.js *)
(* ================================================================== *)

Record TimeBucket (A : Type) := {
  bucket_timestamp : Date;
  items : list A;
  avgTime : number;
  maxTime : number;
  count : nat
}.
Arguments bucket_timestamp {A} _.
Arguments items {A} _.
Arguments avgTime {A} _.
Arguments maxTime {A} _.
Arguments count {A} _.

Record TimeMetrics := {
  startTime : option Date;
  endTime : option Date;
  duration : number;
  metrics_rate : number
}.

Record Bin := {
  bin_start : number;
  bin_end : number;
  bin_label : string;
  bin_count : nat;
  bin_values : list number
}.

(** [a - b] on dates; [None] is [NaN]. *)
Definition dateDiff (a b : Date) : option Z :=
  match getTime a, getTime b with
  | Some x, Some y => Some (x - y)%Z
  | _, _ => None
  end.

(** [Math.min(a, b)] and [Math.max(a, b)] on time values. *)
Definition minTime (a b : option Z) : option Z :=
  match a, b with
  | Some x, Some y => Some (Z.min x y)
  | _, _ => None
  end.

Definition maxTime2 (a b : option Z) : option Z :=
  match a, b with
  | Some x, Some y => Some (Z.max x y)
  | _, _ => None
  end.

Section GroupByInterval.
Context {A : Type} `{Timestamped A} `{Timed A}.

(** [Math.floor(time.getTime() / intervalMs) * intervalMs] on integers:
    [NaN] for an invalid date and for the interval 0. *)
Definition intervalKey (intervalMs : Z) (item : A) : Obj.key :=
  match getTime (timestamp item) with
  | Some t =>
      if (intervalMs =? 0)%Z then None
      else Some (t / intervalMs * intervalMs)%Z
  | None => None
  end.

(** The body of [data.forEach]. *)
Definition addItem (intervalMs : Z) (grouped : Obj.t (list A)) (item : A)
  : Obj.t (list A) :=
  let k := intervalKey intervalMs item in
  match Obj.get grouped k with
  | Some group => Obj.set grouped k (push group item)
  | None => Obj.set grouped k (push [] item)
  end.

Definition makeBucket (e : Obj.key * list A) : TimeBucket A :=
  let '(k, its) := e in
  {| bucket_timestamp := dateOfTime k;
     items := its;
     avgTime := div (sum (map executionTimeMs its)) (ofNat (List.length its));
     maxTime := Math_max (map executionTimeMs its);
     count := List.length its |}.

(** [(a, b) => a.timestamp - b.timestamp] is positive. *)
Definition bucket_gt (a b : TimeBucket A) : bool :=
  match dateDiff (bucket_timestamp a) (bucket_timestamp b) with
  | Some d => (d >? 0)%Z
  | None => false
  end.

Definition groupByInterval (data : list A) (intervalMs : Z)
  : list (TimeBucket A) :=
  let grouped := fold_left (addItem intervalMs) data [] in
  sort bucket_gt (map makeBucket (Obj.entries grouped)).

End GroupByInterval.

(** [calculatePercentile(sortedArray, percentile)]; [None] is
    [undefined].  The quotient, the product and the difference are those
    of the doubles. *)
Definition calculatePercentile (sortedArray : list number) (percentile : number)
  : option number :=
  match sortedArray with
  | [] => Some (Fin 0)
  | _ =>
      let index :=
        fsub (ceil (fmul (fdiv percentile (ofZ 100))
                         (ofNat (List.length sortedArray)))) (ofZ 1) in
      arrayGet sortedArray (max2 (ofZ 0) index)
  end.

Section TimeMetrics.
Context {A : Type} `{Timestamped A}.

Definition calculateTimeMetrics (data : list A) : TimeMetrics :=
  match data with
  | [] =>
      {| startTime := None; endTime := None;
         duration := Fin 0; metrics_rate := Fin 0 |}
  | d :: ds =>
      let timestamps := map (fun d => getTime (timestamp d)) ds in
      let first := getTime (timestamp d) in
      let startTime := dateOfTime (fold_left minTime timestamps first) in
      let endTime := dateOfTime (fold_left maxTime2 timestamps first) in
      let duration :=
        match dateDiff endTime startTime with
        | Some ms => div (ofZ ms) (ofZ 1000)
        | None => NaN
        end in
      {| startTime := Some startTime;
         endTime := Some endTime;
         duration := duration;
         metrics_rate := div (ofNat (List.length data)) (max2 (ofZ 1) duration) |}
  end.
End TimeMetrics.

(** [createHistogramBins(data, binCount)], in the arithmetic of the
    doubles.  The bins of the [for] loop: *)
Definition emptyBin (min binWidth : number) (i : nat) : Bin :=
  let binStart := fadd min (fmul (ofNat i) binWidth) in
  let binEnd := fadd binStart binWidth in
  {| bin_start := binStart; bin_end := binEnd;
     bin_label := (toFixed binStart 1 ++ "-" ++ toFixed binEnd 1)%string;
     bin_count := 0; bin_values := [] |}.

Definition emptyBins (min binWidth : number) (binCount : Z) : list Bin :=
  map (emptyBin min binWidth) (List.seq 0 (Z.to_nat binCount)).

Definition binIndexOf (min binWidth : number) (binCount : Z) (value : number)
  : number :=
  min2 (floor (fdiv (fsub value min) binWidth)) (ofZ (binCount - 1)).

(** The body of [data.forEach]: [bins[binIndex].count++] throws when the
    index names no bin. *)
Definition populate (min binWidth : number) (binCount : Z)
           (acc : Result (list Bin)) (value : number) : Result (list Bin) :=
  match acc with
  | Throw e => Throw e
  | Ok bins =>
      let binIndex := binIndexOf min binWidth binCount value in
      match arrayGet bins binIndex with
      | None => Throw TypeError
      | Some _ =>
          Ok (arrayUpdate bins
                (match binIndex with Fin q => Z.to_nat (Qfloor q) | _ => 0 end)
                (fun b => {| bin_start := bin_start b; bin_end := bin_end b;
                             bin_label := bin_label b;
                             bin_count := S (bin_count b);
                             bin_values := push (bin_values b) value |}))
      end
  end.

Definition createHistogramBins (data : list number) (binCount : Z)
  : Result (list Bin) :=
  match data with
  | [] => Ok []
  | _ =>
      let min := Math_min data in
      let max := Math_max data in
      let binWidth := fdiv (fsub max min) (ofZ binCount) in
      fold_left (populate min binWidth binCount) data
                (Ok (emptyBins min binWidth binCount))
  end.

(* ================================================================== *)
(** ** utils/FileUtils.js and handlers/FileHandler.js *)
(* ================================================================== *)

Definition createErrorMessage (fileName : string) (error : Error) : string :=
  "Failed to process " ++ fileName ++ ": " ++ errorMessage error.

Record FileMetadata := {
  fileName : string;
  meta_startTime : option Date;
  meta_endTime : option Date;
  recordCount : nat
}.

(** [{ timestamp: t }] *)
Record Stamp := { stamp : Date }.
#[export] Instance stamp_Timestamped : Timestamped Stamp := stamp.

(** What [processFiles] leaves behind: the merged collections it stores
    and emits, the metadata added to the store and the messages handed to
    [showError]. *)
Record BatchState := {
  allResults : ParseResult;
  fileMetadata : list FileMetadata;
  errors : list string
}.

Definition merge (a r : ParseResult) : ParseResult :=
  {| queries := queries a ++ queries r;
     walJobs := walJobs a ++ walJobs r;
     walCommits := walCommits a ++ walCommits r;
     partitionClosings := partitionClosings a ++ partitionClosings r;
     pgwireConnections := pgwireConnections a ++ pgwireConnections r;
     systemEvents := systemEvents a ++ systemEvents r |}.

(** The timestamps the file metrics are computed from. *)
Definition allTimestamps (r : ParseResult) : list Date :=
  filter truthy
    (map timestamp (queries r) ++ map timestamp (walJobs r)
     ++ map timestamp (systemEvents r)).

Section FileHandler.
Variable File : Type.
Variable name : File -> string.

(** [await this.readFile(file)]: the text, or the rejection. *)
Variable readFile : File -> Result string.

(** [this.logParser.parseQuestDBLog], the injected parser. *)
Variable logParser : string -> string -> Result ParseResult.

(** The body of [for (const file of files)]. *)
Definition processFile (st : BatchState) (file : File) : BatchState :=
  let failed (error : Error) :=
    {| allResults := allResults st;
       fileMetadata := fileMetadata st;
       errors := push (errors st)
                   ("Failed to process " ++ name file ++ ": "
                    ++ errorMessage error)%string |} in
  match readFile file with
  | Throw error => failed error
  | Ok content =>
      match logParser content (name file) with
      | Throw error => failed error
      | Ok r =>
          let stamps := allTimestamps r in
          let metadata :=
            if (0 <? List.length stamps)%nat then
              let metrics :=
                calculateTimeMetrics (map (fun t => {| stamp := t |}) stamps) in
              push (fileMetadata st)
                {| fileName := name file;
                   meta_startTime := startTime metrics;
                   meta_endTime := endTime metrics;
                   recordCount := List.length stamps |}
            else fileMetadata st in
          {| allResults := merge (allResults st) r;
             fileMetadata := metadata;
             errors := errors st |}
      end
  end.

Definition processFiles (files : list File) : BatchState :=
  fold_left processFile files
    {| allResults := emptyResult; fileMetadata := []; errors := [] |}.

End FileHandler.

(** A file of the model: its name and the text the reader yields. *)
Record TextFile := {
  file_name : string;
  file_text : string
}.

(** [processFiles] with the parser of this repository. *)
Definition ingest (newDate : string -> Date) (files : list TextFile) : BatchState :=
  processFiles TextFile file_name
    (fun f => Ok (file_text f))
    (fun content name => Ok (parseQuestDBLog newDate content name true))
    files.

(* ================================================================== *)
(** ** Plain objects with string keys *)
(* ================================================================== *)

(** [a > 0] for a number [a]. *)
Definition isPositive (a : number) : bool :=
  match a with
  | Fin q => negb (Qle_bool q 0)
  | PInf => true
  | NInf | NaN => false
  end.

(** [(a, b) => a - b] is positive: the comparator of the ascending sorts
    of numbers. *)
Definition num_gt (a b : number) : bool := isPositive (sub a b).

(** [Math.round]: the integer nearest to the number, the halves going
    up. *)
Definition Math_round (a : number) : number :=
  match a with
  | Fin q => ofZ (Qfloor (q + (1 # 2)))
  | _ => a
  end.

(** [a === 0] *)
Definition isZero (a : number) : bool :=
  match a with
  | Fin q => Qeq_bool q 0
  | _ => false
  end.

(** [a.slice(0, end)] for an integer [end]: a negative [end] counts from
    the end of the array. *)
Definition sliceTo {A} (a : list A) (last : Z) : list A :=
  if (0 <=? last)%Z then firstn (Z.to_nat last) a
  else firstn (Z.to_nat (Z.of_nat (List.length a) + last)) a.

(** What [o[k].push(...)] throws when [o[k]] is a member that [o]
    inherits from [Object.prototype]. *)
Definition NotAFunction : Error :=
  {| errorName := "TypeError";
     errorMessage := "push is not a function" |}.

(** [toISOString] of an invalid date. *)
Definition RangeError : Error :=
  {| errorName := "RangeError"; errorMessage := "Invalid time value" |}.

(** An object literal [{}] used as a map from strings to values: its own
    properties in the order of their creation.  A name that is not an own
    property may still be found on [Object.prototype]. *)
Module Dict.
Section Dict.
Context {V : Type}.

Definition t := list (string * V).

(** The own property [k] of [o]. *)
Fixpoint getOwn (o : t) (k : string) : option V :=
  match o with
  | [] => None
  | (k', v) :: o' => if String.eqb k' k then Some v else getOwn o' k
  end.

(** [o[k] = v]: an existing property keeps its place. *)
Fixpoint set (o : t) (k : string) (v : V) : t :=
  match o with
  | [] => [(k, v)]
  | (k', v') :: o' =>
      if String.eqb k' k then (k', v) :: o' else (k', v') :: set o' k v
  end.

End Dict.
Arguments t : clear implicits.

(** The members of [Object.prototype]. *)
Definition prototypeNames : list string :=
  ["constructor"; "__defineGetter__"; "__defineSetter__"; "hasOwnProperty";
   "__lookupGetter__"; "__lookupSetter__"; "isPrototypeOf";
   "propertyIsEnumerable"; "toString"; "valueOf"; "__proto__";
   "toLocaleString"].

(** [o[k]] is truthy although [k] is no own property of [o]. *)
Definition inherited (k : string) : bool :=
  existsb (String.eqb k) prototypeNames.

(** The array index a property name spells, if it spells one: a decimal
    numeral without leading zero, up to 2^32 - 2. *)
Definition arrayIndex (k : string) : option Z :=
  match k with
  | EmptyString => None
  | String a _ =>
      if Str.all Str.isDigit k
         && (String.eqb k "0" || negb (Ascii.eqb a "0"))
      then
        let '(v, _, _) := digitsPrefix 0 false k in
        if (v <? 4294967295)%Z then Some v else None
      else None
  end.

Definition index_gt {V} (a b : string * V) : bool :=
  match arrayIndex (fst a), arrayIndex (fst b) with
  | Some x, Some y => (x >? y)%Z
  | _, _ => false
  end.

Definition isIndex {V} (e : string * V) : bool :=
  match arrayIndex (fst e) with Some _ => true | None => false end.

(** [Object.entries(o)] and [Object.values(o)]: the array indices in
    ascending order, then the other names in the order of their
    creation. *)
Definition entries {V} (o : t V) : list (string * V) :=
  sort index_gt (filter isIndex o) ++ filter (fun e => negb (isIndex e)) o.

Definition values {V} (o : t V) : list V := map snd (entries o).

(** One step of the idiom
    [if (!o[k]) o[k] = init; ... update o[k] with the item ...]:
    an own property is updated, a name found on the prototype is taken
    for an entry and the update of it throws [error], and any other name
    gets a fresh entry, updated at once. *)
Definition upsert {A V} (key : A -> string) (init : A -> V)
           (step : V -> A -> V) (error : Error)
           (acc : Result (t V)) (item : A) : Result (t V) :=
  match acc with
  | Throw e => Throw e
  | Ok o =>
      match getOwn o (key item) with
      | Some v => Ok (set o (key item) (step v item))
      | None =>
          if inherited (key item) then Throw error
          else Ok (set o (key item) (step (init item) item))
      end
  end.

End Dict.

(* ================================================================== *)
(** ** processors/DataProcessor.js: the other aggregations *)
(* ================================================================== *)

(** The [table] field, [None] where a record has none. *)
Class Tabled (A : Type) := table : A -> option string.

#[export] Instance query_Tabled : Tabled QueryRecord := fun _ => None.
#[export] Instance walJob_Tabled : Tabled WalJobRecord :=
  fun w => Some (walJob_table w).
#[export] Instance walCommit_Tabled : Tabled WalCommitRecord :=
  fun c => Some (walCommit_table c).
#[export] Instance closing_Tabled : Tabled PartitionClosingRecord :=
  fun p => Some (closing_table p).
#[export] Instance pgwire_Tabled : Tabled PgwireConnectionRecord := fun _ => None.
#[export] Instance event_Tabled : Tabled SystemEventRecord := event_table.

(** [item.table || 'unknown']: a missing table and the empty name are
    falsy. *)
Definition tableOrUnknown {A} `{Tabled A} (item : A) : string :=
  match table item with
  | Some EmptyString | None => "unknown"
  | Some t => t
  end.

(** [groupByTable(data)] *)
Definition groupByTable {A} `{Tabled A} (data : list A)
  : Result (Dict.t (list A)) :=
  fold_left
    (Dict.upsert tableOrUnknown (fun _ => []) (fun group item => push group item)
                 NotAFunction)
    data (Ok []).

(** [a >= b] and [a <= b] on dates: false when a time value is [NaN]. *)
Definition date_geb (a b : Date) : bool :=
  match getTime a, getTime b with
  | Some x, Some y => (y <=? x)%Z
  | _, _ => false
  end.

Definition date_leb (a b : Date) : bool :=
  match getTime a, getTime b with
  | Some x, Some y => (x <=? y)%Z
  | _, _ => false
  end.

(** [filterByTimeRange(data, startTime, endTime)] *)
Definition filterByTimeRange {A} `{Timestamped A} (data : list A)
           (startTime endTime : Date) : list A :=
  filter (fun item =>
            date_geb (timestamp item) startTime
            && date_leb (timestamp item) endTime)
         data.

(** The entry of a table in [aggregateWalMetrics], before and after the
    averages are added to it. *)
Record TableMetric := {
  metric_table : string;
  metric_jobs : list WalJobRecord;
  metric_totalRows : number;
  metric_totalTime : number;
  amplifications : list number;
  avgAmplification : option number;
  avgRate : option number;
  jobCount : option nat
}.

Definition newMetric (job : WalJobRecord) : TableMetric :=
  {| metric_table := walJob_table job; metric_jobs := [];
     metric_totalRows := Fin 0; metric_totalTime := Fin 0;
     amplifications := [];
     avgAmplification := None; avgRate := None; jobCount := None |}.

Definition addJob (m : TableMetric) (job : WalJobRecord) : TableMetric :=
  {| metric_table := metric_table m;
     metric_jobs := push (metric_jobs m) job;
     metric_totalRows := add (metric_totalRows m) (rows job);
     metric_totalTime := add (metric_totalTime m) (timeMs job);
     amplifications := push (amplifications m) (amplification job);
     avgAmplification := avgAmplification m; avgRate := avgRate m;
     jobCount := jobCount m |}.

(** The body of [Object.values(metrics).forEach]. *)
Definition addAverages (m : TableMetric) : TableMetric :=
  {| metric_table := metric_table m;
     metric_jobs := metric_jobs m;
     metric_totalRows := metric_totalRows m;
     metric_totalTime := metric_totalTime m;
     amplifications := amplifications m;
     avgAmplification :=
       Some (div (sum (amplifications m))
                 (ofNat (List.length (amplifications m))));
     avgRate :=
       Some (div (metric_totalRows m)
                 (max2 (ofZ 1) (div (metric_totalTime m) (ofZ 1000))));
     jobCount := Some (List.length (metric_jobs m)) |}.

(** [aggregateWalMetrics(walData)] *)
Definition aggregateWalMetrics (walData : list WalJobRecord)
  : Result (Dict.t TableMetric) :=
  match fold_left (Dict.upsert walJob_table newMetric addJob TypeError)
                  walData (Ok []) with
  | Throw e => Throw e
  | Ok metrics => Ok (map (fun e => (fst e, addAverages (snd e))) metrics)
  end.

(** The entry of a query in [getTopQueries], before and after its
    statistics are added to it. *)
Record QueryStat := {
  stat_query : string;
  stat_fullSql : string;
  stat_times : list number;
  stat_count : nat;
  stat_totalTime : number;
  stat_avgTime : option number;
  stat_maxTime : option number;
  stat_minTime : option number;
  stat_p99 : option (option number);
  stat_p95 : option (option number);
  stat_p50 : option (option number)
}.

Definition newStat (item : QueryRecord) : QueryStat :=
  {| stat_query := sqlPreview item; stat_fullSql := fullSql item;
     stat_times := []; stat_count := 0; stat_totalTime := Fin 0;
     stat_avgTime := None; stat_maxTime := None; stat_minTime := None;
     stat_p99 := None; stat_p95 := None; stat_p50 := None |}.

Definition addTime (s : QueryStat) (item : QueryRecord) : QueryStat :=
  {| stat_query := stat_query s; stat_fullSql := stat_fullSql s;
     stat_times := push (stat_times s) (executionTimeMs item);
     stat_count := S (stat_count s);
     stat_totalTime := add (stat_totalTime s) (executionTimeMs item);
     stat_avgTime := stat_avgTime s; stat_maxTime := stat_maxTime s;
     stat_minTime := stat_minTime s;
     stat_p99 := stat_p99 s; stat_p95 := stat_p95 s; stat_p50 := stat_p50 s |}.

(** The body of [Object.values(queryStats).forEach]: the times are sorted
    in place after the extremes are taken. *)
Definition addStatistics (s : QueryStat) : QueryStat :=
  let sorted := sort num_gt (stat_times s) in
  {| stat_query := stat_query s; stat_fullSql := stat_fullSql s;
     stat_times := sorted;
     stat_count := stat_count s;
     stat_totalTime := stat_totalTime s;
     stat_avgTime := Some (div (stat_totalTime s) (ofNat (stat_count s)));
     stat_maxTime := Some (Math_max (stat_times s));
     stat_minTime := Some (Math_min (stat_times s));
     stat_p99 := Some (calculatePercentile sorted (ofZ 99));
     stat_p95 := Some (calculatePercentile sorted (ofZ 95));
     stat_p50 := Some (calculatePercentile sorted (ofZ 50)) |}.

(** [b.maxTime - a.maxTime] is positive; an absent [maxTime] makes the
    difference [NaN]. *)
Definition slower (a b : QueryStat) : bool :=
  match stat_maxTime a, stat_maxTime b with
  | Some x, Some y => isPositive (sub y x)
  | _, _ => false
  end.

(** [getTopQueries(data, limit)] *)
Definition getTopQueries (data : list QueryRecord) (limit : Z)
  : Result (list QueryStat) :=
  match fold_left (Dict.upsert sqlPreview newStat addTime TypeError)
                  data (Ok []) with
  | Throw e => Throw e
  | Ok queryStats =>
      Ok (sliceTo (sort slower (map addStatistics (Dict.values queryStats)))
                  limit)
  end.

Record Statistics := {
  stats_count : nat;
  stats_mean : number;
  stats_median : option number;
  stats_min : option number;
  stats_max : option number;
  stats_stdDev : number;
  stats_p25 : option number;
  stats_p75 : option number;
  stats_p95 : option number;
  stats_p99 : option number
}.

Section Statistics.

(** [Math.sqrt] and [Math.pow], of the host: the result of [Math.pow] is
    an approximation the implementation chooses. *)
Variable Math_sqrt : number -> number.
Variable Math_pow : number -> number -> number.

(** [calculateStatistics(data)], in the arithmetic of the doubles.  The
    comparator of the sort looks at the sign of [a - b] only, which is
    that of the exact difference: the difference of two doubles rounds to
    0 only when they are equal. *)
Definition calculateStatistics (data : list number) : Statistics :=
  match data with
  | [] =>
      {| stats_count := 0; stats_mean := Fin 0; stats_median := Some (Fin 0);
         stats_min := Some (Fin 0); stats_max := Some (Fin 0);
         stats_stdDev := Fin 0;
         stats_p25 := Some (Fin 0); stats_p75 := Some (Fin 0);
         stats_p95 := Some (Fin 0); stats_p99 := Some (Fin 0) |}
  | _ =>
      let sorted := sort num_gt data in
      let count := List.length data in
      let total := fsum data in
      let mean := fdiv total (ofNat count) in
      let squaredDiffs :=
        map (fun value => Math_pow (fsub value mean) (ofZ 2)) data in
      let avgSquaredDiff := fdiv (fsum squaredDiffs) (ofNat count) in
      {| stats_count := count;
         stats_mean := mean;
         stats_median := calculatePercentile sorted (ofZ 50);
         stats_min := nth_error sorted 0;
         stats_max := nth_error sorted (List.length sorted - 1);
         stats_stdDev := Math_sqrt avgSquaredDiff;
         stats_p25 := calculatePercentile sorted (ofZ 25);
         stats_p75 := calculatePercentile sorted (ofZ 75);
         stats_p95 := calculatePercentile sorted (ofZ 95);
         stats_p99 := calculatePercentile sorted (ofZ 99) |}
  end.

End Statistics.

Section GroupBySecond.
Context {A : Type} `{Timestamped A} `{Timed A}.

(** [LocalTZA(t, isUTC)], of the host: the offset of the local time zone
    in milliseconds, at the time value [t] when [isUTC] holds and at the
    local time [t] otherwise. *)
Variable LocalTZA : Z -> bool -> Z.

Definition LocalTime (t : Z) : Z := (t + LocalTZA t true)%Z.
Definition UTC (t : Z) : Z := (t - LocalTZA t false)%Z.

(** [time.setMilliseconds(0)] on the time value of a valid date: the
    milliseconds of the local time are set to 0, and the result is read
    as a local time.  [TimeClip] is left out, as the range of the time
    values is. *)
Definition setMilliseconds0 (t : Z) : Z :=
  let local := LocalTime t in
  UTC (local - local mod 1000)%Z.

(** The body of [data.forEach] in [groupBySecond].  The key is the ISO
    string of the time with its milliseconds set to 0; it is modelled by
    the time value it spells, which [new Date(timestamp)] reads back.
    [setMilliseconds] leaves an invalid date as it is, and [toISOString]
    throws on it. *)
Definition addToSecond (acc : Result (Obj.t (list A))) (item : A)
  : Result (Obj.t (list A)) :=
  match acc with
  | Throw e => Throw e
  | Ok grouped =>
      match getTime (timestamp item) with
      | None => Throw RangeError
      | Some t =>
          let key := Some (setMilliseconds0 t) in
          match Obj.get grouped key with
          | Some group => Ok (Obj.set grouped key (push group item))
          | None => Ok (Obj.set grouped key (push [] item))
          end
      end
  end.

(** [groupBySecond(data)]: the keys are no array indices, so that
    [Object.entries] lists them in the order of their creation. *)
Definition groupBySecond (data : list A) : Result (list (TimeBucket A)) :=
  match fold_left addToSecond data (Ok []) with
  | Throw e => Throw e
  | Ok grouped => Ok (sort bucket_gt (map makeBucket grouped))
  end.

End GroupBySecond.

(* ================================================================== *)
(** ** utils/FileUtils.js: progress and validation *)
(* ================================================================== *)

(** [calculateProgress(current, total)]: the quotient and the product
    are those of the doubles. *)
Definition calculateProgress (current total : number) : number :=
  if isZero total then Fin 0
  else Math_round (fmul (fdiv current total) (ofZ 100)).

(** The [name] and the [type] of a [File]. *)
Record FileInfo := {
  info_name : string;
  info_type : string
}.

(** [toLowerCase] on 8-bit code units: the letters of ASCII and those of
    Latin-1. *)
Definition toLower (a : ascii) : ascii :=
  let n := Str.code a in
  if ((65 <=? n) && (n <=? 90))%nat
     || ((192 <=? n) && (n <=? 222) && negb (n =? 215))%nat
  then ascii_of_nat (n + 32) else a.

Fixpoint toLowerCase (s : string) : string :=
  match s with
  | EmptyString => EmptyString
  | String a s' => String (toLower a) (toLowerCase s')
  end.

(** [s.endsWith(suffix)] *)
Fixpoint endsWith (s suffix : string) : bool :=
  String.eqb s suffix
  || match s with
     | EmptyString => false
     | String _ s' => endsWith s' suffix
     end.

(** [isValidLogFile(file)] *)
Definition isValidLogFile (file : FileInfo) : bool :=
  let validExtensions := [".log"; ".txt"] in
  let validMimeTypes := ["text/plain"; "text/log"; "application/octet-stream"] in
  let hasValidExtension :=
    existsb (fun ext => endsWith (toLowerCase (info_name file)) ext)
            validExtensions in
  let hasValidMimeType :=
    existsb (String.eqb (info_type file)) validMimeTypes
    || String.eqb (info_type file) "" in
  hasValidExtension || hasValidMimeType.

(* ================================================================== *)
(** ** store/DataStore.js *)
(* ================================================================== *)

(** A listener: the identity of a function object. *)
Definition Callback := nat.

(** The state of the store, without the chart instances and the
    visibility of their series. *)
Record DataStore := {
  parsedData : list QueryRecord;
  errorData : list SystemEventRecord;
  walData : list WalJobRecord;
  store_walCommits : list WalCommitRecord;
  partitionClosingData : list PartitionClosingRecord;
  pgwireConnectionData : list PgwireConnectionRecord;
  store_fileMetadata : list FileMetadata;
  listeners : Dict.t (list Callback)
}.

(** What a listener is called with. *)
Inductive Payload : Type :=
| Queries (data : list QueryRecord)
| WalJobs (data : list WalJobRecord)
| WalCommits (data : list WalCommitRecord)
| SystemEvents (data : list SystemEventRecord)
| PartitionClosings (data : list PartitionClosingRecord)
| PgwireConnections (data : list PgwireConnectionRecord)
| FileMetadataList (data : list FileMetadata)
| AllResults (data : ParseResult).

(** One call of a listener. *)
Definition Call := (Callback * Payload)%type.

(** What a method of the store yields: the store it leaves and the calls
    of listeners it made, in their order, or what it threw.  The
    listeners are taken not to touch the store while they are called. *)
Definition Step := Result (DataStore * list Call).

Definition andThen (s : Step) (f : DataStore -> Step) : Step :=
  match s with
  | Throw e => Throw e
  | Ok (st, calls) =>
      match f st with
      | Throw e => Throw e
      | Ok (st', calls') => Ok (st', calls ++ calls')
      end
  end.

Notation "s >>> f" := (andThen s f) (at level 61, left associativity).

(** [new DataStore()] *)
Definition newStore : DataStore :=
  {| parsedData := []; errorData := []; walData := []; store_walCommits := [];
     partitionClosingData := []; pgwireConnectionData := [];
     store_fileMetadata := []; listeners := [] |}.

(** [reset()]: the listeners stay. *)
Definition reset (st : DataStore) : DataStore :=
  {| parsedData := []; errorData := []; walData := []; store_walCommits := [];
     partitionClosingData := []; pgwireConnectionData := [];
     store_fileMetadata := []; listeners := listeners st |}.

(** What the call of a method that the object has not throws. *)
Definition missingMethod (method : string) : Error :=
  {| errorName := "TypeError";
     errorMessage := method ++ " is not a function" |}.

(** [emit(event, data)]: an event called like a member of
    [Object.prototype] finds that member, which has no [forEach]. *)
Definition emit (st : DataStore) (event : string) (data : Payload)
  : Result (list Call) :=
  match Dict.getOwn (listeners st) event with
  | Some callbacks => Ok (map (fun callback => (callback, data)) callbacks)
  | None =>
      if Dict.inherited event then Throw (missingMethod "forEach") else Ok []
  end.

Definition notify (st : DataStore) (event : string) (data : Payload) : Step :=
  match emit st event data with
  | Throw e => Throw e
  | Ok calls => Ok (st, calls)
  end.

Definition setQueryData (st : DataStore) (data : list QueryRecord) : Step :=
  notify {| parsedData := data; errorData := errorData st;
            walData := walData st; store_walCommits := store_walCommits st;
            partitionClosingData := partitionClosingData st;
            pgwireConnectionData := pgwireConnectionData st;
            store_fileMetadata := store_fileMetadata st;
            listeners := listeners st |}
         "queryDataChanged" (Queries data).

Definition setWalData (st : DataStore) (data : list WalJobRecord) : Step :=
  notify {| parsedData := parsedData st; errorData := errorData st;
            walData := data; store_walCommits := store_walCommits st;
            partitionClosingData := partitionClosingData st;
            pgwireConnectionData := pgwireConnectionData st;
            store_fileMetadata := store_fileMetadata st;
            listeners := listeners st |}
         "walDataChanged" (WalJobs data).

Definition setWalCommits (st : DataStore) (data : list WalCommitRecord) : Step :=
  notify {| parsedData := parsedData st; errorData := errorData st;
            walData := walData st; store_walCommits := data;
            partitionClosingData := partitionClosingData st;
            pgwireConnectionData := pgwireConnectionData st;
            store_fileMetadata := store_fileMetadata st;
            listeners := listeners st |}
         "walCommitsChanged" (WalCommits data).

Definition setErrorData (st : DataStore) (data : list SystemEventRecord) : Step :=
  notify {| parsedData := parsedData st; errorData := data;
            walData := walData st; store_walCommits := store_walCommits st;
            partitionClosingData := partitionClosingData st;
            pgwireConnectionData := pgwireConnectionData st;
            store_fileMetadata := store_fileMetadata st;
            listeners := listeners st |}
         "errorDataChanged" (SystemEvents data).

Definition setPartitionClosingData (st : DataStore)
           (data : list PartitionClosingRecord) : Step :=
  notify {| parsedData := parsedData st; errorData := errorData st;
            walData := walData st; store_walCommits := store_walCommits st;
            partitionClosingData := data;
            pgwireConnectionData := pgwireConnectionData st;
            store_fileMetadata := store_fileMetadata st;
            listeners := listeners st |}
         "partitionClosingDataChanged" (PartitionClosings data).

Definition setPgwireConnectionData (st : DataStore)
           (data : list PgwireConnectionRecord) : Step :=
  notify {| parsedData := parsedData st; errorData := errorData st;
            walData := walData st; store_walCommits := store_walCommits st;
            partitionClosingData := partitionClosingData st;
            pgwireConnectionData := data;
            store_fileMetadata := store_fileMetadata st;
            listeners := listeners st |}
         "pgwireConnectionDataChanged" (PgwireConnections data).

(** [addFileMetadata(fileName, startTime, endTime, recordCount)] *)
Definition addFileMetadata (st : DataStore) (entry : FileMetadata) : Step :=
  let all := push (store_fileMetadata st) entry in
  notify {| parsedData := parsedData st; errorData := errorData st;
            walData := walData st; store_walCommits := store_walCommits st;
            partitionClosingData := partitionClosingData st;
            pgwireConnectionData := pgwireConnectionData st;
            store_fileMetadata := all;
            listeners := listeners st |}
         "fileMetadataChanged" (FileMetadataList all).

(** What [getAllData] and [filterByTable] return. *)
Record StoreView := {
  view_queries : list QueryRecord;
  view_walJobs : list WalJobRecord;
  view_walCommits : list WalCommitRecord;
  view_errors : list SystemEventRecord;
  view_partitionClosings : list PartitionClosingRecord;
  view_pgwireConnections : list PgwireConnectionRecord;
  view_fileMetadata : list FileMetadata
}.

Definition getAllData (st : DataStore) : StoreView :=
  {| view_queries := parsedData st;
     view_walJobs := walData st;
     view_walCommits := store_walCommits st;
     view_errors := errorData st;
     view_partitionClosings := partitionClosingData st;
     view_pgwireConnections := pgwireConnectionData st;
     view_fileMetadata := store_fileMetadata st |}.

(** [tables.add(t)] on a [Set], kept in the order of insertion. *)
Definition setAdd (tables : list string) (t : string) : list string :=
  if existsb (String.eqb t) tables then tables else push tables t.

(** [if (item.table) tables.add(item.table)] *)
Definition addTable {A} `{Tabled A} (tables : list string) (item : A)
  : list string :=
  match table item with
  | Some (String _ _ as t) => setAdd tables t
  | _ => tables
  end.

(** The order of [sort()] without a comparator, on strings: the order of
    their code units. *)
Definition string_gt (a b : string) : bool :=
  match String.compare a b with
  | Gt => true
  | _ => false
  end.

Definition getUniqueTables (st : DataStore) : list string :=
  let tables := fold_left addTable (walData st) [] in
  let tables := fold_left addTable (errorData st) tables in
  let tables := fold_left addTable (partitionClosingData st) tables in
  sort string_gt tables.

(** [d.table === tableName] *)
Definition tableIs {A} `{Tabled A} (tableName : string) (d : A) : bool :=
  match table d with
  | Some t => String.eqb t tableName
  | None => false
  end.

Definition filterByTable (st : DataStore) (tableName : string) : StoreView :=
  if String.eqb tableName "all" then getAllData st
  else
    {| view_queries := parsedData st;
       view_walJobs := filter (tableIs tableName) (walData st);
       view_walCommits := filter (tableIs tableName) (store_walCommits st);
       view_errors := filter (tableIs tableName) (errorData st);
       view_partitionClosings :=
         filter (tableIs tableName) (partitionClosingData st);
       view_pgwireConnections := pgwireConnectionData st;
       view_fileMetadata := store_fileMetadata st |}.

Definition withListeners (st : DataStore) (l : Dict.t (list Callback))
  : DataStore :=
  {| parsedData := parsedData st; errorData := errorData st;
     walData := walData st; store_walCommits := store_walCommits st;
     partitionClosingData := partitionClosingData st;
     pgwireConnectionData := pgwireConnectionData st;
     store_fileMetadata := store_fileMetadata st;
     listeners := l |}.

(** [on(event, callback)] *)
Definition on (st : DataStore) (event : string) (callback : Callback)
  : Result DataStore :=
  match Dict.getOwn (listeners st) event with
  | Some callbacks =>
      Ok (withListeners st (Dict.set (listeners st) event (push callbacks callback)))
  | None =>
      if Dict.inherited event then Throw (missingMethod "push")
      else Ok (withListeners st (Dict.set (listeners st) event (push [] callback)))
  end.

(** [a.splice(a.indexOf(callback), 1)] when the callback is in [a]. *)
Fixpoint removeFirst (callback : Callback) (a : list Callback) : list Callback :=
  match a with
  | [] => []
  | c :: a' => if Nat.eqb c callback then a' else c :: removeFirst callback a'
  end.

(** [off(event, callback)] *)
Definition off (st : DataStore) (event : string) (callback : Callback)
  : Result DataStore :=
  match Dict.getOwn (listeners st) event with
  | Some callbacks =>
      Ok (withListeners st
            (Dict.set (listeners st) event (removeFirst callback callbacks)))
  | None =>
      if Dict.inherited event then Throw (missingMethod "indexOf") else Ok st
  end.

(** What [processFiles] does with the store: it resets it, adds the
    metadata of the files as they are processed, sets the six
    collections and emits the completion event. *)
Definition publish (st : DataStore) (batch : BatchState) : Step :=
  let r := allResults batch in
  fold_left (fun s entry => s >>> fun st => addFileMetadata st entry)
            (fileMetadata batch) (Ok (reset st, []))
  >>> (fun st => setQueryData st (queries r))
  >>> (fun st => setWalData st (walJobs r))
  >>> (fun st => setWalCommits st (walCommits r))
  >>> (fun st => setPartitionClosingData st (partitionClosings r))
  >>> (fun st => setPgwireConnectionData st (pgwireConnections r))
  >>> (fun st => setErrorData st (systemEvents r))
  >>> (fun st => notify st "filesProcessed" (AllResults r)).

(* ================================================================== *)
(** ** visualization/ChartManager.js: the grouping of the heatmaps *)
(* ================================================================== *)

(** A property of [grouped] and a group of the result. *)
Record ChartGroup (A : Type) := {
  group_timestamp : Date;
  group_items : list A;
  group_totalTime : number;
  group_count : nat
}.
Arguments group_timestamp {A} _.
Arguments group_items {A} _.
Arguments group_totalTime {A} _.
Arguments group_count {A} _.

Record ChartBucket (A : Type) := {
  chart_timestamp : Date;
  chart_items : list A;
  chart_avgTime : number;
  chart_count : nat
}.
Arguments chart_timestamp {A} _.
Arguments chart_items {A} _.
Arguments chart_avgTime {A} _.
Arguments chart_count {A} _.

Module ChartManager.
Section ChartManager.
Context {A : Type} `{Timestamped A} `{Timed A}.

(** The body of [data.forEach]: the key is the time value of
    [intervalStart]. *)
Definition addItem (intervalMs : Z) (grouped : Obj.t (ChartGroup A)) (item : A)
  : Obj.t (ChartGroup A) :=
  let key := intervalKey intervalMs item in
  let intervalStart := dateOfTime key in
  let group :=
    match Obj.get grouped key with
    | Some group => group
    | None => {| group_timestamp := intervalStart; group_items := [];
                 group_totalTime := Fin 0; group_count := 0 |}
    end in
  Obj.set grouped key
    {| group_timestamp := group_timestamp group;
       group_items := push (group_items group) item;
       group_totalTime := add (group_totalTime group) (executionTimeMs item);
       group_count := S (group_count group) |}.

Definition toBucket (group : ChartGroup A) : ChartBucket A :=
  {| chart_timestamp := group_timestamp group;
     chart_items := group_items group;
     chart_avgTime := div (group_totalTime group) (ofNat (group_count group));
     chart_count := group_count group |}.

(** [(a, b) => a.timestamp - b.timestamp] is positive. *)
Definition bucket_gt (a b : ChartBucket A) : bool :=
  match dateDiff (chart_timestamp a) (chart_timestamp b) with
  | Some d => (d >? 0)%Z
  | None => false
  end.

Definition groupByInterval (data : list A) (intervalMs : Z)
  : list (ChartBucket A) :=
  let grouped := fold_left (addItem intervalMs) data [] in
  sort bucket_gt (map toBucket (map snd (Obj.entries grouped))).

End ChartManager.
End ChartManager.

(* ================================================================== *)
(** ** Readings and inputs the statements refer to *)
(* ================================================================== *)

(** *** Table names *)

(** One digit or more. *)
Definition isNumeral (s : string) : bool :=
  match s with
  | EmptyString => false
  | String d s' => Str.isDigit d && Str.all Str.isDigit s'
  end.

(** The name ends with a shard suffix, [~] and a numeral. *)
Fixpoint endsWithShard (s : string) : bool :=
  match s with
  | EmptyString => false
  | String a s' => (Ascii.eqb a "~" && isNumeral s') || endsWithShard s'
  end.

(** The name cut at the first [~] that a numeral follows to the end. *)
Fixpoint stripShard (s : string) : string :=
  match s with
  | EmptyString => EmptyString
  | String a s' =>
      if Ascii.eqb a "~" && isNumeral s' then EmptyString
      else String a (stripShard s')
  end.

(** The end of the pattern [/~\d+$/], after its digits: [$], then the
    match is found. *)
Definition atEnd : @Continuation (string * captures) :=
  fun s1 c1 => rmatch REnd s1 c1 (fun s' c => Some (s', c)).

(** *** The SQL preview *)

(** The whitespace-delimited tokens of a statement: the maximal runs of
    characters that are not white space. *)
Fixpoint tokens (s : string) : list string :=
  match s with
  | EmptyString => []
  | String a s' =>
      if Str.isSpace a then tokens s'
      else
        match s' with
        | EmptyString => [String a EmptyString]
        | String b _ =>
            if Str.isSpace b then String a EmptyString :: tokens s'
            else
              match tokens s' with
              | w :: ws => String a w :: ws
              | [] => [String a EmptyString]
              end
        end
  end.

(** The preview as the specification words it: the first 5
    whitespace-delimited tokens joined by single spaces, and ["..."] when
    there are more than 5 tokens. *)
Definition spec_sqlPreview (sql : string) : string :=
  Str.join " " (firstn 5 (tokens sql))
  ++ (if (5 <? List.length (tokens sql))%nat then "..." else "").

(** A word: not empty and free of white space. *)
Definition isWord (w : string) : bool :=
  negb (String.eqb w "") && Str.all (fun a => negb (Str.isSpace a)) w.

(** *** The six collections *)

(** The number of collections of [r'] that differ in size from those of
    [r]. *)
Definition collectionsChanged (r r' : ParseResult) : nat :=
  let changed (A : Type) (l l' : list A) : nat :=
    if (List.length l =? List.length l')%nat then 0%nat else 1%nat in
  (changed _ (queries r) (queries r') + changed _ (walJobs r) (walJobs r')
   + changed _ (walCommits r) (walCommits r')
   + changed _ (partitionClosings r) (partitionClosings r')
   + changed _ (pgwireConnections r) (pgwireConnections r')
   + changed _ (systemEvents r) (systemEvents r'))%nat.

(** *** Time buckets *)

(** The date [a] is before the date [b], both being valid. *)
Definition Date_lt (a b : Date) : Prop :=
  match a, b with
  | ValidDate x, ValidDate y => (x < y)%Z
  | _, _ => False
  end.

(** The time value of the start of a bucket. *)
Definition bucketTime {A} (b : TimeBucket A) : Z :=
  match bucket_timestamp b with
  | ValidDate t => t
  | InvalidDate => 0%Z
  end.

(** The invariant of the object [grouped] while [groupByInterval] runs
    over the items [seen]: one property per key, each holding the items
    of that key, one at least, and all the items seen. *)
Definition Grouped {A} `{Timestamped A} (intervalMs : Z)
           (grouped : Obj.t (list A)) (seen : list A) : Prop :=
  NoDup (map fst grouped)
  /\ (forall k its, In (k, its) grouped ->
        its <> [] /\ forall x, In x its -> intervalKey intervalMs x = k)
  /\ Permutation (List.concat (map snd grouped)) seen.

(** *** Histogram bins *)

(** The least and the greatest of the rationals [q0 :: qs]. *)
Definition Qleast (q0 : Q) (qs : list Q) : Q :=
  fold_left (fun a b => if Qle_bool a b then a else b) qs q0.

Definition Qgreatest (q0 : Q) (qs : list Q) : Q :=
  fold_left (fun a b => if Qle_bool a b then b else a) qs q0.

(** The invariant of the bins of width [w] from [lo] on while the values
    [counted] are put into them: the bins keep their bounds and their
    labels, and each holds the values of its index, counted. *)
Definition Binned (lo w : Q) (binCount : Z) (bins : list Bin)
           (counted : list number) : Prop :=
  List.length bins = Z.to_nat binCount
  /\ (forall i b, nth_error bins i = Some b ->
        bin_start b = fadd (Fin lo) (fmul (ofNat i) (Fin w))
        /\ bin_end b = fadd (bin_start b) (Fin w)
        /\ bin_label b
           = (toFixed (bin_start b) 1 ++ "-" ++ toFixed (bin_end b) 1)%string
        /\ bin_count b = List.length (bin_values b)
        /\ forall v, In v (bin_values b) ->
             exists q, v = Fin q
                       /\ binIndexOf (Fin lo) (Fin w) binCount (Fin q) = ofNat i)
  /\ Permutation (List.concat (map bin_values bins)) counted.

(** The least positive double, 2^-1074. *)
Definition leastDouble : Q := 2 ^ (-1074).

(** *** The batch of files *)

(** The state [processFiles] starts from. *)
Definition emptyState : BatchState :=
  {| allResults := emptyResult; fileMetadata := []; errors := [] |}.

(** The state [b] appended to the state [a]. *)
Definition appendState (a b : BatchState) : BatchState :=
  {| allResults := merge (allResults a) (allResults b);
     fileMetadata := fileMetadata a ++ fileMetadata b;
     errors := errors a ++ errors b |}.

(** *** Sample inputs *)

(** A date parser for the examples on concrete lines: the date it
    yields does not matter to them. *)
Definition anyDate : string -> Date := fun _ => InvalidDate.

(** The sample line of the specification. *)
Definition sampleQueryLine : string :=
  "2025-09-03T13:24:11.877189Z I i.q.g.e.QueryProgress fin [id=12345, sql=`SELECT * FROM trades WHERE symbol = 'BTC'`, time=285890000]".

(** The same line with the progress marker [exe]. *)
Definition sampleExeLine : string :=
  "2025-09-03T13:24:11.877189Z I i.q.g.e.QueryProgress exe [id=12345, sql=`SELECT * FROM trades WHERE symbol = 'BTC'`, time=285890000]".

(** A query whose statement has two spaces in a row. *)
Definition doubleSpaceLine : string :=
  "2025-09-03T13:24:11.877189Z I i.q.g.e.QueryProgress fin [id=7, sql=`SELECT a,  b FROM t WHERE x = 1`, time=1000000]".

(** A query line that also carries the text of a system event. *)
Definition queryAndEventLine : string :=
  "2025-09-03T13:24:11.877189Z I i.q.g.e.QueryProgress fin [id=7, sql=`SELECT 'squashing partitions [table=x, n=1]'`, time=1000000]".

(** A WAL commit. *)
Definition walCommitLine : string :=
  "2025-09-03T13:24:10.000000Z I i.q.c.w.WalWriter commit [wal=/trades~21/wal1/0, segTxn=1, seqTxn=2, rowLo=80337, rowHi=80437, minTs=1]".

(** A parse result with a query at 2000 ms and an earlier WAL commit, at
    1000 ms. *)
Definition queryAndCommit : ParseResult :=
  {| queries := [ {| query_timestamp := ValidDate 2000;
                     query_executionTimeMs := Fin 1;
                     sqlPreview := "SELECT 1"; fullSql := "SELECT 1";
                     query_file := "a.log" |} ];
     walJobs := [];
     walCommits := [ {| walCommit_timestamp := ValidDate 1000;
                        walCommit_table := "trades";
                        rowsCommitted := Fin 100; rowLo := Fin 0; rowHi := Fin 100;
                        walCommit_file := "a.log" |} ];
     partitionClosings := []; pgwireConnections := []; systemEvents := [] |}.

(** A parser that fails on the text ["corrupt"], as the mocks of the test
    suite do, and is the parser of the repository otherwise. *)
Definition failingParser (content name : string) : Result ParseResult :=
  if String.eqb content "corrupt"
  then Throw {| errorName := "Error"; errorMessage := "Parse failed" |}
  else Ok (parseQuestDBLog anyDate content name true).

(** A query at the time value [t] that took [ms] milliseconds. *)
Definition queryAt (t : Z) (ms : Z) : QueryRecord :=
  {| query_timestamp := ValidDate t; query_executionTimeMs := ofZ ms;
     sqlPreview := "SELECT 1"; fullSql := "SELECT 1"; query_file := "a.log" |}.

(** Three queries at 600 ms, 1000 ms and 1600 ms: 100 ms, 500 ms and
    1100 ms after the origin 500 ms. *)
Definition offOriginQueries : list QueryRecord :=
  [queryAt 600 10; queryAt 1000 20; queryAt 1600 30].

(** *** Further inputs and readings *)

(** A line that spells a system event and carries no timestamp. *)
Definition untimedEventLine : string :=
  "E i.q.c.TableWriter o3 split partition [table=trades~3, part=2025-09-03]".

(** Every record of [r] names the file [fileName]. *)
Definition fromFile (fileName : string) (r : ParseResult) : Prop :=
  Forall (fun q => query_file q = fileName) (queries r)
  /\ Forall (fun w => walJob_file w = fileName) (walJobs r)
  /\ Forall (fun c => walCommit_file c = fileName) (walCommits r)
  /\ Forall (fun p => closing_file p = fileName) (partitionClosings r)
  /\ Forall (fun g => pgwire_file g = fileName) (pgwireConnections r)
  /\ Forall (fun e => event_file e = fileName) (systemEvents r).

(** The line feed that separates the lines of a file. *)
Definition newline : string := String "010" EmptyString.

(** A line that reports that the connection limit is reached. *)
Definition connectionLimitLine : string :=
  "2025-09-03T13:24:12.000001Z I i.q.n.pg.PgServer max connection limit reached [fd=12], unregistered listener".

(** What reading and parsing a file gives [processFiles]: the parse
    result, or what was thrown. *)
Definition parseFile {File : Type} (name : File -> string)
           (readFile : File -> Result string)
           (logParser : string -> string -> Result ParseResult)
           (file : File) : Result ParseResult :=
  match readFile file with
  | Throw e => Throw e
  | Ok content => logParser content (name file)
  end.

(** The records of an outcome: none when it is a failure. *)
Definition recordsOf (outcome : Result ParseResult) : ParseResult :=
  match outcome with
  | Ok r => r
  | Throw _ => emptyResult
  end.

(** The message of an outcome: none when it is a success. *)
Definition messageOf (fileName : string) (outcome : Result ParseResult)
  : list string :=
  match outcome with
  | Ok _ => []
  | Throw e => [createErrorMessage fileName e]
  end.

Definition succeeded (outcome : Result ParseResult) : bool :=
  match outcome with Ok _ => true | Throw _ => false end.

(** *** Times *)

(** Queries at the given time values, 1 ms each. *)
Definition queriesAt (ts : list Z) : list QueryRecord :=
  map (fun t => queryAt t 1) ts.

(** A query whose timestamp did not parse. *)
Definition undatedQuery : QueryRecord :=
  {| query_timestamp := InvalidDate; query_executionTimeMs := ofZ 1;
     sqlPreview := "SELECT 1"; fullSql := "SELECT 1"; query_file := "a.log" |}.

(** The host sets the milliseconds of the date of [x] to 0 by going down
    to the whole second. *)
Definition wholeSecond {A : Type} `{Timestamped A}
           (LocalTZA : Z -> bool -> Z) (x : A) : Prop :=
  forall t, getTime (timestamp x) = Some t ->
            setMilliseconds0 LocalTZA t = (t / 1000 * 1000)%Z.

(** The offset of Europe/Berlin around the end of the summer time of
    2025, on 26 October at 01:00 UTC: two hours before it and one hour
    after it.  A local time of the repeated hour, from 02:00 to 03:00, is
    read as summer time. *)
Definition berlinOffset (t : Z) (isUTC : bool) : Z :=
  let transition := 1761440400000%Z in
  if isUTC then (if (t <? transition)%Z then 7200000 else 3600000)%Z
  else (if (t <? transition + 7200000)%Z then 7200000 else 3600000)%Z.

(** *** Ranks and orders *)

(** The order of the numbers; [NaN] is not in it. *)
Definition nle (a b : number) : Prop :=
  match a, b with
  | NaN, _ | _, NaN => False
  | NInf, _ | _, PInf => True
  | Fin x, Fin y => x <= y
  | _, _ => False
  end.

(** The rounded value of a positive rational before the overflow is
    looked at. *)
Definition rawRound (x : Q) : Q :=
  inject_Z (F64.nearestEven (x / 2 ^ F64.ulpExponent x)) * 2 ^ F64.ulpExponent x.

(** The index [calculatePercentile] computes in an array of [n] values
    from the quotient [y] of the percentile by 100. *)
Definition indexAt (n : nat) (y : number) : number :=
  max2 (ofZ 0) (fsub (ceil (fmul y (ofNat n))) (ofZ 1)).

(** The index [calculatePercentile] reads in an array of [n] values at the
    percentile [p], where it is one. *)
Definition rank64 (n : nat) (p : Q) : nat :=
  match max2 (ofZ 0)
             (fsub (ceil (fmul (fdiv (Fin p) (ofZ 100)) (ofNat n))) (ofZ 1)) with
  | Fin q => Z.to_nat (Qfloor q)
  | _ => 0
  end.

(** The numbers from 0 to 49, in ascending order. *)
Definition fiftyValues : list number := map ofNat (List.seq 0 50).

(** [a - b > 0] on rationals. *)
Definition Qgt_bool (a b : Q) : bool := negb (Qle_bool a b).

(** *** Objects used as maps *)

(** The items whose key is [k]. *)
Definition withKey {A} (key : A -> string) (k : string) (data : list A)
  : list A :=
  filter (fun x => String.eqb (key x) k) data.

(** The entry [Dict.upsert] builds from the items of one key: none when
    there is no item. *)
Definition folded {A V} (init : A -> V) (step : V -> A -> V) (items : list A)
  : option V :=
  match items with
  | [] => None
  | x :: _ => Some (fold_left step items (init x))
  end.

(** No own property of [o] hides a member of [Object.prototype]. *)
Definition plain {V} (o : Dict.t V) : Prop :=
  forall k, Dict.inherited k = true -> Dict.getOwn o k = None.

(** The metrics of the table [t] whose jobs are [jobs], as
    [aggregateWalMetrics] is meant to give them. *)
Definition tableMetricOf (t : string) (jobs : list WalJobRecord) : TableMetric :=
  {| metric_table := t;
     metric_jobs := jobs;
     metric_totalRows := sum (map rows jobs);
     metric_totalTime := sum (map timeMs jobs);
     amplifications := map amplification jobs;
     avgAmplification :=
       Some (div (sum (map amplification jobs)) (ofNat (List.length jobs)));
     avgRate :=
       Some (div (sum (map rows jobs))
                 (max2 (ofZ 1) (div (sum (map timeMs jobs)) (ofZ 1000))));
     jobCount := Some (List.length jobs) |}.

(** A job of the table [t]. *)
Definition jobOf (t : string) (n : Z) : WalJobRecord :=
  {| walJob_timestamp := ValidDate 0; walJob_table := t;
     transactions := ofZ 1; rows := ofZ n; timeMs := ofZ 2000; rate := ofZ 1;
     amplification := ofZ 1; walJob_file := "a.log" |}.

(** The statistics of the queries [items], all of one preview, as
    [getTopQueries] is meant to give them: the preview and the full text
    are those of the first query. *)
Definition queryStatOf (items : list QueryRecord) : option QueryStat :=
  match items with
  | [] => None
  | x :: _ =>
      let times := map executionTimeMs items in
      let sorted := sort num_gt times in
      Some {| stat_query := sqlPreview x; stat_fullSql := fullSql x;
              stat_times := sorted;
              stat_count := List.length items;
              stat_totalTime := sum times;
              stat_avgTime := Some (div (sum times) (ofNat (List.length items)));
              stat_maxTime := Some (Math_max times);
              stat_minTime := Some (Math_min times);
              stat_p99 := Some (calculatePercentile sorted (ofZ 99));
              stat_p95 := Some (calculatePercentile sorted (ofZ 95));
              stat_p50 := Some (calculatePercentile sorted (ofZ 50)) |}
  end.

(** The [maxTime] of an entry, where it is a finite number. *)
Definition maxTimeOf (s : QueryStat) : Q :=
  match stat_maxTime s with
  | Some (Fin q) => q
  | _ => 0
  end.

(** The extremes and the percentiles of an entry are finite and in their
    order. *)
Definition ordered (s : QueryStat) : Prop :=
  exists lo p50 p95 p99 hi : Q,
    stat_minTime s = Some (Fin lo)
    /\ stat_p50 s = Some (Some (Fin p50))
    /\ stat_p95 s = Some (Some (Fin p95))
    /\ stat_p99 s = Some (Some (Fin p99))
    /\ stat_maxTime s = Some (Fin hi)
    /\ lo <= p50 /\ p50 <= p95 /\ p95 <= p99 /\ p99 <= hi.

(** A query of the text [sql] that took [ms] milliseconds. *)
Definition queryOf (sql : string) (ms : Z) : QueryRecord :=
  {| query_timestamp := ValidDate 0; query_executionTimeMs := ofZ ms;
     sqlPreview := sql; fullSql := sql; query_file := "a.log" |}.

(** *** The store *)

(** The listeners of an event, in the order of their registration. *)
Definition listenersOf (st : DataStore) (event : string) : list Callback :=
  match Dict.getOwn (listeners st) event with
  | Some callbacks => callbacks
  | None => []
  end.

(** The calls of the listeners [callbacks] with [data]. *)
Definition callsOf (callbacks : list Callback) (data : Payload) : list Call :=
  map (fun callback => (callback, data)) callbacks.

(** Some item of the table [t]. *)
Definition hasTable {A} `{Tabled A} (t : string) (data : list A) : Prop :=
  Exists (fun item => table item = Some t) data.

(** A commit of one row to the table [t]. *)
Definition commitOf (t : string) : WalCommitRecord :=
  {| walCommit_timestamp := ValidDate 0; walCommit_table := t;
     rowsCommitted := ofZ 1; rowLo := ofZ 0; rowHi := ofZ 1;
     walCommit_file := "a.log" |}.

(** A store of two jobs, a closing and two commits, one of them of a
    table that has nothing else. *)
Definition sampleStore : DataStore :=
  {| parsedData := [queryOf "SELECT a" 5];
     errorData := [];
     walData := [jobOf "trades" 1; jobOf "quotes" 2];
     store_walCommits := [commitOf "fills"; commitOf "trades"];
     partitionClosingData :=
       [{| closing_timestamp := ValidDate 0; closing_table := "trades";
           partitionTimestamp := "2025-09-03"; closing_file := "a.log" |}];
     pgwireConnectionData := [];
     store_fileMetadata := [];
     listeners := [] |}.

(** *** The two groupings *)

(** A bucket of the processor as the chart has it, without its maximum. *)
Definition chartBucketOf {A} (b : TimeBucket A) : ChartBucket A :=
  {| chart_timestamp := bucket_timestamp b;
     chart_items := items b;
     chart_avgTime := avgTime b;
     chart_count := count b |}.

(** The group of the chart for the items [its] of the key [k]. *)
Definition chartGroupOf {A} `{Timed A} (e : Obj.key * list A)
  : Obj.key * ChartGroup A :=
  (fst e,
   {| group_timestamp := dateOfTime (fst e);
      group_items := snd e;
      group_totalTime := sum (map executionTimeMs (snd e));
      group_count := List.length (snd e) |}).

(* ================================================================== *)
(** * Properties *)
(* ================================================================== *)

(** ** Table names *)

Section ShardSuffix.

Lemma digits_then_end (fuel : nat) (s : string) (c : captures) :
  (String.length s < fuel)%nat ->
  starLoop (rmatch digit) true atEnd fuel s c
  = if Str.all Str.isDigit s then Some (EmptyString, c) else None.
Proof.
  revert s. induction fuel as [|fuel IH]; intros s Hlen; [lia|].
  destruct s as [|a s]; simpl; [reflexivity|].
  destruct (Str.isDigit a); simpl; [|reflexivity].
  assert (Hlt : (String.length s <? S (String.length s))%nat = true)
    by (apply Nat.ltb_lt; lia).
  rewrite Hlt. simpl in Hlen. rewrite IH by lia.
  destruct (Str.all Str.isDigit s); reflexivity.
Qed.

Lemma shardSuffix_here (s : string) :
  rmatch shardSuffix s [] (fun s' c => Some (s', c))
  = match s with
    | String a s' =>
        if Ascii.eqb "~" a && isNumeral s' then Some (EmptyString, []) else None
    | EmptyString => None
    end.
Proof.
  destruct s as [|a s]; [reflexivity|].
  cbn [shardSuffix seq lit plus chr digit rmatch].
  destruct (Ascii.eqb "~" a); [|reflexivity].
  destruct s as [|d s]; [reflexivity|].
  cbn [andb isNumeral].
  destruct (Str.isDigit d); [|reflexivity].
  change (starLoop (rmatch digit) true atEnd (S (String.length s)) s []
          = if true && Str.all Str.isDigit s then Some (EmptyString, []) else None).
  rewrite digits_then_end by lia. reflexivity.
Qed.

End ShardSuffix.

Lemma string_of_rev_cons (a : ascii) (pre : list ascii) (s : string) :
  (string_of_list_ascii (rev (a :: pre)) ++ s
   = string_of_list_ascii (rev pre) ++ String a s)%string.
Proof.
  simpl. induction (rev pre) as [|b l IH]; simpl; [reflexivity|].
  now rewrite IH.
Qed.

Lemma replace_shardSuffix (pre : list ascii) (s : string) :
  match exec_from shardSuffix pre s with
  | Some m => (before m ++ "" ++ after m)%string
  | None => (string_of_list_ascii (rev pre) ++ s)%string
  end
  = (string_of_list_ascii (rev pre) ++ stripShard s)%string.
Proof.
  revert pre. induction s as [|a s IH]; intros pre.
  - reflexivity.
  - cbn [exec_from]. rewrite shardSuffix_here.
    cbn [stripShard]. rewrite (Ascii.eqb_sym "~" a).
    destruct (Ascii.eqb a "~" && isNumeral s); cbv beta iota.
    + reflexivity.
    + rewrite <- !string_of_rev_cons. apply IH.
Qed.

(** The replace of [normalizeTableName] cuts the name at the leftmost
    shard suffix that ends it. *)
Lemma normalizeTableName_stripShard (t : string) :
  normalizeTableName t = stripShard t.
Proof.
  unfold normalizeTableName, Regex.replace, exec.
  pose proof (replace_shardSuffix [] t) as E. cbn [rev string_of_list_ascii] in E.
  destruct (exec_from shardSuffix [] t); exact E.
Qed.

Lemma isNumeral_tilde (s t : string) :
  isNumeral (s ++ String "~" t) = false.
Proof.
  destruct s as [|d s]; [reflexivity|]. cbn [append isNumeral].
  destruct (Str.isDigit d); [|reflexivity]. simpl.
  induction s as [|e s IH]; [reflexivity|]. cbn [append Str.all].
  rewrite IH. apply andb_false_r.
Qed.

Lemma stripShard_suffix (base ds : string) :
  isNumeral ds = true -> stripShard (base ++ "~" ++ ds) = base.
Proof.
  intros Hds. induction base as [|a base IH].
  - cbn. now rewrite Hds.
  - cbn [append stripShard].
    change (base ++ String "~" ds)%string with (base ++ String "~" ds)%string.
    rewrite (isNumeral_tilde base ds), andb_false_r.
    f_equal. exact IH.
Qed.

Lemma stripShard_untouched (t : string) :
  endsWithShard t = false -> stripShard t = t.
Proof.
  induction t as [|a t IH]; [reflexivity|]. cbn [endsWithShard stripShard].
  intros H. apply orb_false_iff in H as [H1 H2].
  rewrite H1. f_equal. auto.
Qed.

(** C2, counterexample: a name that carries two stacked shard suffixes
    loses one at each normalization, so that normalizing twice is not
    normalizing once. *)
Lemma normalizeTableName_not_idempotent :
  normalizeTableName (normalizeTableName "foo~1~20")
  <> normalizeTableName "foo~1~20".
Proof. vm_compute. discriminate. Qed.

(** C2, as amended: normalization removes the single trailing shard
    suffix [~<digits>] whatever precedes it and leaves a name without such
    a suffix untouched; it is idempotent on every name that carries no
    suffix or one suffix only; and it maps ["foo~20"] and ["foo"] to
    ["foo"]. *)
Theorem normalizeTableName_strips_one_suffix (base ds t : string) :
  isNumeral ds = true ->
  endsWithShard t = false ->
  normalizeTableName (base ++ "~" ++ ds) = base
  /\ normalizeTableName t = t
  /\ normalizeTableName (normalizeTableName t) = normalizeTableName t
  /\ normalizeTableName (normalizeTableName (t ++ "~" ++ ds))
     = normalizeTableName (t ++ "~" ++ ds)
  /\ normalizeTableName "foo~20" = "foo"
  /\ normalizeTableName "foo" = "foo".
Proof.
  intros Hds Ht. rewrite !normalizeTableName_stripShard.
  rewrite !(stripShard_suffix _ ds Hds), !(stripShard_untouched t Ht).
  repeat split; reflexivity.
Qed.

Lemma normalizeTableName_strips_one_suffix_witness :
  normalizeTableName ("a~1" ++ "~" ++ "2") = "a~1"
  /\ normalizeTableName "trades" = "trades"
  /\ normalizeTableName (normalizeTableName "trades") = normalizeTableName "trades"
  /\ normalizeTableName (normalizeTableName ("trades" ++ "~" ++ "2"))
     = normalizeTableName ("trades" ++ "~" ++ "2")
  /\ normalizeTableName "foo~20" = "foo"
  /\ normalizeTableName "foo" = "foo".
Proof.
  apply (normalizeTableName_strips_one_suffix "a~1" "2" "trades"); reflexivity.
Defined.

(** ** Query extraction *)

(** C10: a line that the query pattern matches with the progress marker
    [exe] yields no query record, whereas the same match with the marker
    [fin] does yield one. *)
Theorem parseQueryEntry_exe_yields_nothing
        (newDate : string -> Date) (line fileName : string) (m : MatchResult) :
  Regex.exec PATTERNS.query line = Some m ->
  group 2 m = "exe" ->
  parseQueryEntry newDate line fileName = None.
Proof.
  intros Hm Hexe. unfold parseQueryEntry. rewrite Hm, Hexe. reflexivity.
Qed.

Lemma parseQueryEntry_exe_yields_nothing_witness :
  (exists m, Regex.exec PATTERNS.query sampleExeLine = Some m
             /\ group 2 m = "exe")
  /\ parseQueryEntry anyDate sampleExeLine "questdb.log" = None.
Proof.
  split.
  - eexists. split; vm_compute; reflexivity.
  - eapply (parseQueryEntry_exe_yields_nothing anyDate sampleExeLine "questdb.log");
      vm_compute; reflexivity.
Defined.

Lemma parseQueryEntry_inv (newDate : string -> Date) (line fileName : string)
      (q : QueryRecord) :
  parseQueryEntry newDate line fileName = Some q ->
  exists m, Regex.exec PATTERNS.query line = Some m
            /\ group 2 m = "fin"
            /\ q = {| query_timestamp := newDate (group 1 m);
                      query_executionTimeMs :=
                        div (parseInt (group 4 m)) (ofZ 1000000);
                      sqlPreview := makeSqlPreview (group 3 m);
                      fullSql := group 3 m;
                      query_file := fileName |}.
Proof.
  unfold parseQueryEntry. destruct (Regex.exec PATTERNS.query line) as [m|]; [|discriminate].
  destruct (String.eqb (group 2 m) "fin") eqn:E; simpl; [|discriminate].
  intros [= <-]. exists m. apply String.eqb_eq in E. auto.
Qed.

(** *** Splitting at single spaces and splitting at white space *)

Lemma split_word_then (w rest : string) :
  Str.all (fun a => negb (Str.isSpace a)) w = true ->
  Str.split " " (w ++ String " " rest) = w :: Str.split " " rest.
Proof.
  induction w as [|a w IH]; intros Hw; [reflexivity|].
  cbn [Str.all] in Hw. apply andb_true_iff in Hw as [Ha Hw].
  cbn [append Str.split]. rewrite (IH Hw).
  destruct (Ascii.eqb a " ") eqn:E; [|reflexivity].
  apply Ascii.eqb_eq in E. subst a. discriminate.
Qed.

Lemma split_word (w : string) :
  Str.all (fun a => negb (Str.isSpace a)) w = true ->
  Str.split " " w = [w].
Proof.
  induction w as [|a w IH]; intros Hw; [reflexivity|].
  cbn [Str.all] in Hw. apply andb_true_iff in Hw as [Ha Hw].
  cbn [Str.split]. rewrite (IH Hw).
  destruct (Ascii.eqb a " ") eqn:E; [|reflexivity].
  apply Ascii.eqb_eq in E. subst a. discriminate.
Qed.

Lemma tokens_cons (a : ascii) (s' : string) :
  tokens (String a s')
  = if Str.isSpace a then tokens s'
    else
      match s' with
      | EmptyString => [String a EmptyString]
      | String b _ =>
          if Str.isSpace b then String a EmptyString :: tokens s'
          else
            match tokens s' with
            | w :: ws => String a w :: ws
            | [] => [String a EmptyString]
            end
      end.
Proof. reflexivity. Qed.

Lemma tokens_word_then (w rest : string) :
  isWord w = true ->
  tokens (w ++ String " " rest) = w :: tokens rest.
Proof.
  unfold isWord. intros Hw. apply andb_true_iff in Hw as [Hne Hw].
  destruct w as [|a w]; [discriminate|]. clear Hne.
  revert a Hw. induction w as [|b w IH]; intros a Hw.
  - cbn [Str.all] in Hw. apply andb_true_iff in Hw as [Ha _].
    apply negb_true_iff in Ha. cbn [append].
    rewrite tokens_cons, Ha. cbv beta iota.
    rewrite (tokens_cons " " rest). reflexivity.
  - cbn [Str.all] in Hw. apply andb_true_iff in Hw as [Ha Hw].
    pose proof Hw as Hw'. cbn [Str.all] in Hw'.
    apply andb_true_iff in Hw' as [Hb _].
    apply negb_true_iff in Ha, Hb.
    change (String a (String b w) ++ String " " rest)%string
      with (String a (String b (w ++ String " " rest))).
    rewrite tokens_cons, Ha. cbv beta iota. rewrite Hb.
    change (String b (w ++ String " " rest))
      with (String b w ++ String " " rest)%string.
    rewrite (IH b Hw). reflexivity.
Qed.

Lemma tokens_word (w : string) :
  isWord w = true -> tokens w = [w].
Proof.
  unfold isWord. intros Hw. apply andb_true_iff in Hw as [Hne Hw].
  destruct w as [|a w]; [discriminate|]. clear Hne.
  revert a Hw. induction w as [|b w IH]; intros a Hw.
  - cbn [Str.all] in Hw. apply andb_true_iff in Hw as [Ha _].
    apply negb_true_iff in Ha. rewrite tokens_cons, Ha. reflexivity.
  - cbn [Str.all] in Hw. apply andb_true_iff in Hw as [Ha Hw].
    pose proof Hw as Hw'. cbn [Str.all] in Hw'.
    apply andb_true_iff in Hw' as [Hb _].
    apply negb_true_iff in Ha, Hb.
    rewrite tokens_cons, Ha. cbv beta iota. rewrite Hb, (IH b Hw).
    reflexivity.
Qed.

Lemma isWord_all (w : string) :
  isWord w = true -> Str.all (fun a => negb (Str.isSpace a)) w = true.
Proof. unfold isWord. intros H. now apply andb_true_iff in H. Qed.

Lemma split_join_words (words : list string) :
  words <> [] -> forallb isWord words = true ->
  Str.split " " (Str.join " " words) = words.
Proof.
  induction words as [|w ws IH]; intros Hne Hall; [congruence|].
  cbn [forallb] in Hall. apply andb_true_iff in Hall as [Hw Hws].
  destruct ws as [|w2 ws].
  - apply split_word, isWord_all, Hw.
  - change (Str.join " " (w :: w2 :: ws))
      with (w ++ String " " (Str.join " " (w2 :: ws)))%string.
    rewrite split_word_then by (apply isWord_all, Hw).
    f_equal. apply IH; [discriminate|exact Hws].
Qed.

Lemma tokens_join_words (words : list string) :
  forallb isWord words = true ->
  tokens (Str.join " " words) = words.
Proof.
  induction words as [|w ws IH]; intros Hall; [reflexivity|].
  cbn [forallb] in Hall. apply andb_true_iff in Hall as [Hw Hws].
  destruct ws as [|w2 ws].
  - apply tokens_word, Hw.
  - change (Str.join " " (w :: w2 :: ws))
      with (w ++ String " " (Str.join " " (w2 :: ws)))%string.
    rewrite tokens_word_then by exact Hw.
    f_equal. apply IH, Hws.
Qed.

(** On a statement whose words are separated by one space each, the
    preview of the parser is the preview of the specification. *)
Lemma makeSqlPreview_words (words : list string) :
  words <> [] -> forallb isWord words = true ->
  makeSqlPreview (Str.join " " words) = spec_sqlPreview (Str.join " " words).
Proof.
  intros Hne Hall. unfold makeSqlPreview, spec_sqlPreview, Str.slice0.
  now rewrite split_join_words, tokens_join_words.
Qed.

(** C7, counterexample: on a statement with two spaces in a row the
    preview of the parser keeps the empty field between them, and is not
    the first 5 whitespace-delimited tokens joined by single spaces. *)
Lemma sqlPreview_keeps_empty_fields :
  exists q, parseQueryEntry anyDate doubleSpaceLine "questdb.log" = Some q
            /\ sqlPreview q = "SELECT a,  b FROM..."
            /\ spec_sqlPreview (fullSql q) = "SELECT a, b FROM t..."
            /\ sqlPreview q <> spec_sqlPreview (fullSql q).
Proof.
  eexists. split; [vm_compute; reflexivity|].
  repeat split; try (vm_compute; reflexivity).
  vm_compute. discriminate.
Qed.

(** C7, as amended: query extraction divides the captured nanoseconds by
    1,000,000 and builds the preview from the first 5 fields that
    splitting the statement at every single space gives, joined by single
    spaces, with ["..."] appended when there are more than 5 fields; on a
    statement whose words are separated by exactly one space each these
    are its first 5 whitespace-delimited tokens.  The sample line of the
    specification yields 285.89 ms, the preview
    ["SELECT * FROM trades WHERE..."] and the full statement. *)
Theorem parseQueryEntry_time_and_preview
        (newDate : string -> Date) (line fileName : string) (q : QueryRecord)
        (words : list string) :
  parseQueryEntry newDate line fileName = Some q ->
  words <> [] ->
  forallb isWord words = true ->
  (exists m, Regex.exec PATTERNS.query line = Some m
             /\ query_executionTimeMs q = div (parseInt (group 4 m)) (ofZ 1000000)
             /\ fullSql q = group 3 m)
  /\ sqlPreview q
     = (Str.join " " (firstn 5 (Str.split " " (fullSql q)))
        ++ (if (5 <? List.length (Str.split " " (fullSql q)))%nat
            then "..." else ""))%string
  /\ (fullSql q = Str.join " " words ->
      sqlPreview q = spec_sqlPreview (fullSql q))
  /\ (exists q0, parseQueryEntry newDate sampleQueryLine fileName = Some q0
                 /\ (query_executionTimeMs q0 =n= Fin 285.89)%num
                 /\ sqlPreview q0 = "SELECT * FROM trades WHERE..."
                 /\ fullSql q0 = "SELECT * FROM trades WHERE symbol = 'BTC'").
Proof.
  intros Hq Hne Hwords.
  destruct (parseQueryEntry_inv _ _ _ _ Hq) as (m & Hm & Hfin & ->).
  cbn [query_executionTimeMs fullSql sqlPreview].
  split; [exists m; auto|]. split; [reflexivity|]. split.
  - intros E. rewrite E. now apply makeSqlPreview_words.
  - eexists. split; [vm_compute; reflexivity|].
    cbn [query_executionTimeMs fullSql sqlPreview].
    repeat split; vm_compute; reflexivity.
Qed.

Lemma parseQueryEntry_time_and_preview_witness :
  exists q0, parseQueryEntry anyDate sampleQueryLine "questdb.log" = Some q0
             /\ (query_executionTimeMs q0 =n= Fin 285.89)%num
             /\ sqlPreview q0 = "SELECT * FROM trades WHERE..."
             /\ fullSql q0 = "SELECT * FROM trades WHERE symbol = 'BTC'".
Proof.
  refine (proj2 (proj2 (proj2
    (parseQueryEntry_time_and_preview anyDate sampleQueryLine "questdb.log"
       {| query_timestamp := InvalidDate;
          query_executionTimeMs := Fin (285890000 / 1000000);
          sqlPreview := "SELECT * FROM trades WHERE...";
          fullSql := "SELECT * FROM trades WHERE symbol = 'BTC'";
          query_file := "questdb.log" |}
       ["SELECT"; "*"; "FROM"; "trades"; "WHERE"; "symbol"; "="; "'BTC'"]
       _ _ _)))).
  - vm_compute. reflexivity.
  - discriminate.
  - vm_compute. reflexivity.
Defined.

(** ** The main loop *)

Lemma length_push {A} (l : list A) (x : A) :
  List.length (push l x) = S (List.length l).
Proof. unfold push. rewrite length_app. simpl. lia. Qed.

Lemma push_changes {A} (l : list A) (x : A) :
  (List.length l =? List.length (push l x))%nat = false.
Proof. rewrite length_push. apply Nat.eqb_neq. lia. Qed.

(** C3: one line adds at most one record, to at most one of the six
    collections, and the record is that of the first extractor, in the
    order query, WAL apply, WAL commit, partition closing, pgwire
    connection, system event, that yields one: whatever the later
    extractors would yield is not looked at. *)
Theorem parseLine_first_match_wins
        (newDate : string -> Date) (line fileName : string) (r : ParseResult) :
  let r' := parseLine newDate line fileName r in
  (recordTotal r' <= recordTotal r + 1)%nat
  /\ (collectionsChanged r r' <= 1)%nat
  /\ match parseQueryEntry newDate line fileName,
           parseWalJobEntry newDate line fileName,
           parseWalCommitEntry newDate line fileName,
           parsePartitionClosingEntry newDate line fileName,
           parsePgwireConnection newDate line fileName,
           parseSystemEvent newDate line fileName with
     | Some q, _, _, _, _, _ =>
         r' = {| queries := queries r ++ [q]; walJobs := walJobs r;
                 walCommits := walCommits r;
                 partitionClosings := partitionClosings r;
                 pgwireConnections := pgwireConnections r;
                 systemEvents := systemEvents r |}
     | None, Some w, _, _, _, _ =>
         r' = {| queries := queries r; walJobs := walJobs r ++ [w];
                 walCommits := walCommits r;
                 partitionClosings := partitionClosings r;
                 pgwireConnections := pgwireConnections r;
                 systemEvents := systemEvents r |}
     | None, None, Some c, _, _, _ =>
         r' = {| queries := queries r; walJobs := walJobs r;
                 walCommits := walCommits r ++ [c];
                 partitionClosings := partitionClosings r;
                 pgwireConnections := pgwireConnections r;
                 systemEvents := systemEvents r |}
     | None, None, None, Some p, _, _ =>
         r' = {| queries := queries r; walJobs := walJobs r;
                 walCommits := walCommits r;
                 partitionClosings := partitionClosings r ++ [p];
                 pgwireConnections := pgwireConnections r;
                 systemEvents := systemEvents r |}
     | None, None, None, None, Some g, _ =>
         r' = {| queries := queries r; walJobs := walJobs r;
                 walCommits := walCommits r;
                 partitionClosings := partitionClosings r;
                 pgwireConnections := pgwireConnections r ++ [g];
                 systemEvents := systemEvents r |}
     | None, None, None, None, None, Some e =>
         r' = {| queries := queries r; walJobs := walJobs r;
                 walCommits := walCommits r;
                 partitionClosings := partitionClosings r;
                 pgwireConnections := pgwireConnections r;
                 systemEvents := systemEvents r ++ [e] |}
     | None, None, None, None, None, None => r' = r
     end.
Proof.
  unfold parseLine, recordTotal, collectionsChanged.
  destruct (parseQueryEntry newDate line fileName);
    [|destruct (parseWalJobEntry newDate line fileName);
      [|destruct (parseWalCommitEntry newDate line fileName);
        [|destruct (parsePartitionClosingEntry newDate line fileName);
          [|destruct (parsePgwireConnection newDate line fileName);
            [|destruct (parseSystemEvent newDate line fileName)]]]]];
    cbn [queries walJobs walCommits partitionClosings pgwireConnections
         systemEvents];
    rewrite ?push_changes, ?length_push, ?Nat.eqb_refl;
    (split; [lia|split; [simpl; lia|reflexivity]]).
Qed.

(** The line of a query that also spells a system event is a query and
    nothing else. *)
Example query_before_system_event :
  parseSystemEvent anyDate queryAndEventLine "questdb.log" <> None
  /\ systemEvents (parseLine anyDate queryAndEventLine "questdb.log" emptyResult) = []
  /\ List.length (queries (parseLine anyDate queryAndEventLine "questdb.log" emptyResult)) = 1%nat.
Proof. repeat split; vm_compute; congruence. Qed.

Lemma parseLine_recordTotal (newDate : string -> Date) (line fileName : string)
      (r : ParseResult) :
  (recordTotal (parseLine newDate line fileName r) <= recordTotal r + 1)%nat.
Proof.
  unfold parseLine, recordTotal.
  destruct (parseQueryEntry newDate line fileName);
    [|destruct (parseWalJobEntry newDate line fileName);
      [|destruct (parseWalCommitEntry newDate line fileName);
        [|destruct (parsePartitionClosingEntry newDate line fileName);
          [|destruct (parsePgwireConnection newDate line fileName);
            [|destruct (parseSystemEvent newDate line fileName)]]]]];
    cbn [queries walJobs walCommits partitionClosings pgwireConnections
         systemEvents];
    rewrite ?length_push; lia.
Qed.

Lemma loop_result_total (newDate : string -> Date) (fileName : string)
      (cb : bool) (total : nat) (lines : list string) :
  forall (i : nat) (st : LoopState),
    (recordTotal (result (loop newDate fileName cb total i lines st))
     <= recordTotal (result st) + List.length lines)%nat.
Proof.
  induction lines as [|line lines IH]; intros i st; cbn [loop List.length]; [lia|].
  etransitivity; [apply IH|].
  cbn [loopBody result].
  pose proof (parseLine_recordTotal newDate line fileName (result st)).
  lia.
Qed.

(** A file yields at most as many records as it has lines. *)
Corollary parseQuestDBLog_at_most_one_per_line
          (newDate : string -> Date) (logContent fileName : string) (cb : bool) :
  (recordTotal (parseQuestDBLog newDate logContent fileName cb)
   <= List.length (Str.split "010" logContent))%nat.
Proof.
  unfold parseQuestDBLog, parseQuestDBLog_traced.
  etransitivity; [apply loop_result_total|]. cbn. lia.
Qed.

(** *** The progress callback *)

Lemma loop_progress (newDate : string -> Date) (fileName : string)
      (cb : bool) (total : nat) (lines : list string) :
  forall (i : nat) (st : LoopState),
    progress (loop newDate fileName cb total i lines st)
    = progress st
      ++ map (fun j => (j, total))
             (filter (fun j => cb && (j mod 1000 =? 0)%nat)
                     (List.seq i (List.length lines))).
Proof.
  induction lines as [|line lines IH]; intros i st; cbn [loop List.length List.seq filter].
  - cbn. now rewrite app_nil_r.
  - rewrite IH. cbn [loopBody progress].
    destruct (cb && (i mod 1000 =? 0)%nat); cbn [map].
    + unfold push. now rewrite <- app_assoc.
    + reflexivity.
Qed.

Lemma div_ceil_step (n : nat) :
  ((S n + 999) / 1000
   = if (n mod 1000 =? 0) then S ((n + 999) / 1000) else (n + 999) / 1000)%nat
  /\ ((n mod 1000 =? 0) = true -> n = 1000 * ((n + 999) / 1000))%nat.
Proof.
  destruct (n mod 1000 =? 0)%nat eqn:E.
  - apply Nat.eqb_eq in E. split; [|intros _].
    + pose proof (Nat.div_mod_eq n 1000).
      pose proof (Nat.div_mod_eq (S n + 999) 1000).
      pose proof (Nat.div_mod_eq (n + 999) 1000).
      pose proof (Nat.mod_upper_bound (S n + 999) 1000).
      pose proof (Nat.mod_upper_bound (n + 999) 1000).
      lia.
    + pose proof (Nat.div_mod_eq n 1000).
      pose proof (Nat.div_mod_eq (n + 999) 1000).
      pose proof (Nat.mod_upper_bound (n + 999) 1000).
      lia.
  - apply Nat.eqb_neq in E. split; [|discriminate].
    pose proof (Nat.div_mod_eq n 1000).
    pose proof (Nat.mod_upper_bound n 1000).
    pose proof (Nat.div_mod_eq (S n + 999) 1000).
    pose proof (Nat.div_mod_eq (n + 999) 1000).
    pose proof (Nat.mod_upper_bound (S n + 999) 1000).
    pose proof (Nat.mod_upper_bound (n + 999) 1000).
    lia.
Qed.

(** The multiples of 1000 below [n] are the first [ceil(n / 1000)]
    ones. *)
Lemma multiples_below (n : nat) :
  filter (fun j => (j mod 1000 =? 0)%nat) (List.seq 0 n)
  = map (fun k => (1000 * k)%nat) (List.seq 0 ((n + 999) / 1000)).
Proof.
  induction n as [|n IH].
  - reflexivity.
  - rewrite seq_S, filter_app, IH. change (0 + n)%nat with n. cbn [filter].
    destruct (div_ceil_step n) as [Hstep Hmul]. rewrite Hstep.
    destruct (n mod 1000 =? 0)%nat.
    + rewrite seq_S, map_app. change (0 + ((n + 999) / 1000))%nat
        with ((n + 999) / 1000)%nat. cbn [map]. now rewrite <- Hmul.
    + now rewrite app_nil_r.
Qed.

(** C9: with a progress callback, the parser calls it at the lines whose
    index is a multiple of 1000, line 0 included, and only there, each
    time with the index and the number of lines of the file: that is
    [ceil(totalLines / 1000)] calls.  Without a callback nothing is
    called. *)
Theorem progress_every_1000_lines
        (newDate : string -> Date) (logContent fileName : string) :
  let totalLines := List.length (Str.split "010" logContent) in
  let calls := progress (parseQuestDBLog_traced newDate logContent fileName true) in
  calls = map (fun k => (1000 * k, totalLines)%nat)
              (List.seq 0 ((totalLines + 999) / 1000))
  /\ List.length calls = ((totalLines + 999) / 1000)%nat
  /\ (forall i total : nat,
         In (i, total) calls
         <-> (i < totalLines /\ i mod 1000 = 0 /\ total = totalLines)%nat)
  /\ progress (parseQuestDBLog_traced newDate logContent fileName false) = [].
Proof.
  cbv zeta. unfold parseQuestDBLog_traced. rewrite !loop_progress.
  cbn [progress app andb filter].
  set (n := List.length (Str.split "010" logContent)).
  assert (Hnone : forall l : list nat, filter (fun _ => false) l = [])
    by (induction l; auto).
  rewrite Hnone. split; [|split; [|split; [|reflexivity]]].
  - rewrite multiples_below, !map_map. reflexivity.
  - rewrite multiples_below, !length_map, length_seq. reflexivity.
  - intros i total. rewrite in_map_iff. split.
    + intros (j & [= <- <-] & Hj). apply filter_In in Hj as [Hin Hmod].
      apply in_seq in Hin. apply Nat.eqb_eq in Hmod. lia.
    + intros (Hlt & Hmod & ->). exists i. split; [reflexivity|].
      apply filter_In. split; [apply in_seq; lia|now apply Nat.eqb_eq].
Qed.

Lemma progress_every_1000_lines_witness :
  progress (parseQuestDBLog_traced anyDate sampleQueryLine "questdb.log" true)
  = [(0, 1)%nat].
Proof.
  exact (proj1 (progress_every_1000_lines anyDate sampleQueryLine "questdb.log")).
Defined.

(** ** Rounding to the nearest double *)

Lemma pow2_pos (e : Z) : 0 < 2 ^ e.
Proof. now apply Qpower_0_lt. Qed.

Lemma pow2_le (e e' : Z) : (e <= e')%Z -> 2 ^ e <= 2 ^ e'.
Proof. intros H. apply Qpower_le_compat_l; [exact H|discriminate]. Qed.

Lemma pow2_plus (a b : Z) : 2 ^ (a + b) == 2 ^ a * 2 ^ b.
Proof. apply Qpower_plus. discriminate. Qed.

Lemma pow2_Z (n : Z) : (0 <= n)%Z -> 2 ^ n == inject_Z (2 ^ n).
Proof. intros H. now rewrite (Zpower_Qpower 2 n H). Qed.

Lemma ilog2_spec (x : Q) :
  0 < x -> 2 ^ F64.ilog2 x <= x /\ x < 2 ^ (F64.ilog2 x + 1).
Proof.
  intros Hx. destruct x as [a b]. unfold F64.ilog2. cbn [Qnum Qden].
  assert (Ha : (0 < a)%Z) by (unfold Qlt in Hx; cbn in Hx; lia).
  destruct (Z.log2_spec a Ha) as [Ha1 Ha2].
  destruct (Z.log2_spec (Z.pos b) (Pos2Z.is_pos b)) as [Hb1 Hb2].
  pose proof (Z.log2_nonneg a) as Hla.
  pose proof (Z.log2_nonneg (Z.pos b)) as Hlb.
  set (la := Z.log2 a) in *. set (lb := Z.log2 (Z.pos b)) in *.
  assert (Hab : a # b == inject_Z a / inject_Z (Z.pos b)).
  { unfold Qeq, Qdiv, Qmult, Qinv, inject_Z. cbn. lia. }
  assert (Hbpos : 0 < inject_Z (Z.pos b)) by (rewrite <- (Zlt_Qlt 0); lia).
  assert (Hlow : 2 ^ (la - lb - 1) <= a # b).
  { rewrite Hab. apply Qle_shift_div_l; [exact Hbpos|].
    apply Qle_trans with (2 ^ (la - lb - 1) * 2 ^ (lb + 1)).
    - apply Qmult_le_l; [apply pow2_pos|].
      rewrite (pow2_Z (lb + 1)) by lia. rewrite <- Zle_Qle.
      replace (lb + 1)%Z with (Z.succ lb) by lia. lia.
    - rewrite <- pow2_plus. replace (la - lb - 1 + (lb + 1))%Z with la by lia.
      rewrite (pow2_Z la) by lia. now rewrite <- Zle_Qle. }
  assert (Hup : a # b < 2 ^ (la - lb + 1)).
  { rewrite Hab. apply Qlt_shift_div_r; [exact Hbpos|].
    apply Qlt_le_trans with (2 ^ (la - lb + 1) * 2 ^ lb).
    - rewrite <- pow2_plus. replace (la - lb + 1 + lb)%Z with (Z.succ la) by lia.
      rewrite (pow2_Z (Z.succ la)) by lia. now rewrite <- Zlt_Qlt.
    - apply Qmult_le_l; [apply pow2_pos|].
      rewrite (pow2_Z lb) by lia. now rewrite <- Zle_Qle. }
  destruct (Qle_bool (2 ^ (la - lb)) (a # b)) eqn:E.
  - apply Qle_bool_iff in E. split; [exact E|exact Hup].
  - split; [exact Hlow|].
    replace (la - lb - 1 + 1)%Z with (la - lb)%Z by lia.
    apply Qnot_le_lt. intros H. apply Qle_bool_iff in H. congruence.
Qed.

Lemma ilog2_unique (x : Q) (k : Z) :
  2 ^ k <= x -> x < 2 ^ (k + 1) -> F64.ilog2 x = k.
Proof.
  intros H1 H2.
  assert (Hx : 0 < x) by (eapply Qlt_le_trans; [apply (pow2_pos k)|exact H1]).
  destruct (ilog2_spec x Hx) as [H3 H4].
  assert (F64.ilog2 x < k + 1)%Z.
  { apply (Qpower_lt_compat_l_inv 2); [|reflexivity].
    eapply Qle_lt_trans; eassumption. }
  assert (k < F64.ilog2 x + 1)%Z.
  { apply (Qpower_lt_compat_l_inv 2); [|reflexivity].
    eapply Qle_lt_trans; eassumption. }
  lia.
Qed.

Lemma ilog2_mono (x y : Q) : 0 < x -> x <= y -> (F64.ilog2 x <= F64.ilog2 y)%Z.
Proof.
  intros Hx Hxy.
  assert (Hy : 0 < y) by (eapply Qlt_le_trans; eassumption).
  destruct (ilog2_spec x Hx) as [H1 _]. destruct (ilog2_spec y Hy) as [_ H2].
  assert (F64.ilog2 x < F64.ilog2 y + 1)%Z; [|lia].
  apply (Qpower_lt_compat_l_inv 2); [|reflexivity].
  eapply Qle_lt_trans; [exact H1|]. eapply Qle_lt_trans; eassumption.
Qed.

Lemma ilog2_comp (x y : Q) : 0 < x -> x == y -> F64.ilog2 x = F64.ilog2 y.
Proof.
  intros Hx E. symmetry. destruct (ilog2_spec x Hx) as [H1 H2].
  apply ilog2_unique; now rewrite <- E.
Qed.

Ltac compare_facts :=
  repeat match goal with
         | H : (_ ?= _)%Q = Eq |- _ => apply Qeq_alt in H
         | H : (_ ?= _)%Q = Lt |- _ => apply Qlt_alt in H
         | H : (_ ?= _)%Q = Gt |- _ => apply Qgt_alt in H
         end.

Lemma nearestEven_bounds (x : Q) :
  (Qfloor x <= F64.nearestEven x <= Qfloor x + 1)%Z.
Proof.
  unfold F64.nearestEven.
  destruct (x - inject_Z (Qfloor x) ?= 1 # 2)%Q; [destruct (Z.even (Qfloor x))| |]; lia.
Qed.

Lemma nearestEven_comp (x y : Q) : x == y -> F64.nearestEven x = F64.nearestEven y.
Proof.
  intros E. unfold F64.nearestEven. rewrite (Qfloor_comp _ _ E).
  assert (H : (x - inject_Z (Qfloor y) ?= 1 # 2)%Q = (y - inject_Z (Qfloor y) ?= 1 # 2)%Q)
    by now rewrite E.
  now rewrite H.
Qed.

Lemma nearestEven_mono (x y : Q) :
  x <= y -> (F64.nearestEven x <= F64.nearestEven y)%Z.
Proof.
  intros Hxy. pose proof (Qfloor_resp_le _ _ Hxy) as Hf.
  pose proof (nearestEven_bounds x). pose proof (nearestEven_bounds y).
  destruct (Z.eq_dec (Qfloor x) (Qfloor y)) as [E|NE]; [|lia].
  unfold F64.nearestEven. rewrite E.
  destruct (x - inject_Z (Qfloor y) ?= 1 # 2)%Q eqn:Cx;
    destruct (y - inject_Z (Qfloor y) ?= 1 # 2)%Q eqn:Cy;
    try destruct (Z.even (Qfloor y)); try lia; exfalso; compare_facts; lra.
Qed.

Lemma nearestEven_Z (x : Q) (n : Z) : x == inject_Z n -> F64.nearestEven x = n.
Proof.
  intros E. rewrite (nearestEven_comp _ _ E). unfold F64.nearestEven.
  rewrite Qfloor_Z.
  assert (H : (inject_Z n - inject_Z n ?= 1 # 2)%Q = Lt).
  { apply Qlt_alt. setoid_replace (inject_Z n - inject_Z n) with 0 by ring.
    reflexivity. }
  now rewrite H.
Qed.

Lemma nearestEven_error (x : Q) :
  - (1 # 2) <= inject_Z (F64.nearestEven x) - x <= 1 # 2.
Proof.
  pose proof (Qfloor_le x) as H1. pose proof (Qlt_floor x) as H2.
  rewrite inject_Z_plus in H2. change (inject_Z 1) with 1 in H2.
  unfold F64.nearestEven.
  destruct (x - inject_Z (Qfloor x) ?= 1 # 2)%Q eqn:C.
  - apply Qeq_alt in C. destruct (Z.even (Qfloor x)).
    + lra.
    + rewrite inject_Z_plus. change (inject_Z 1) with 1. lra.
  - apply Qlt_alt in C. lra.
  - apply Qgt_alt in C. rewrite inject_Z_plus. change (inject_Z 1) with 1. lra.
Qed.

Lemma roundPositive_raw (x : Q) :
  F64.roundPositive x
  = if Qle_bool (2 ^ 1024) (rawRound x) then PInf else Fin (Qred (rawRound x)).
Proof. reflexivity. Qed.

Lemma scaled_le (x y : Q) (e : Z) : x <= y -> x / 2 ^ e <= y / 2 ^ e.
Proof.
  intros H. unfold Qdiv. apply Qmult_le_compat_r; [exact H|].
  apply Qinv_le_0_compat, Qlt_le_weak, pow2_pos.
Qed.

Lemma Qfloor_below (x : Q) (n : Z) : x < inject_Z n -> (Qfloor x < n)%Z.
Proof.
  intros H. rewrite Zlt_Qlt. eapply Qle_lt_trans; [apply Qfloor_le|exact H].
Qed.

Lemma Qfloor_above (x : Q) (n : Z) : inject_Z n <= x -> (n <= Qfloor x)%Z.
Proof.
  intros H. rewrite <- (Qfloor_Z n). now apply Qfloor_resp_le.
Qed.

(** The scaled value of a positive [x] is below [2^53], and from [2^52]
    on when [x] is no subnormal number. *)
Lemma scaled_below (x : Q) : 0 < x -> x / 2 ^ F64.ulpExponent x < inject_Z (2 ^ 53).
Proof.
  intros Hx. destruct (ilog2_spec x Hx) as [_ H].
  apply Qlt_shift_div_r; [apply pow2_pos|].
  rewrite <- (pow2_Z 53) by lia. rewrite <- pow2_plus.
  eapply Qlt_le_trans; [exact H|]. apply pow2_le. unfold F64.ulpExponent. lia.
Qed.

Lemma scaled_above (x : Q) :
  0 < x -> (-1074 < F64.ulpExponent x)%Z ->
  inject_Z (2 ^ 52) <= x / 2 ^ F64.ulpExponent x.
Proof.
  intros Hx He. destruct (ilog2_spec x Hx) as [H _].
  apply Qle_shift_div_l; [apply pow2_pos|].
  rewrite <- (pow2_Z 52) by lia. rewrite <- pow2_plus.
  eapply Qle_trans; [|exact H]. apply pow2_le. unfold F64.ulpExponent in *. lia.
Qed.

Lemma rawRound_nonneg (x : Q) : 0 < x -> 0 <= rawRound x.
Proof.
  intros Hx. unfold rawRound. apply Qmult_le_0_compat.
  - rewrite <- (Zle_Qle 0).
    pose proof (nearestEven_bounds (x / 2 ^ F64.ulpExponent x)).
    assert (0 <= Qfloor (x / 2 ^ F64.ulpExponent x))%Z; [|lia].
    apply Qfloor_above. apply Qle_shift_div_l; [apply pow2_pos|].
    rewrite Qmult_0_l. now apply Qlt_le_weak.
  - apply Qlt_le_weak, pow2_pos.
Qed.

Lemma rawRound_mono (x y : Q) : 0 < x -> x <= y -> rawRound x <= rawRound y.
Proof.
  intros Hx Hxy.
  assert (Hy : 0 < y) by (eapply Qlt_le_trans; eassumption).
  pose proof (ilog2_mono x y Hx Hxy) as Hl.
  assert (He : (F64.ulpExponent x <= F64.ulpExponent y)%Z)
    by (unfold F64.ulpExponent; lia).
  unfold rawRound.
  destruct (Z.eq_dec (F64.ulpExponent x) (F64.ulpExponent y)) as [E|NE].
  - rewrite E. apply Qmult_le_compat_r; [|apply Qlt_le_weak, pow2_pos].
    rewrite <- Zle_Qle. apply nearestEven_mono. now apply scaled_le.
  - set (ex := F64.ulpExponent x) in *. set (ey := F64.ulpExponent y) in *.
    assert (Hmx : (F64.nearestEven (x / 2 ^ ex) <= 2 ^ 53)%Z).
    { pose proof (nearestEven_bounds (x / 2 ^ ex)).
      pose proof (Qfloor_below _ _ (scaled_below x Hx)). fold ex in H0. lia. }
    assert (Hmy : (2 ^ 52 <= F64.nearestEven (y / 2 ^ ey))%Z).
    { pose proof (nearestEven_bounds (y / 2 ^ ey)).
      assert (Hsub : (-1074 < ey)%Z) by (unfold ex, ey, F64.ulpExponent in *; lia).
      pose proof (Qfloor_above _ _ (scaled_above y Hy Hsub)). fold ey in H0. lia. }
    apply Qle_trans with (inject_Z (2 ^ 53) * 2 ^ ex).
    { apply Qmult_le_compat_r; [|apply Qlt_le_weak, pow2_pos].
      now rewrite <- Zle_Qle. }
    apply Qle_trans with (inject_Z (2 ^ 52) * 2 ^ ey).
    { rewrite <- (pow2_Z 53), <- (pow2_Z 52) by lia. rewrite <- !pow2_plus.
      apply pow2_le. lia. }
    apply Qmult_le_compat_r; [|apply Qlt_le_weak, pow2_pos].
    now rewrite <- Zle_Qle.
Qed.

Lemma rawRound_comp (x y : Q) : 0 < x -> x == y -> rawRound x = rawRound y.
Proof.
  intros Hx E. unfold rawRound, F64.ulpExponent.
  rewrite (ilog2_comp x y Hx E).
  rewrite (nearestEven_comp (x / 2 ^ Z.max (F64.ilog2 y - 52) (-1074))
                            (y / 2 ^ Z.max (F64.ilog2 y - 52) (-1074)));
    [reflexivity|now rewrite E].
Qed.

Lemma nle_trans (a b c : number) : nle a b -> nle b c -> nle a c.
Proof.
  destruct a, b, c; cbn; try easy. apply Qle_trans.
Qed.

Lemma roundPositive_mono (x y : Q) :
  0 < x -> x <= y -> nle (F64.roundPositive x) (F64.roundPositive y).
Proof.
  intros Hx Hxy. rewrite !roundPositive_raw.
  pose proof (rawRound_mono x y Hx Hxy) as H.
  destruct (Qle_bool (2 ^ 1024) (rawRound x)) eqn:Ex;
    destruct (Qle_bool (2 ^ 1024) (rawRound y)) eqn:Ey; cbn [nle]; try exact I.
  - apply Qle_bool_iff in Ex.
    assert (Qle_bool (2 ^ 1024) (rawRound y) = true); [|congruence].
    apply Qle_bool_iff. eapply Qle_trans; eassumption.
  - now rewrite !Qred_correct.
Qed.

Lemma roundPositive_nonneg (x : Q) : 0 < x -> nle (Fin 0) (F64.roundPositive x).
Proof.
  intros Hx. rewrite roundPositive_raw.
  destruct (Qle_bool (2 ^ 1024) (rawRound x)); cbn [nle]; [exact I|].
  rewrite Qred_correct. now apply rawRound_nonneg.
Qed.

Lemma nle_neg (a b : number) : nle a b -> nle (neg b) (neg a).
Proof.
  destruct a, b; cbn; try easy. intros H. now apply Qopp_le_compat.
Qed.

Lemma round_nonneg (x : Q) : 0 <= x -> nle (Fin 0) (F64.round x).
Proof.
  intros Hx. unfold F64.round. destruct (x ?= 0)%Q eqn:C; compare_facts.
  - apply Qle_refl.
  - lra.
  - now apply roundPositive_nonneg.
Qed.

Lemma round_nonpos (x : Q) : x <= 0 -> nle (F64.round x) (Fin 0).
Proof.
  intros Hx. unfold F64.round. destruct (x ?= 0)%Q eqn:C; compare_facts.
  - apply Qle_refl.
  - apply (nle_neg (Fin 0)). apply roundPositive_nonneg. lra.
  - lra.
Qed.

(** Rounding keeps the order. *)
Lemma round_mono (x y : Q) : x <= y -> nle (F64.round x) (F64.round y).
Proof.
  intros Hxy.
  destruct (Qlt_le_dec 0 x) as [Hx|Hx].
  - unfold F64.round.
    assert (Cx : (x ?= 0)%Q = Gt) by (apply (proj1 (Qgt_alt x 0)); lra).
    assert (Cy : (y ?= 0)%Q = Gt) by (apply (proj1 (Qgt_alt y 0)); lra).
    rewrite Cx, Cy. now apply roundPositive_mono.
  - destruct (Qlt_le_dec y 0) as [Hy|Hy].
    + unfold F64.round.
      assert (Cx : (x ?= 0)%Q = Lt) by (apply (proj1 (Qlt_alt x 0)); lra).
      assert (Cy : (y ?= 0)%Q = Lt) by (apply (proj1 (Qlt_alt y 0)); lra).
      rewrite Cx, Cy. apply nle_neg. apply roundPositive_mono; lra.
    + apply nle_trans with (Fin 0); [now apply round_nonpos|now apply round_nonneg].
Qed.

Lemma round_comp (x y : Q) : x == y -> F64.round x = F64.round y.
Proof.
  intros E. unfold F64.round.
  assert (C : (x ?= 0)%Q = (y ?= 0)%Q) by now rewrite E.
  rewrite <- C. destruct (x ?= 0)%Q eqn:Cx; compare_facts; [reflexivity| |].
  - rewrite !roundPositive_raw. rewrite (rawRound_comp (- x) (- y)); [reflexivity|lra|].
    now rewrite E.
  - rewrite !roundPositive_raw. now rewrite (rawRound_comp x y).
Qed.

(** The integers below [2^53] are doubles. *)
Lemma round_Z (n : Z) :
  (0 <= n < 2 ^ 53)%Z ->
  exists r, F64.round (inject_Z n) = Fin r /\ r == inject_Z n.
Proof.
  intros [H0 Hn]. destruct (Z.eq_dec n 0) as [->|Hne].
  - exists 0. split; reflexivity.
  - assert (Hpos : 0 < inject_Z n) by (rewrite <- (Zlt_Qlt 0); lia).
    unfold F64.round. rewrite (proj1 (Qgt_alt _ _) Hpos), roundPositive_raw.
    destruct (Z.log2_spec n ltac:(lia)) as [L1 L2].
    pose proof (Z.log2_nonneg n) as L0.
    assert (Hlog : F64.ilog2 (inject_Z n) = Z.log2 n).
    { apply ilog2_unique.
      - rewrite pow2_Z by lia. now rewrite <- Zle_Qle.
      - rewrite pow2_Z by lia. rewrite <- Zlt_Qlt. lia. }
    assert (L53 : (Z.log2 n < 53)%Z).
    { apply Z.log2_lt_pow2; lia. }
    assert (He : F64.ulpExponent (inject_Z n) = (Z.log2 n - 52)%Z)
      by (unfold F64.ulpExponent; rewrite Hlog; lia).
    assert (Hraw : rawRound (inject_Z n) == inject_Z n).
    { unfold rawRound. rewrite He.
      set (s := (52 - Z.log2 n)%Z).
      assert (Hs : (0 <= s)%Z) by (unfold s; lia).
      replace (Z.log2 n - 52)%Z with (- s)%Z by (unfold s; lia).
      assert (Hinv : 2 ^ (- s) == / inject_Z (2 ^ s)).
      { rewrite Qpower_opp. now rewrite pow2_Z. }
      assert (Hsc : inject_Z n / 2 ^ (- s) == inject_Z (n * 2 ^ s)).
      { rewrite Hinv, inject_Z_mult. unfold Qdiv. now rewrite Qinv_involutive. }
      rewrite (nearestEven_Z _ _ Hsc), Hinv, inject_Z_mult.
      field. intros E.
      assert (0 < inject_Z (2 ^ s)) by (rewrite <- (Zlt_Qlt 0); lia).
      rewrite E in H. now apply Qlt_irrefl in H. }
    assert (Hov : Qle_bool (2 ^ 1024) (rawRound (inject_Z n)) = false).
    { destruct (Qle_bool (2 ^ 1024) (rawRound (inject_Z n))) eqn:E; [|reflexivity].
      apply Qle_bool_iff in E. rewrite Hraw in E.
      rewrite (pow2_Z 1024) in E by lia. rewrite <- Zle_Qle in E.
      assert (2 ^ 53 < 2 ^ 1024)%Z by (apply Z.pow_lt_mono_r; lia). lia. }
    rewrite Hov. eexists. split; [reflexivity|]. now rewrite Qred_correct.
Qed.

(** The error of rounding: half a unit in the last place. *)
Lemma round_error (x : Q) :
  0 <= x -> x <= 2 ^ 1000 ->
  exists r, F64.round x = Fin r
            /\ - (x * 2 ^ (-53) + 2 ^ (-1075)) <= r - x
            /\ r - x <= x * 2 ^ (-53) + 2 ^ (-1075).
Proof.
  intros H0 Hx.
  pose proof (pow2_pos (-53)) as P53. pose proof (pow2_pos (-1075)) as P1075.
  destruct (Qeq_dec x 0) as [E|NE].
  - rewrite (round_comp x 0 E). exists 0. split; [reflexivity|].
    rewrite E. split; lra.
  - assert (Hpos : 0 < x).
    { destruct (Qlt_le_dec 0 x) as [H|H]; [exact H|]. exfalso. apply NE. lra. }
    unfold F64.round. rewrite (proj1 (Qgt_alt _ _) Hpos), roundPositive_raw.
    set (e := F64.ulpExponent x).
    pose proof (pow2_pos e) as Pe.
    pose proof (nearestEven_error (x / 2 ^ e)) as [E1 E2].
    assert (Hraw : rawRound x - x
                   == (inject_Z (F64.nearestEven (x / 2 ^ e)) - x / 2 ^ e) * 2 ^ e).
    { unfold rawRound. fold e. field. intros E. rewrite E in Pe.
      now apply Qlt_irrefl in Pe. }
    assert (Hhalf : 2 ^ e * (1 # 2) <= x * 2 ^ (-53) + 2 ^ (-1075)).
    { assert (Hh : 2 ^ e * (1 # 2) == 2 ^ (e - 1)).
      { replace (e - 1)%Z with (e + -1)%Z by lia. rewrite pow2_plus. reflexivity. }
      rewrite Hh. unfold e, F64.ulpExponent.
      destruct (Z.max_spec (F64.ilog2 x - 52) (-1074)) as [[_ ->]|[_ ->]].
      - change (-1074 - 1)%Z with (-1075)%Z.
        assert (0 <= x * 2 ^ (-53)) by (apply Qmult_le_0_compat; lra). lra.
      - destruct (ilog2_spec x Hpos) as [Hl _].
        replace (F64.ilog2 x - 52 - 1)%Z with (F64.ilog2 x + -53)%Z by lia.
        rewrite pow2_plus.
        assert (2 ^ F64.ilog2 x * 2 ^ (-53) <= x * 2 ^ (-53))
          by (apply Qmult_le_compat_r; lra).
        lra. }
    assert (Hlo : - (2 ^ e * (1 # 2)) <= rawRound x - x).
    { rewrite Hraw.
      assert (- (1 # 2) * 2 ^ e
              <= (inject_Z (F64.nearestEven (x / 2 ^ e)) - x / 2 ^ e) * 2 ^ e)
        by (apply Qmult_le_compat_r; lra).
      lra. }
    assert (Hhi : rawRound x - x <= 2 ^ e * (1 # 2)).
    { rewrite Hraw.
      assert ((inject_Z (F64.nearestEven (x / 2 ^ e)) - x / 2 ^ e) * 2 ^ e
              <= (1 # 2) * 2 ^ e)
        by (apply Qmult_le_compat_r; lra).
      lra. }
    assert (Hov : Qle_bool (2 ^ 1024) (rawRound x) = false).
    { destruct (Qle_bool (2 ^ 1024) (rawRound x)) eqn:E; [|reflexivity].
      apply Qle_bool_iff in E. exfalso.
      assert (H53 : 2 ^ (-53) <= 1) by (apply (pow2_le (-53) 0); lia).
      assert (H1075 : 2 ^ (-1075) <= 1) by (apply (pow2_le (-1075) 0); lia).
      assert (x * 2 ^ (-53) <= x * 1) by (apply Qmult_le_l; lra).
      assert (H1000 : 1 <= 2 ^ 1000) by (apply (pow2_le 0 1000); lia).
      assert (H24 : 2 ^ 1024 == 2 ^ 1000 * 2 ^ 24) by (rewrite <- pow2_plus; reflexivity).
      assert (H24' : 2 ^ 24 == 16777216) by reflexivity.
      rewrite H24, H24' in E. lra. }
    rewrite Hov. eexists. split; [reflexivity|]. rewrite Qred_correct. split; lra.
Qed.

Lemma round_finite_error (x r : Q) :
  0 <= x -> F64.round x = Fin r ->
  - (x * 2 ^ (-53) + 2 ^ (-1075)) <= r - x
  /\ r - x <= x * 2 ^ (-53) + 2 ^ (-1075).
Proof.
  intros H0 Hr.
  pose proof (pow2_pos (-53)) as P53. pose proof (pow2_pos (-1075)) as P1075.
  destruct (Qeq_dec x 0) as [E|NE].
  - rewrite (round_comp x 0 E) in Hr. injection Hr as <-.
    rewrite E. split; lra.
  - assert (Hpos : 0 < x).
    { destruct (Qlt_le_dec 0 x) as [H|H]; [exact H|]. exfalso. apply NE. lra. }
    unfold F64.round in Hr.
    rewrite (proj1 (Qgt_alt _ _) Hpos), roundPositive_raw in Hr.
    destruct (Qle_bool (2 ^ 1024) (rawRound x)); [discriminate|].
    assert (Er : r == rawRound x).
    { replace r with (Qred (rawRound x)) by congruence. apply Qred_correct. }
    rewrite Er.
    set (e := F64.ulpExponent x).
    pose proof (pow2_pos e) as Pe.
    pose proof (nearestEven_error (x / 2 ^ e)) as [E1 E2].
    assert (Hraw : rawRound x - x
                   == (inject_Z (F64.nearestEven (x / 2 ^ e)) - x / 2 ^ e) * 2 ^ e).
    { unfold rawRound. fold e. field. intros E. rewrite E in Pe.
      now apply Qlt_irrefl in Pe. }
    assert (Hhalf : 2 ^ e * (1 # 2) <= x * 2 ^ (-53) + 2 ^ (-1075)).
    { assert (Hh : 2 ^ e * (1 # 2) == 2 ^ (e - 1)).
      { replace (e - 1)%Z with (e + -1)%Z by lia. rewrite pow2_plus. reflexivity. }
      rewrite Hh. unfold e, F64.ulpExponent.
      destruct (Z.max_spec (F64.ilog2 x - 52) (-1074)) as [[_ ->]|[_ ->]].
      - change (-1074 - 1)%Z with (-1075)%Z.
        assert (0 <= x * 2 ^ (-53)) by (apply Qmult_le_0_compat; lra). lra.
      - destruct (ilog2_spec x Hpos) as [Hl _].
        replace (F64.ilog2 x - 52 - 1)%Z with (F64.ilog2 x + -53)%Z by lia.
        rewrite pow2_plus.
        assert (2 ^ F64.ilog2 x * 2 ^ (-53) <= x * 2 ^ (-53))
          by (apply Qmult_le_compat_r; lra).
        lra. }
    assert (Hlo : - (2 ^ e * (1 # 2)) <= rawRound x - x).
    { rewrite Hraw.
      assert (- (1 # 2) * 2 ^ e
              <= (inject_Z (F64.nearestEven (x / 2 ^ e)) - x / 2 ^ e) * 2 ^ e)
        by (apply Qmult_le_compat_r; lra).
      lra. }
    assert (Hhi : rawRound x - x <= 2 ^ e * (1 # 2)).
    { rewrite Hraw.
      assert ((inject_Z (F64.nearestEven (x / 2 ^ e)) - x / 2 ^ e) * 2 ^ e
              <= (1 # 2) * 2 ^ e)
        by (apply Qmult_le_compat_r; lra).
      lra. }
    split; lra.
Qed.

(** ** Percentiles *)

Lemma arrayGet_integer {A} (a : list A) (y : Q) (k : Z) :
  y == inject_Z k -> (0 <= k)%Z ->
  arrayGet a (Fin y) = nth_error a (Z.to_nat k).
Proof.
  intros Hy Hk. unfold arrayGet.
  assert (Hfl : Qfloor y = k) by (rewrite Hy; apply Qfloor_Z).
  rewrite Hfl.
  assert (Heq : Qeq_bool y (inject_Z k) = true) by now apply Qeq_bool_iff.
  rewrite Heq. apply Z.leb_le in Hk. now rewrite Hk.
Qed.

Lemma inject_Z_pred (c : Z) : inject_Z c + - inject_Z 1 == inject_Z (c - 1).
Proof. unfold Qeq, inject_Z, Qplus, Qopp; simpl. lia. Qed.

Lemma nth_error_last {A} (l : list A) (d : A) :
  l <> [] -> nth_error l (List.length l - 1) = Some (last l d).
Proof.
  induction l as [|x l IH]; [congruence|]. intros _.
  destruct l as [|y l]; [reflexivity|].
  cbn [List.length last]. cbn [List.length] in IH.
  replace (S (S (List.length l)) - 1)%nat with (S (S (List.length l) - 1)) by lia.
  cbn [nth_error]. apply IH. discriminate.
Qed.

Lemma Qceiling_le_Z (x : Q) (n : Z) : x <= inject_Z n -> (Qceiling x <= n)%Z.
Proof.
  intros H. rewrite <- (Qceiling_Z n). now apply Qceiling_resp_le.
Qed.

(** *** The index in doubles *)

Lemma Qle_bool_false (a b : Q) : Qle_bool a b = false -> b < a.
Proof.
  intros E. apply Qnot_le_lt. intros H. apply Qle_bool_iff in H. congruence.
Qed.

Lemma scaled_le_100 (p q : Q) : p <= q -> p / 100 <= q / 100.
Proof.
  intros H. unfold Qdiv. apply Qmult_le_compat_r; [exact H|discriminate].
Qed.

Lemma round_not_NaN (x : Q) : F64.round x <> NaN.
Proof.
  unfold F64.round. destruct (x ?= 0)%Q; [discriminate| |];
    rewrite roundPositive_raw;
    match goal with |- context [Qle_bool ?a ?b] => destruct (Qle_bool a b) end;
    discriminate.
Qed.

Lemma rounded_mono (a b : number) : nle a b -> nle (F64.rounded a) (F64.rounded b).
Proof.
  destruct a as [x| | |], b as [y| | |]; cbn [nle F64.rounded]; try easy.
  - apply round_mono.
  - intros _. pose proof (round_not_NaN x). now destruct (F64.round x).
  - intros _. pose proof (round_not_NaN y). now destruct (F64.round y).
Qed.

Lemma mul_mono (k : Q) (a b : number) :
  0 < k -> nle a b -> nle (mul a (Fin k)) (mul b (Fin k)).
Proof.
  intros Hk. assert (C : (k ?= 0)%Q = Gt) by (apply (proj1 (Qgt_alt k 0)); exact Hk).
  destruct a as [x| | |], b as [y| | |]; cbn [nle mul]; unfold signedInf;
    rewrite ?C; cbn [nle]; try easy.
  intros H. apply Qmult_le_compat_r; [exact H|now apply Qlt_le_weak].
Qed.

Lemma ceil_mono (a b : number) : nle a b -> nle (ceil a) (ceil b).
Proof.
  destruct a as [x| | |], b as [y| | |]; cbn [nle ceil ofZ]; try easy.
  intros H. rewrite <- Zle_Qle. now apply Qceiling_resp_le.
Qed.

Lemma pred_mono (a b : number) : nle a b -> nle (sub a (ofZ 1)) (sub b (ofZ 1)).
Proof.
  destruct a as [x| | |], b as [y| | |]; cbn [nle sub add neg ofZ]; try easy.
  intros H. lra.
Qed.

Lemma max2_mono (a b : number) :
  nle a b -> nle (max2 (ofZ 0) a) (max2 (ofZ 0) b).
Proof.
  destruct a as [x| | |], b as [y| | |]; cbn [nle max2 ofZ]; try easy; intros H;
    repeat match goal with
           | |- context [Qle_bool ?u ?v] =>
               let E := fresh "E" in
               destruct (Qle_bool u v) eqn:E;
               [apply Qle_bool_iff in E|apply Qle_bool_false in E]
           end;
    unfold ofZ; cbn [nle]; change (inject_Z 0) with 0 in *; try exact I; lra.
Qed.

Lemma indexAt_mono (n : nat) (y y' : number) :
  (0 < n)%nat -> nle y y' -> nle (indexAt n y) (indexAt n y').
Proof.
  intros Hn H. unfold indexAt, F64.fsub, F64.fmul.
  apply max2_mono, rounded_mono, pred_mono, ceil_mono, rounded_mono.
  unfold ofNat, ofZ. apply mul_mono; [|exact H].
  rewrite <- (Zlt_Qlt 0). lia.
Qed.

Lemma quotient_round (p : Q) : F64.fdiv (Fin p) (ofZ 100) = F64.round (p / 100).
Proof. reflexivity. Qed.

(** The index for an integer value of the ceiling. *)
Lemma index_of_ceiling (c : Z) :
  (c <= 2 ^ 53)%Z ->
  exists r, max2 (ofZ 0) (F64.fsub (ofZ c) (ofZ 1)) = Fin r
            /\ r == inject_Z (Z.max 0 (c - 1)).
Proof.
  intros Hc. unfold F64.fsub. cbn [sub add neg ofZ F64.rounded].
  rewrite (round_comp _ _ (inject_Z_pred c)).
  destruct (Z_le_gt_dec 1 c) as [H1|H1].
  - destruct (round_Z (c - 1)) as (r & -> & Hr); [lia|].
    exists r. split; [|rewrite Hr, Z.max_r by lia; reflexivity].
    unfold max2, ofZ.
    match goal with
    | |- context [Qle_bool ?u r] =>
        assert (E : Qle_bool u r = true)
          by (apply Qle_bool_iff; change u with (inject_Z 0);
              rewrite Hr, <- Zle_Qle; lia);
        rewrite E
    end.
    reflexivity.
  - pose proof (round_nonpos (inject_Z (c - 1))) as Hle.
    assert (Hneg : inject_Z (c - 1) <= 0) by (rewrite <- (Zle_Qle _ 0); lia).
    specialize (Hle Hneg). rewrite Z.max_l by lia.
    destruct (F64.round (inject_Z (c - 1))) as [r| | |]; cbn [nle] in Hle;
      try contradiction; unfold max2, ofZ.
    + match goal with
      | |- context [Qle_bool ?u r] => destruct (Qle_bool u r) eqn:E
      end.
      * exists r. split; [reflexivity|]. apply Qle_bool_iff in E.
        change (inject_Z 0) with 0 in *. lra.
      * exists (inject_Z 0). split; reflexivity.
    + exists (inject_Z 0). split; reflexivity.
Qed.

(** The index for a quotient that is not above 1: an index of the
    array. *)
Lemma indexAt_within (n : nat) (y : number) :
  (0 < n)%nat -> (Z.of_nat n < 2 ^ 53)%Z -> nle y (Fin 1) ->
  exists (k : Z) (r : Q),
    indexAt n y = Fin r /\ r == inject_Z k /\ (0 <= k <= Z.of_nat n - 1)%Z.
Proof.
  intros Hn Hbig Hy.
  assert (Hnq : 0 < inject_Z (Z.of_nat n)) by (rewrite <- (Zlt_Qlt 0); lia).
  assert (Hprod : nle (F64.fmul y (ofNat n)) (F64.round (inject_Z (Z.of_nat n)))).
  { unfold F64.fmul.
    rewrite <- (round_comp (1 * inject_Z (Z.of_nat n))) by apply Qmult_1_l.
    apply (rounded_mono _ (mul (Fin 1) (ofNat n))).
    unfold ofNat, ofZ. now apply mul_mono. }
  destruct (round_Z (Z.of_nat n)) as (rn & Ern & Hrn); [lia|].
  rewrite Ern in Hprod. unfold indexAt.
  destruct (F64.fmul y (ofNat n)) as [v| | |]; cbn [nle] in Hprod;
    try contradiction.
  - cbn [ceil].
    assert (Hc : (Qceiling v <= Z.of_nat n)%Z).
    { apply Qceiling_le_Z. now rewrite <- Hrn. }
    destruct (index_of_ceiling (Qceiling v)) as (r & Er & Hr); [lia|].
    exists (Z.max 0 (Qceiling v - 1)), r. split; [exact Er|]. split; [exact Hr|lia].
  - exists 0%Z, (inject_Z 0). split; [reflexivity|]. split; [reflexivity|lia].
Qed.

Lemma quotient_le_1 (q : Q) : q <= 100 -> nle (F64.fdiv (Fin q) (ofZ 100)) (Fin 1).
Proof.
  intros Hq. rewrite quotient_round.
  destruct (round_Z 1) as (r1 & E1 & H1); [lia|].
  assert (H : nle (F64.round (q / 100)) (F64.round (inject_Z 1))).
  { apply round_mono. apply Qle_shift_div_r; [reflexivity|].
    change (inject_Z 1) with 1. now rewrite Qmult_1_l. }
  rewrite E1 in H. destruct (F64.round (q / 100)); cbn [nle] in *; try easy.
  now rewrite <- H1.
Qed.

(** The element [calculatePercentile] reads for a percentile up to 100,
    in an array that is not empty. *)
Lemma percentile_rank64 {A} (l : list A) (q : Q) :
  l <> [] -> (Z.of_nat (List.length l) < 2 ^ 53)%Z -> q <= 100 ->
  (rank64 (List.length l) q < List.length l)%nat
  /\ arrayGet l (indexAt (List.length l) (F64.fdiv (Fin q) (ofZ 100)))
     = nth_error l (rank64 (List.length l) q).
Proof.
  intros Hne Hbig Hq.
  assert (Hn : (0 < List.length l)%nat) by (destruct l; [congruence|cbn; lia]).
  destruct (indexAt_within (List.length l) _ Hn Hbig (quotient_le_1 q Hq))
    as (k & r & Er & Hr & Hk).
  unfold rank64. fold (indexAt (List.length l) (F64.fdiv (Fin q) (ofZ 100))).
  rewrite Er, (Qfloor_comp _ _ Hr), Qfloor_Z.
  split; [lia|]. now apply arrayGet_integer.
Qed.

Lemma calculatePercentile_rank64 (l : list number) (q : Q) :
  l <> [] -> (Z.of_nat (List.length l) < 2 ^ 53)%Z -> q <= 100 ->
  calculatePercentile l (Fin q) = nth_error l (rank64 (List.length l) q).
Proof.
  intros Hne Hbig Hq. destruct (percentile_rank64 l q Hne Hbig Hq) as [_ H].
  destruct l as [|x l']; [congruence|]. exact H.
Qed.

Lemma rank64_mono (n : nat) (p q : Q) :
  (0 < n)%nat -> (Z.of_nat n < 2 ^ 53)%Z -> p <= q -> q <= 100 ->
  (rank64 n p <= rank64 n q)%nat.
Proof.
  intros Hn Hbig Hpq Hq.
  assert (Hp : p <= 100) by lra.
  destruct (indexAt_within n _ Hn Hbig (quotient_le_1 p Hp))
    as (kp & rp & Ep & Hrp & Hkp).
  destruct (indexAt_within n _ Hn Hbig (quotient_le_1 q Hq))
    as (kq & rq & Eq & Hrq & Hkq).
  assert (H : nle (indexAt n (F64.fdiv (Fin p) (ofZ 100)))
                  (indexAt n (F64.fdiv (Fin q) (ofZ 100)))).
  { apply indexAt_mono; [exact Hn|]. rewrite !quotient_round.
    apply round_mono. now apply scaled_le_100. }
  unfold rank64. fold (indexAt n (F64.fdiv (Fin p) (ofZ 100))).
  fold (indexAt n (F64.fdiv (Fin q) (ofZ 100))).
  rewrite Ep, Eq in *. cbn [nle] in H.
  rewrite (Qfloor_comp _ _ Hrp), (Qfloor_comp _ _ Hrq), !Qfloor_Z.
  rewrite Hrp, Hrq, <- Zle_Qle in H. lia.
Qed.

Lemma rank64_100 (n : nat) :
  (0 < n)%nat -> (Z.of_nat n < 2 ^ 53)%Z -> rank64 n 100 = (n - 1)%nat.
Proof.
  intros Hn Hbig. unfold rank64.
  assert (E1 : F64.fdiv (Fin 100) (ofZ 100) = F64.round (inject_Z 1))
    by (rewrite quotient_round; now apply round_comp).
  destruct (round_Z 1) as (r1 & Er1 & Hr1); [lia|].
  rewrite E1, Er1. unfold F64.fmul. cbn [mul ofNat ofZ F64.rounded].
  assert (E2 : r1 * inject_Z (Z.of_nat n) == inject_Z (Z.of_nat n))
    by (rewrite Hr1; apply Qmult_1_l).
  rewrite (round_comp _ _ E2).
  destruct (round_Z (Z.of_nat n)) as (rn & Ern & Hrn); [lia|].
  rewrite Ern. cbn [ceil]. rewrite (Qceiling_comp _ _ Hrn), Qceiling_Z.
  destruct (index_of_ceiling (Z.of_nat n)) as (r & Er & Hr); [lia|].
  rewrite Er, (Qfloor_comp _ _ Hr), Qfloor_Z. lia.
Qed.

(** The product of the doubles is within 1 of the exact product, for an
    array of fewer than 2^32 values and a percentile from 0 to 100. *)
Lemma product_error (n : Z) (q : Q) :
  (0 <= n < 2 ^ 32)%Z -> 0 <= q <= 100 ->
  exists product,
    F64.fmul (F64.fdiv (Fin q) (ofZ 100)) (ofZ n) = Fin product
    /\ q / 100 * inject_Z n - 1 < product
    /\ product < q / 100 * inject_Z n + 1.
Proof.
  intros [Hn0 Hn] [Hq0 Hq].
  assert (N0 : 0 <= inject_Z n) by (rewrite <- (Zle_Qle 0); lia).
  assert (N32 : inject_Z n <= 4294967296)
    by (change 4294967296 with (inject_Z (2 ^ 32)); rewrite <- Zle_Qle; lia).
  assert (X0 : 0 <= q / 100)
    by (apply Qle_shift_div_l; [reflexivity|]; now rewrite Qmult_0_l).
  assert (X1 : q / 100 <= 1)
    by (apply Qle_shift_div_r; [reflexivity|]; now rewrite Qmult_1_l).
  assert (B1000 : 4294967296 <= 2 ^ 1000).
  { change 4294967296 with (inject_Z (2 ^ 32)). rewrite <- (pow2_Z 32) by lia.
    apply pow2_le. lia. }
  assert (D53 : 2 ^ (-53) == 1 # 9007199254740992) by reflexivity.
  assert (D1075 : 0 < 2 ^ (-1075) /\ 2 ^ (-1075) <= 1 # 9007199254740992).
  { split; [apply pow2_pos|]. rewrite <- D53. apply pow2_le. lia. }
  set (tiny := 2 ^ (-1075)) in *.
  destruct (round_error (q / 100) X0) as (y & Ey & Y1 & Y2); [lra|].
  fold tiny in Y1, Y2. rewrite D53 in Y1, Y2.
  assert (Hy1 : nle (Fin y) (Fin 1)).
  { rewrite <- Ey, <- quotient_round. now apply quotient_le_1. }
  cbn [nle] in Hy1.
  assert (Hy0 : 0 <= y).
  { pose proof (round_nonneg (q / 100) X0) as H. now rewrite Ey in H. }
  rewrite quotient_round, Ey. unfold F64.fmul. cbn [mul ofZ F64.rounded].
  assert (P0 : 0 <= y * inject_Z n) by now apply Qmult_le_0_compat.
  assert (P1 : y * inject_Z n <= inject_Z n).
  { rewrite <- (Qmult_1_l (inject_Z n)) at 2. now apply Qmult_le_compat_r. }
  destruct (round_error (y * inject_Z n) P0) as (v & Ev & V1 & V2); [lra|].
  fold tiny in V1, V2. rewrite D53 in V1, V2.
  exists v. split; [exact Ev|].
  assert (S1 : y * inject_Z n * (1 # 9007199254740992)
               <= inject_Z n * (1 # 9007199254740992))
    by (apply Qmult_le_compat_r; [exact P1|discriminate]).
  assert (S2 : (y - q / 100) * inject_Z n
               <= (q / 100 * (1 # 9007199254740992) + tiny) * inject_Z n)
    by (apply Qmult_le_compat_r; [lra|exact N0]).
  assert (S3 : - (q / 100 * (1 # 9007199254740992) + tiny) * inject_Z n
               <= (y - q / 100) * inject_Z n)
    by (apply Qmult_le_compat_r; [lra|exact N0]).
  assert (S4 : (q / 100 * (1 # 9007199254740992) + tiny) * inject_Z n
               <= (1 # 4503599627370496) * inject_Z n)
    by (apply Qmult_le_compat_r; [lra|exact N0]).
  assert (S5 : (y - q / 100) * inject_Z n == y * inject_Z n - q / 100 * inject_Z n)
    by ring.
  split; lra.
Qed.

(** C4, counterexample: at the percentile 14, on the fifty values from 0
    to 49, the nearest rank is [ceil(14 / 100 * 50) - 1 = 6]; the code
    computes the product in doubles, [0.14 * 50 = 7.000000000000001], and
    reads the index 7. *)
Lemma calculatePercentile_reads_past_nearest_rank :
  List.length fiftyValues = 50%nat
  /\ Z.max 0 (Z.min (50 - 1) (Qceiling (14 / 100 * inject_Z 50) - 1)) = 6%Z
  /\ nth_error fiftyValues 6 = Some (ofZ 6)
  /\ calculatePercentile fiftyValues (ofZ 14) = Some (ofZ 7)
  /\ calculatePercentile fiftyValues (ofZ 14) <> nth_error fiftyValues 6.
Proof.
  split; [reflexivity|]. split; [reflexivity|]. split; [reflexivity|].
  assert (H : calculatePercentile fiftyValues (ofZ 14) = Some (ofZ 7))
    by (vm_compute; reflexivity).
  split; [exact H|]. rewrite H. discriminate.
Qed.

(** Outside the documented domain of the percentile, above 100, a
    singleton is read past its end; the result is [undefined]. *)
Lemma calculatePercentile_singleton_above_100 :
  calculatePercentile [ofZ 42] (ofZ 150) <> Some (ofZ 42).
Proof. vm_compute. discriminate. Qed.

(** C4, as amended: [calculatePercentile] returns 0 on the empty array for
    any percentile, and the single value of a singleton for any
    percentile up to 100 (negative ones included).  On a non-empty array
    of [n] values, fewer than 2^32 as in every array, and for a percentile
    [p] from 0 to 100, it returns the element of index
    [ceil(fl(fl(p / 100) * n)) - 1], not below 0, where [fl] rounds to the
    nearest double: this index is within the array, and it is the nearest
    rank [ceil(p / 100 * n) - 1] or an index next to it.  At 100 it is the
    last element. *)
Theorem calculatePercentile_rounded_rank
        (sortedArray : list number) (v p : number) (q q1 : Q) :
  sortedArray <> [] ->
  (Z.of_nat (List.length sortedArray) < 2 ^ 32)%Z ->
  0 <= q <= 100 ->
  q1 <= 100 ->
  let n := Z.of_nat (List.length sortedArray) in
  let nearest := Z.max 0 (Qceiling (q / 100 * inject_Z n) - 1) in
  calculatePercentile [] p = Some (Fin 0)
  /\ calculatePercentile [v] (Fin q1) = Some v
  /\ (exists (product : Q) (index : Z),
        fmul (fdiv (Fin q) (ofZ 100)) (ofZ n) = Fin product
        /\ index = Z.max 0 (Qceiling product - 1)
        /\ (0 <= index <= n - 1)%Z
        /\ (nearest - 1 <= index <= nearest + 1)%Z
        /\ calculatePercentile sortedArray (Fin q)
           = nth_error sortedArray (Z.to_nat index)
        /\ exists x, nth_error sortedArray (Z.to_nat index) = Some x)
  /\ calculatePercentile sortedArray (ofZ 100) = Some (last sortedArray (Fin 0)).
Proof.
  intros Hne Hlen [Hq0 Hq100] Hq1 n nearest.
  assert (Hn : (1 <= n)%Z).
  { subst n. destruct sortedArray; [congruence|]. cbn [List.length]. lia. }
  assert (Hbig : (n < 2 ^ 53)%Z).
  { assert (2 ^ 32 < 2 ^ 53)%Z by (apply Z.pow_lt_mono_r; lia). lia. }
  split; [reflexivity|]. split; [|split].
  - rewrite (calculatePercentile_rank64 [v] q1); [|discriminate| |exact Hq1].
    + destruct (percentile_rank64 [v] q1) as [Hlt _];
        [discriminate| |exact Hq1|].
      * cbn [List.length]. change (Z.of_nat 1) with 1%Z. lia.
      * cbn [List.length] in *.
        now replace (rank64 1 q1) with 0%nat by lia.
    + cbn [List.length]. change (Z.of_nat 1) with 1%Z. lia.
  - destruct (product_error n q) as (product & Ep & P1 & P2);
      [lia|split; assumption|].
    exists product, (Z.max 0 (Qceiling product - 1)).
    split; [exact Ep|]. split; [reflexivity|].
    destruct (percentile_rank64 sortedArray q Hne Hbig Hq100) as [Hlt _].
    assert (Hrank : rank64 (List.length sortedArray) q
                    = Z.to_nat (Z.max 0 (Qceiling product - 1))).
    { unfold rank64. unfold ofNat. fold n. rewrite Ep. cbn [ceil].
      destruct (index_of_ceiling (Qceiling product)) as (r & Er & Hr).
      - assert (Hc : (Qceiling product <= n + 1)%Z).
        { apply Qceiling_le_Z. rewrite inject_Z_plus.
          change (inject_Z 1) with 1.
          assert (q / 100 * inject_Z n <= 1 * inject_Z n).
          { apply Qmult_le_compat_r.
            - apply Qle_shift_div_r; [reflexivity|]. now rewrite Qmult_1_l.
            - rewrite <- (Zle_Qle 0). lia. }
          lra. }
        lia.
      - now rewrite Er, (Qfloor_comp _ _ Hr), Qfloor_Z. }
    rewrite Hrank in Hlt.
    split; [subst n; lia|]. split.
    + assert (C1 : (Qceiling product <= Qceiling (q / 100 * inject_Z n) + 1)%Z).
      { apply Qceiling_le_Z. rewrite inject_Z_plus. change (inject_Z 1) with 1.
        pose proof (Qle_ceiling (q / 100 * inject_Z n)). lra. }
      assert (C2 : (Qceiling (q / 100 * inject_Z n) <= Qceiling product + 1)%Z).
      { apply Qceiling_le_Z. rewrite inject_Z_plus. change (inject_Z 1) with 1.
        pose proof (Qle_ceiling product). lra. }
      subst nearest. lia.
    + rewrite (calculatePercentile_rank64 _ _ Hne Hbig Hq100), Hrank.
      split; [reflexivity|].
      destruct (nth_error sortedArray (Z.to_nat (Z.max 0 (Qceiling product - 1))))
        eqn:E; [eauto|].
      apply nth_error_None in E. lia.
  - change (ofZ 100) with (Fin 100).
    rewrite (calculatePercentile_rank64 _ 100 Hne Hbig) by apply Qle_refl.
    rewrite rank64_100 by (subst n; lia).
    now apply nth_error_last.
Qed.

Lemma calculatePercentile_rounded_rank_witness :
  calculatePercentile [] NaN = Some (Fin 0)
  /\ calculatePercentile [ofZ 42] (Fin (-3)) = Some (ofZ 42)
  /\ (exists (product : Q) (index : Z),
        fmul (fdiv (Fin 14) (ofZ 100)) (ofZ 50) = Fin product
        /\ index = Z.max 0 (Qceiling product - 1)
        /\ (0 <= index <= 50 - 1)%Z
        /\ (6 - 1 <= index <= 6 + 1)%Z
        /\ calculatePercentile fiftyValues (Fin 14)
           = nth_error fiftyValues (Z.to_nat index)
        /\ exists x, nth_error fiftyValues (Z.to_nat index) = Some x)
  /\ calculatePercentile fiftyValues (ofZ 100) = Some (ofZ 49).
Proof.
  assert (Hne : fiftyValues <> []) by discriminate.
  assert (Hlen : (Z.of_nat (List.length fiftyValues) < 2 ^ 32)%Z) by reflexivity.
  assert (Hq : 0 <= 14 <= 100) by (split; discriminate).
  assert (Hq1 : -3 <= 100) by discriminate.
  exact (calculatePercentile_rounded_rank fiftyValues (ofZ 42) NaN 14 (-3)
           Hne Hlen Hq Hq1).
Defined.

(** ** Histogram bins *)

Lemma Math_min_constant (q : Q) (k : nat) :
  Math_min (repeat (Fin q) (S k)) = Fin q.
Proof.
  unfold Math_min. cbn [repeat fold_left min2].
  induction k as [|k IH]; [reflexivity|].
  cbn [repeat fold_left min2]. destruct (Qle_bool q q); exact IH.
Qed.

Lemma Math_max_constant (q : Q) (k : nat) :
  Math_max (repeat (Fin q) (S k)) = Fin q.
Proof.
  unfold Math_max. cbn [repeat fold_left max2].
  induction k as [|k IH]; [reflexivity|].
  cbn [repeat fold_left max2]. destruct (Qle_bool q q); exact IH.
Qed.

Lemma populate_thrown (min binWidth : number) (binCount : Z) (e : Error)
      (values : list number) :
  fold_left (populate min binWidth binCount) values (Throw e) = Throw e.
Proof. induction values; auto. Qed.

Lemma Qcompare_zero (x : Q) : x == 0 -> (x ?= 0)%Q = Eq.
Proof. intros H. now apply Qeq_alt. Qed.

Lemma Qcompare_pos (x : Q) : 0 < x -> (x ?= 0)%Q = Gt.
Proof. intros H. now apply Qgt_alt. Qed.

Lemma round_zero (x : Q) : x == 0 -> F64.round x = Fin 0.
Proof. intros E. unfold F64.round. now rewrite (Qcompare_zero x E). Qed.

Lemma fsub_self (q q' : Q) : q == q' -> fsub (Fin q) (Fin q') = Fin 0.
Proof.
  intros E. unfold fsub. cbn [sub add neg F64.rounded].
  apply round_zero. rewrite E. apply Qplus_opp_r.
Qed.

(** A width of 0 or [NaN] gives the index [NaN] to a value equal to the
    minimum: 0 / 0. *)
Lemma binIndexOf_no_width (q : Q) (binWidth : number) (binCount : Z) :
  binWidth = Fin 0 \/ binWidth = NaN ->
  binIndexOf (Fin q) binWidth binCount (Fin q) = NaN.
Proof.
  intros [-> | ->]; unfold binIndexOf; rewrite (fsub_self q q (Qeq_refl q));
    reflexivity.
Qed.

(** The width of the bins of values that are all equal is 0, or [NaN]
    when there are no bins to be. *)
Lemma binWidth_constant (q : Q) (binCount : Z) :
  let binWidth := fdiv (fsub (Fin q) (Fin q)) (ofZ binCount) in
  binWidth = Fin 0 \/ binWidth = NaN.
Proof.
  cbv zeta. rewrite (fsub_self q q (Qeq_refl q)).
  unfold fdiv, ofZ. cbn [div].
  destruct (inject_Z binCount ?= 0)%Q; [right; reflexivity| |];
    left; cbn [F64.rounded]; apply round_zero; unfold Qdiv; apply Qmult_0_l.
Qed.

(** C6, the failing inputs: on a list whose values are all equal, a
    singleton for one, the bins have no width, the index of every value
    is 0 / 0 and [bins[binIndex].count++] throws a [TypeError], whatever
    the number of bins: no bins are returned and no value is counted. *)
Theorem createHistogramBins_constant_data_throws (q : Q) (k : nat) (binCount : Z) :
  createHistogramBins (repeat (Fin q) (S k)) binCount = Throw TypeError.
Proof.
  unfold createHistogramBins.
  rewrite Math_min_constant, Math_max_constant.
  cbn [repeat fold_left]. unfold populate at 2.
  rewrite (binIndexOf_no_width q _ binCount (binWidth_constant q binCount)).
  cbn [arrayGet].
  apply populate_thrown.
Qed.

Example createHistogramBins_singleton :
  createHistogramBins [ofZ 5] 1 = Throw TypeError
  /\ createHistogramBins [ofZ 5] 20 = Throw TypeError.
Proof. split; vm_compute; reflexivity. Qed.

(** *** Values that are not all equal *)

Lemma Math_min_Fin (q0 : Q) (qs : list Q) :
  Math_min (map Fin (q0 :: qs)) = Fin (Qleast q0 qs).
Proof.
  unfold Math_min, Qleast. cbn [map fold_left min2].
  revert q0. induction qs as [|q qs IH]; intros a; [reflexivity|].
  cbn [map fold_left min2]. destruct (Qle_bool a q); apply IH.
Qed.

Lemma Math_max_Fin (q0 : Q) (qs : list Q) :
  Math_max (map Fin (q0 :: qs)) = Fin (Qgreatest q0 qs).
Proof.
  unfold Math_max, Qgreatest. cbn [map fold_left max2].
  revert q0. induction qs as [|q qs IH]; intros a; [reflexivity|].
  cbn [map fold_left max2]. destruct (Qle_bool a q); apply IH.
Qed.

Lemma Qleast_le (q0 : Q) (qs : list Q) :
  forall q, In q (q0 :: qs) -> Qleast q0 qs <= q.
Proof.
  unfold Qleast. revert q0. induction qs as [|x qs IH]; intros a q Hq.
  - destruct Hq as [<-|[]]. apply Qle_refl.
  - cbn [fold_left].
    assert (Ha : (if Qle_bool a x then a else x) <= a
                 /\ (if Qle_bool a x then a else x) <= x).
    { destruct (Qle_bool a x) eqn:E.
      - apply Qle_bool_iff in E. split; [apply Qle_refl|exact E].
      - split; [|apply Qle_refl]. apply Qlt_le_weak, Qnot_le_lt.
        intros H. apply Qle_bool_iff in H. congruence. }
    destruct Ha as [Ha Hx].
    destruct Hq as [<-|[<-|Hq]].
    + eapply Qle_trans; [|exact Ha]. apply IH. now left.
    + eapply Qle_trans; [|exact Hx]. apply IH. now left.
    + apply IH. now right.
Qed.

Lemma Qgreatest_ge (q0 : Q) (qs : list Q) :
  forall q, In q (q0 :: qs) -> q <= Qgreatest q0 qs.
Proof.
  unfold Qgreatest. revert q0. induction qs as [|x qs IH]; intros a q Hq.
  - destruct Hq as [<-|[]]. apply Qle_refl.
  - cbn [fold_left].
    assert (Ha : a <= (if Qle_bool a x then x else a)
                 /\ x <= (if Qle_bool a x then x else a)).
    { destruct (Qle_bool a x) eqn:E.
      - apply Qle_bool_iff in E. split; [exact E|apply Qle_refl].
      - split; [apply Qle_refl|]. apply Qlt_le_weak, Qnot_le_lt.
        intros H. apply Qle_bool_iff in H. congruence. }
    destruct Ha as [Ha Hx].
    destruct Hq as [<-|[<-|Hq]].
    + eapply Qle_trans; [exact Ha|]. apply IH. now left.
    + eapply Qle_trans; [exact Hx|]. apply IH. now left.
    + apply IH. now right.
Qed.

Lemma arrayUpdate_at {A} (a1 a2 : list A) (x : A) (f : A -> A) :
  arrayUpdate (a1 ++ x :: a2) (List.length a1) f = a1 ++ f x :: a2.
Proof. induction a1 as [|y a1 IH]; cbn; [reflexivity|]. now rewrite IH. Qed.

Lemma nth_error_middle {A} (a1 a2 : list A) (x y : A) (i : nat) :
  nth_error (a1 ++ y :: a2) i = Some x ->
  (i = List.length a1 /\ x = y)
  \/ (i <> List.length a1 /\ forall z, nth_error (a1 ++ z :: a2) i = Some x).
Proof.
  revert i. induction a1 as [|u a1 IH]; intros [|i]; cbn.
  - intros [= <-]. now left.
  - intros H. right. split; [discriminate|]. intros z. exact H.
  - intros H. right. split; [discriminate|]. intros z. exact H.
  - intros H. destruct (IH i H) as [[-> ->]|[Hne Hz]]; [now left|].
    right. split; [congruence|exact Hz].
Qed.

(** *** The index of a value *)

Lemma sub_mono (c x y : Q) :
  x <= y -> nle (sub (Fin x) (Fin c)) (sub (Fin y) (Fin c)).
Proof. intros H. cbn [sub add neg nle]. lra. Qed.

Lemma div_mono (k : Q) (a b : number) :
  0 < k -> nle a b -> nle (div a (Fin k)) (div b (Fin k)).
Proof.
  intros Hk. pose proof (Qcompare_pos k Hk) as C.
  destruct a as [x| | |], b as [y| | |]; cbn [nle div]; rewrite ?C; cbn [nle];
    try easy.
  intros H. unfold Qdiv. apply Qmult_le_compat_r; [exact H|].
  apply Qlt_le_weak, Qinv_lt_0_compat, Hk.
Qed.

Lemma floor_mono (a b : number) : nle a b -> nle (floor a) (floor b).
Proof.
  destruct a as [x| | |], b as [y| | |]; cbn [nle floor ofZ]; try easy.
  intros H. rewrite <- Zle_Qle. now apply Qfloor_resp_le.
Qed.

Lemma min2_mono (c : Q) (a b : number) :
  nle a b -> nle (min2 a (Fin c)) (min2 b (Fin c)).
Proof.
  destruct a as [x| | |], b as [y| | |]; cbn [nle min2]; try easy; intros H;
    repeat match goal with
           | |- context [Qle_bool ?u ?v] =>
               let E := fresh "E" in
               destruct (Qle_bool u v) eqn:E;
               [apply Qle_bool_iff in E|apply Qle_bool_false in E]
           end;
    cbn [nle]; try exact I; lra.
Qed.

Lemma binIndexOf_mono (lo : Q) (w : Q) (binCount : Z) (x y : Q) :
  0 < w -> x <= y ->
  nle (binIndexOf (Fin lo) (Fin w) binCount (Fin x))
      (binIndexOf (Fin lo) (Fin w) binCount (Fin y)).
Proof.
  intros Hw H. unfold binIndexOf, fdiv, fsub, ofZ.
  apply min2_mono, floor_mono, rounded_mono, div_mono; [exact Hw|].
  apply rounded_mono, sub_mono, H.
Qed.

(** The least value has the index 0. *)
Lemma binIndexOf_least (lo w : Q) (binCount : Z) (q : Q) :
  0 < w -> (1 <= binCount)%Z -> q == lo ->
  binIndexOf (Fin lo) (Fin w) binCount (Fin q) = ofZ 0.
Proof.
  intros Hw Hb E. unfold binIndexOf. rewrite (fsub_self q lo E).
  unfold fdiv. cbn [div]. rewrite (Qcompare_pos w Hw). cbn [F64.rounded].
  rewrite (round_zero (0 / w)) by (unfold Qdiv; apply Qmult_0_l).
  cbn [floor]. change (Qfloor 0) with 0%Z. unfold min2, ofZ.
  destruct (Qle_bool (inject_Z 0) (inject_Z (binCount - 1))) eqn:C;
    [reflexivity|].
  apply Qle_bool_false in C. rewrite <- Zlt_Qlt in C. lia.
Qed.

(** An index that is not below 0 is an integer within the bins. *)
Lemma min2_floor_integer (a : number) (c : Z) :
  nle (Fin 0) (min2 (floor a) (ofZ c)) ->
  exists k, min2 (floor a) (ofZ c) = ofZ k /\ (0 <= k <= c)%Z.
Proof.
  unfold ofZ. destruct a as [x| | |]; cbn [floor]; unfold min2, ofZ;
    cbn [nle]; try easy.
  - destruct (Qle_bool (inject_Z (Qfloor x)) (inject_Z c)) eqn:C; cbn [nle];
      intros H; change 0 with (inject_Z 0) in H; rewrite <- Zle_Qle in H.
    + apply Qle_bool_iff in C. rewrite <- Zle_Qle in C.
      exists (Qfloor x). split; [reflexivity|lia].
    + exists c. split; [reflexivity|lia].
  - intros H. change 0 with (inject_Z 0) in H. rewrite <- Zle_Qle in H.
    exists c. split; [reflexivity|lia].
Qed.

Lemma binIndexOf_range (lo w : Q) (binCount : Z) (q : Q) :
  0 < w -> (1 <= binCount)%Z -> lo <= q ->
  exists k, binIndexOf (Fin lo) (Fin w) binCount (Fin q) = ofZ k
            /\ (0 <= k <= binCount - 1)%Z.
Proof.
  intros Hw Hb Hq. apply min2_floor_integer.
  pose proof (binIndexOf_mono lo w binCount lo q Hw Hq) as H.
  rewrite (binIndexOf_least lo w binCount lo Hw Hb (Qeq_refl lo)) in H.
  exact H.
Qed.

Lemma ofZ_inj (a b : Z) : ofZ a = ofZ b -> a = b.
Proof. unfold ofZ, inject_Z. congruence. Qed.

(** The greatest value has the last index when the width is a normal
    double: [(binCount - 1) * w <= d], where [d] is the rounded span of
    the values and [w] the rounded width. *)
Lemma width_fits (d w : Q) (binCount : Z) :
  (1 <= binCount <= 2 ^ 32)%Z ->
  F64.round (d / inject_Z binCount) = Fin w ->
  2 ^ (-1022) <= w ->
  inject_Z (binCount - 1) * w <= d.
Proof.
  intros [Hb1 Hb2] Hr Hw.
  set (n := inject_Z binCount) in *.
  assert (Hn1 : 1 <= n) by (unfold n; rewrite <- (Zle_Qle 1); lia).
  assert (Hn2 : n <= 4294967296)
    by (unfold n; change 4294967296 with (inject_Z (2 ^ 32)); now rewrite <- Zle_Qle).
  assert (Hpred : inject_Z (binCount - 1) == n - 1).
  { unfold n, Z.sub. rewrite inject_Z_plus, inject_Z_opp. reflexivity. }
  rewrite Hpred.
  set (x := d / n) in *.
  assert (Hd : d == n * x) by (unfold x; field; intros E; rewrite E in Hn1; lra).
  pose proof (pow2_pos (-1075)) as Peta.
  assert (Hnorm : 2 ^ (-1022) == 9007199254740992 * 2 ^ (-1075)).
  { change (-1022)%Z with (53 + -1075)%Z. rewrite pow2_plus. reflexivity. }
  assert (Heps : 2 ^ (-53) == 1 # 9007199254740992) by reflexivity.
  assert (Hx0 : 0 <= x).
  { destruct (Qlt_le_dec x 0) as [Hneg|Hx]; [|exact Hx]. exfalso.
    pose proof (round_nonpos x (Qlt_le_weak _ _ Hneg)) as H. rewrite Hr in H.
    cbn [nle] in H. pose proof (pow2_pos (-1022)). lra. }
  destruct (round_finite_error x w Hx0 Hr) as [_ Herr].
  rewrite Heps in Herr. rewrite Hnorm in Hw.
  set (eta := 2 ^ (-1075)) in *.
  assert (Hw5 : w <= x + x * (5 # 9007199254740992)) by lra.
  assert (H1 : w * (n - 1) <= (x + x * (5 # 9007199254740992)) * (n - 1))
    by (apply Qmult_le_compat_r; lra).
  assert (H2 : (n - 1) * (5 # 9007199254740992) * x <= 1 * x)
    by (apply Qmult_le_compat_r; lra).
  rewrite Hd. lra.
Qed.

(** *** The bins of values that are not all equal *)

Section SpreadData.
Variables (lo w : Q) (binCount : Z).
Hypothesis width_positive : 0 < w.
Hypothesis bins_positive : (1 <= binCount)%Z.

Lemma emptyBins_nth (min binWidth : number) (n : nat) :
  forall (start i : nat) (b : Bin),
    nth_error (map (emptyBin min binWidth) (List.seq start n)) i = Some b ->
    b = emptyBin min binWidth (start + i).
Proof.
  induction n as [|n IH]; intros start [|i] b; cbn [List.seq map nth_error];
    try discriminate.
  - intros [= <-]. now rewrite Nat.add_0_r.
  - intros H. rewrite (IH _ _ _ H). now rewrite Nat.add_succ_r.
Qed.

Lemma emptyBins_values (min binWidth : number) (n : Z) :
  List.concat (map bin_values (emptyBins min binWidth n)) = [].
Proof.
  unfold emptyBins. induction (List.seq 0 (Z.to_nat n)) as [|i l IH];
    [reflexivity|exact IH].
Qed.

Lemma emptyBins_binned :
  Binned lo w binCount (emptyBins (Fin lo) (Fin w) binCount) [].
Proof.
  split; [|split].
  - unfold emptyBins. now rewrite length_map, length_seq.
  - intros i b Hb. apply emptyBins_nth in Hb. subst b.
    unfold emptyBin.
    cbn [bin_start bin_end bin_label bin_count bin_values List.length Nat.add].
    repeat split. intros v [].
  - now rewrite emptyBins_values.
Qed.

Lemma populate_binned (bins : list Bin) (counted : list number) (q : Q) :
  lo <= q ->
  Binned lo w binCount bins counted ->
  exists bins',
    populate (Fin lo) (Fin w) binCount (Ok bins) (Fin q) = Ok bins'
    /\ Binned lo w binCount bins' (counted ++ [Fin q]).
Proof.
  intros Hq (Hlen & Hbin & Hperm). unfold populate.
  destruct (binIndexOf_range lo w binCount q width_positive bins_positive Hq)
    as (idx & Hidx & Hrange).
  rewrite Hidx. unfold ofZ.
  rewrite (arrayGet_integer bins (inject_Z idx) idx) by (reflexivity || lia).
  destruct (nth_error bins (Z.to_nat idx)) as [b0|] eqn:Hb0;
    [|apply nth_error_None in Hb0; lia].
  rewrite Qfloor_Z.
  destruct (nth_error_split bins (Z.to_nat idx) Hb0) as (a1 & a2 & -> & Ha1).
  rewrite <- Ha1, arrayUpdate_at. eexists. split; [reflexivity|].
  assert (Hold : nth_error (a1 ++ b0 :: a2) (List.length a1) = Some b0)
    by (rewrite nth_error_app2, Nat.sub_diag by lia; reflexivity).
  destruct (Hbin _ _ Hold) as (Hs & He & Hl & Hc & Hv).
  split; [|split].
  - rewrite length_app in Hlen |- *. exact Hlen.
  - intros i b Hb. apply nth_error_middle in Hb as [[-> ->]|[Hne Hz]].
    + cbn [bin_start bin_end bin_label bin_count bin_values].
      rewrite length_push.
      repeat split; [exact Hs|exact He|exact Hl|now rewrite Hc|].
      intros v Hin. apply in_app_or in Hin as [Hin|[<-|[]]]; [now apply Hv|].
      exists q. split; [reflexivity|]. rewrite Hidx. unfold ofNat.
      now rewrite Ha1, Z2Nat.id by lia.
    + apply Hbin, Hz.
  - rewrite <- Hperm, !map_app, !concat_app. cbn [map List.concat bin_values].
    unfold push. rewrite <- !app_assoc.
    do 2 apply Permutation_app_head. cbn [app].
    apply Permutation_cons_append.
Qed.

Lemma fold_populate_binned (qs : list Q) :
  (forall q, In q qs -> lo <= q) ->
  forall bins counted,
    Binned lo w binCount bins counted ->
    exists bins',
      fold_left (populate (Fin lo) (Fin w) binCount) (map Fin qs) (Ok bins)
      = Ok bins'
      /\ Binned lo w binCount bins' (counted ++ map Fin qs).
Proof.
  induction qs as [|q qs IH]; intros Hqs bins counted Hb; cbn [map fold_left].
  - exists bins. now rewrite app_nil_r.
  - destruct (populate_binned bins counted q (Hqs q (or_introl eq_refl)) Hb)
      as (bins1 & -> & Hb1).
    destruct (IH (fun x Hx => Hqs x (or_intror Hx)) bins1 _ Hb1)
      as (bins' & -> & Hb').
    exists bins'. split; [reflexivity|]. now rewrite <- app_assoc in Hb'.
Qed.

(** The greatest value has the last index when the width is a normal
    double and the bins are no more than 2^32. *)
Lemma binIndexOf_greatest (hi q : Q) :
  fdiv (fsub (Fin hi) (Fin lo)) (ofZ binCount) = Fin w ->
  2 ^ (-1022) <= w -> (binCount <= 2 ^ 32)%Z -> q == hi ->
  binIndexOf (Fin lo) (Fin w) binCount (Fin q) = ofZ (binCount - 1).
Proof.
  intros Hwidth Hnormal Hmany E.
  assert (Hb : (inject_Z binCount ?= 0)%Q = Gt).
  { apply Qcompare_pos. rewrite <- (Zlt_Qlt 0). lia. }
  unfold binIndexOf.
  assert (Es : fsub (Fin q) (Fin lo) = fsub (Fin hi) (Fin lo)).
  { unfold fsub. cbn [sub add neg F64.rounded]. apply round_comp.
    now rewrite E. }
  rewrite Es. clear Es.
  destruct (fsub (Fin hi) (Fin lo)) as [d| | |] eqn:Ed;
    unfold fdiv, ofZ in Hwidth; cbn [div] in Hwidth; rewrite ?Hb in Hwidth;
    try discriminate.
  cbn [F64.rounded] in Hwidth.
  pose proof (width_fits d w binCount (conj bins_positive Hmany) Hwidth Hnormal)
    as Hfit.
  assert (Hquot : inject_Z (binCount - 1) <= d / w)
    by (apply Qle_shift_div_l; assumption).
  unfold fdiv. cbn [div]. rewrite (Qcompare_pos w width_positive).
  cbn [F64.rounded].
  pose proof (round_mono _ _ Hquot) as Hm.
  destruct (round_Z (binCount - 1)) as (r & Er & Hr).
  { assert (2 ^ 32 < 2 ^ 53)%Z by (apply Z.pow_lt_mono_r; lia). lia. }
  rewrite Er in Hm.
  destruct (F64.round (d / w)) as [e| | |]; cbn [nle] in Hm; try easy.
  cbn [floor]. unfold min2, ofZ.
  destruct (Qle_bool (inject_Z (Qfloor e)) (inject_Z (binCount - 1))) eqn:C;
    [|reflexivity].
  apply Qle_bool_iff in C. rewrite <- Zle_Qle in C.
  assert (binCount - 1 <= Qfloor e)%Z by (apply Qfloor_above; lra).
  do 2 f_equal. lia.
Qed.

End SpreadData.

(** When the width the code computes is a positive double, the bins are
    [binCount] bins from the least value on, with the bounds and the
    labels of the doubles; every value is counted once, in the bin of its
    index; the values of a lower bin are below those of a higher one; the
    least value is counted in the first bin, and, when the width is a
    normal double and the bins are no more than 2^32, the greatest in the
    last. *)
Theorem createHistogramBins_spread_data
        (q0 : Q) (qs : list Q) (binCount : Z) (w : Q) :
  let data := map Fin (q0 :: qs) in
  let lo := Qleast q0 qs in
  let hi := Qgreatest q0 qs in
  (1 <= binCount)%Z ->
  fdiv (fsub (Fin hi) (Fin lo)) (ofZ binCount) = Fin w ->
  0 < w ->
  exists bins,
    createHistogramBins data binCount = Ok bins
    /\ List.length bins = Z.to_nat binCount
    /\ (forall i b, nth_error bins i = Some b ->
          bin_start b = fadd (Fin lo) (fmul (ofNat i) (Fin w))
          /\ bin_end b = fadd (bin_start b) (Fin w)
          /\ bin_label b
             = (toFixed (bin_start b) 1 ++ "-" ++ toFixed (bin_end b) 1)%string
          /\ bin_count b = List.length (bin_values b))
    /\ Permutation (List.concat (map bin_values bins)) data
    /\ (forall i b q, nth_error bins i = Some b -> In (Fin q) (bin_values b) ->
          binIndexOf (Fin lo) (Fin w) binCount (Fin q) = ofNat i)
    /\ (forall i j a b x y,
          nth_error bins i = Some a -> nth_error bins j = Some b ->
          In (Fin x) (bin_values a) -> In (Fin y) (bin_values b) ->
          (i < j)%nat -> x < y)
    /\ (forall q, In q (q0 :: qs) -> q == lo ->
          exists b, nth_error bins 0 = Some b /\ In (Fin q) (bin_values b))
    /\ (2 ^ (-1022) <= w -> (binCount <= 2 ^ 32)%Z ->
        forall q, In q (q0 :: qs) -> q == hi ->
          exists b, nth_error bins (Z.to_nat (binCount - 1)) = Some b
                    /\ In (Fin q) (bin_values b)).
Proof.
  intros data lo hi Hbins Hwidth Hw.
  assert (Hdata : forall q, In q (q0 :: qs) -> lo <= q <= hi)
    by (intros q Hq; split; [now apply Qleast_le|now apply Qgreatest_ge]).
  destruct (fold_populate_binned lo w binCount Hw Hbins (q0 :: qs)
              (fun q Hq => proj1 (Hdata q Hq)) _ []
              (emptyBins_binned lo w binCount))
    as (bins & Hfold & Hlen & Hbin & Hperm).
  cbn [app] in Hperm. fold data in Hperm.
  assert (Hin : forall i b q, nth_error bins i = Some b -> In (Fin q) (bin_values b) ->
                  In q (q0 :: qs)
                  /\ binIndexOf (Fin lo) (Fin w) binCount (Fin q) = ofNat i).
  { intros i b q Hb Hq. destruct (Hbin i b Hb) as (_ & _ & _ & _ & Hv).
    destruct (Hv _ Hq) as (q' & [= <-] & Hi). split; [|exact Hi].
    assert (Hd : In (Fin q) data).
    { apply (Permutation_in _ Hperm), in_concat. exists (bin_values b).
      split; [|exact Hq]. apply in_map. eapply nth_error_In, Hb. }
    apply in_map_iff in Hd as (q' & [= ->] & Hd). exact Hd. }
  assert (Hfind : forall q k, In q (q0 :: qs) ->
            binIndexOf (Fin lo) (Fin w) binCount (Fin q) = ofZ k ->
            exists b, nth_error bins (Z.to_nat k) = Some b
                      /\ In (Fin q) (bin_values b)).
  { intros q k Hq Hk.
    assert (Hd : In (Fin q) data) by now apply in_map.
    apply (Permutation_in _ (Permutation_sym Hperm)), in_concat in Hd.
    destruct Hd as (vs & Hvs & Hqv).
    apply in_map_iff in Hvs as (b & <- & Hb).
    apply In_nth_error in Hb as [i Hb].
    destruct (Hin i b q Hb Hqv) as [_ Hi].
    rewrite Hk in Hi. apply ofZ_inj in Hi. subst k.
    rewrite Nat2Z.id. eauto. }
  exists bins.
  split; [|split; [exact Hlen|split; [|split; [exact Hperm|split; [|split; [|split]]]]]].
  - unfold createHistogramBins, data. cbn [map]. cbv iota.
    change (Fin q0 :: map Fin qs) with (map Fin (q0 :: qs)).
    rewrite Math_min_Fin, Math_max_Fin. fold lo hi.
    rewrite Hwidth. exact Hfold.
  - intros i b Hb. destruct (Hbin i b Hb) as (Hs & He & Hl & Hc & _).
    repeat split; assumption.
  - intros i b q Hb Hq. apply (Hin i b q Hb Hq).
  - intros i j a b x y Ha Hb Hx Hy Hij.
    destruct (Hin i a x Ha Hx) as [Hdx Hix].
    destruct (Hin j b y Hb Hy) as [Hdy Hjy].
    destruct (Qlt_le_dec x y) as [Hlt|Hle]; [exact Hlt|exfalso].
    pose proof (binIndexOf_mono lo w binCount y x Hw Hle) as Hm.
    rewrite Hix, Hjy in Hm. unfold ofNat, ofZ in Hm. cbn [nle] in Hm.
    rewrite <- Zle_Qle in Hm. lia.
  - intros q Hq Hlo.
    apply (Hfind q 0%Z Hq).
    apply (binIndexOf_least lo w binCount q Hw Hbins Hlo).
  - intros Hnormal Hmany q Hq Hhi.
    apply (Hfind q (binCount - 1)%Z Hq).
    apply (binIndexOf_greatest lo w binCount Hw Hbins hi q Hwidth Hnormal Hmany Hhi).
Qed.

Lemma createHistogramBins_spread_data_witness :
  exists bins,
    createHistogramBins (map Fin [0; 9; 18]) 14 = Ok bins
    /\ List.length bins = 14%nat
    /\ Permutation (List.concat (map bin_values bins)) (map Fin [0; 9; 18])
    /\ (exists b, nth_error bins 0 = Some b /\ In (Fin 0) (bin_values b))
    /\ (exists b, nth_error bins 13 = Some b /\ In (Fin 18) (bin_values b)).
Proof.
  assert (Hbins : (1 <= 14)%Z) by lia.
  assert (Hwidth : fdiv (fsub (Fin (Qgreatest 0 [9; 18])) (Fin (Qleast 0 [9; 18])))
                        (ofZ 14)
                   = Fin (5790342378047781 # 4503599627370496))
    by (vm_compute; reflexivity).
  assert (Hw : 0 < 5790342378047781 # 4503599627370496) by reflexivity.
  destruct (createHistogramBins_spread_data 0 [9; 18] 14 _ Hbins Hwidth Hw)
    as (bins & Hok & Hlen & _ & Hperm & _ & _ & Hleast & Hgreatest).
  exists bins. split; [exact Hok|]. split; [exact Hlen|]. split; [exact Hperm|].
  split.
  - apply Hleast; [now left|reflexivity].
  - apply Hgreatest.
    + apply Qle_bool_iff. vm_compute. reflexivity.
    + apply Z.leb_le. vm_compute. reflexivity.
    + right. right. now left.
    + reflexivity.
Defined.

(** In doubles the bounds of the bins are not those of the rationals: of
    six bins from 0 to 1 the last ends below 1, at 0.9999999999999999. *)
Example createHistogramBins_last_bin_ends_below_maximum :
  exists bins b,
    createHistogramBins [ofZ 0; ofZ 1] 6 = Ok bins
    /\ nth_error bins 5 = Some b
    /\ bin_end b = Fin (9007199254740991 # 9007199254740992)
    /\ bin_label b = "0.8-1.0".
Proof. do 2 eexists. vm_compute. repeat split. Qed.

(** Nor is the index that of the rationals: of 14 bins from 0 to 18 the
    value 9 is the lower bound of the bin 7 in the rationals, and is
    counted in the bin 6. *)
Example createHistogramBins_counts_below :
  Qfloor ((9 - 0) / ((18 - 0) / 14)) = 7%Z
  /\ binIndexOf (ofZ 0) (fdiv (fsub (ofZ 18) (ofZ 0)) (ofZ 14)) 14 (ofZ 9)
     = ofZ 6.
Proof. split; vm_compute; reflexivity. Qed.

(** A width below the normal doubles: of 10 bins from 0 to 16 times the
    least double, the greatest value is counted in the bin 8, not in the
    last one. *)
Example createHistogramBins_subnormal_width :
  binIndexOf (Fin 0)
             (fdiv (fsub (Fin (16 * leastDouble)) (Fin 0)) (ofZ 10)) 10
             (Fin (16 * leastDouble))
  = ofZ 8.
Proof. vm_compute. reflexivity. Qed.

(** A width that rounds to 0: four bins from 0 to the least double have
    no width, and the first value throws. *)
Example createHistogramBins_width_underflow :
  createHistogramBins [Fin 0; Fin leastDouble] 4 = Throw TypeError.
Proof. vm_compute. reflexivity. Qed.

Example createHistogramBins_labels :
  exists bins,
    createHistogramBins [ofZ 0; ofZ 10] 2 = Ok bins
    /\ map bin_label bins = ["0.0-5.0"; "5.0-10.0"]
    /\ map bin_count bins = [1; 1]%nat.
Proof. eexists. vm_compute. repeat split. Qed.

(** ** The batch of files *)

(** C1, the failing inputs: the file metrics are taken from the queries,
    the WAL applies and the system events only.  A file whose only record
    is a WAL commit gets no metadata entry although its record is merged;
    a file with a query at 2000 ms and a WAL commit at 1000 ms gets the
    start time 2000 ms and the record count 1. *)
Theorem fileMetadata_overlooks_walCommits (newDate : string -> Date) :
  (let st := ingest newDate [ {| file_name := "a.log"; file_text := walCommitLine |} ] in
   map walCommit_timestamp (walCommits (allResults st))
   = [newDate "2025-09-03T13:24:10.000000Z"]
   /\ fileMetadata st = [])
  /\ (let st := processFiles TextFile file_name (fun f => Ok (file_text f))
                  (fun _ _ => Ok queryAndCommit)
                  [ {| file_name := "a.log"; file_text := "" |} ] in
      walCommits (allResults st) = walCommits queryAndCommit
      /\ fileMetadata st
         = [ {| fileName := "a.log";
                meta_startTime := Some (ValidDate 2000);
                meta_endTime := Some (ValidDate 2000);
                recordCount := 1 |} ]).
Proof. split; split; vm_compute; reflexivity. Qed.

Lemma merge_empty_l (r : ParseResult) : merge emptyResult r = r.
Proof. destruct r; reflexivity. Qed.

Lemma merge_empty_r (r : ParseResult) : merge r emptyResult = r.
Proof. destruct r; unfold merge; cbn; now rewrite !app_nil_r. Qed.

Lemma merge_assoc (a b c : ParseResult) :
  merge (merge a b) c = merge a (merge b c).
Proof. unfold merge; cbn. now rewrite !app_assoc. Qed.

Lemma appendState_empty_r (a : BatchState) : appendState a emptyState = a.
Proof.
  destruct a; unfold appendState; cbn. now rewrite merge_empty_r, !app_nil_r.
Qed.

Lemma appendState_assoc (a b c : BatchState) :
  appendState (appendState a b) c = appendState a (appendState b c).
Proof. unfold appendState; cbn. now rewrite merge_assoc, !app_assoc. Qed.

Section FileHandlerFacts.
Variable File : Type.
Variable name : File -> string.
Variable readFile : File -> Result string.
Variable logParser : string -> string -> Result ParseResult.

Local Abbreviation fileStep := (processFile File name readFile logParser).
Local Abbreviation batch := (processFiles File name readFile logParser).

(** What a file does to the state does not depend on the state. *)
Lemma processFile_appendState (st : BatchState) (file : File) :
  fileStep st file = appendState st (fileStep emptyState file).
Proof.
  unfold processFile, appendState, push.
  destruct (readFile file) as [content|e]; cbn.
  - destruct (logParser content (name file)) as [r|e]; cbn.
    + rewrite merge_empty_l, app_nil_r.
      destruct (List.length (allTimestamps r)); now rewrite ?app_nil_r.
    + now rewrite merge_empty_r, app_nil_r.
  - now rewrite merge_empty_r, app_nil_r.
Qed.

Lemma fold_processFile (files : list File) :
  forall st, fold_left fileStep files st = appendState st (batch files).
Proof.
  unfold processFiles. fold emptyState.
  induction files as [|f files IH]; intros st; cbn [fold_left].
  - now rewrite appendState_empty_r.
  - rewrite IH, (IH (fileStep emptyState f)), <- appendState_assoc.
    now rewrite <- processFile_appendState.
Qed.

Lemma processFiles_app (pre post : list File) :
  batch (pre ++ post) = appendState (batch pre) (batch post).
Proof.
  unfold processFiles at 1. rewrite fold_left_app.
  apply fold_processFile.
Qed.

Lemma processFiles_cons (file : File) (post : list File) :
  batch (file :: post)
  = appendState (fileStep emptyState file) (batch post).
Proof. apply (fold_processFile post). Qed.

Lemma length_allTimestamps (r : ParseResult) :
  List.length (allTimestamps r)
  = (List.length (queries r) + List.length (walJobs r)
     + List.length (systemEvents r))%nat.
Proof.
  unfold allTimestamps.
  assert (E : forall l : list Date, filter truthy l = l)
    by (induction l; cbn; congruence).
  rewrite E, !length_app, !length_map. lia.
Qed.

(** The metadata of a file that is read and parsed: none when it has no
    query, WAL apply or system event, and their number otherwise. *)
Lemma processFile_metadata (st : BatchState) (file : File)
      (content : string) (r : ParseResult) :
  readFile file = Ok content ->
  logParser content (name file) = Ok r ->
  let n := (List.length (queries r) + List.length (walJobs r)
            + List.length (systemEvents r))%nat in
  (n = 0%nat -> fileMetadata (fileStep st file) = fileMetadata st)
  /\ (n <> 0%nat ->
      exists m, fileMetadata (fileStep st file) = fileMetadata st ++ [m]
                /\ fileName m = name file /\ recordCount m = n).
Proof.
  intros Hr Hp n. unfold processFile. rewrite Hr, Hp.
  cbn [fileMetadata]. rewrite length_allTimestamps. fold n.
  split; intros Hn.
  - now rewrite Hn.
  - destruct n as [|n']; [congruence|]. cbn [Nat.ltb Nat.leb].
    eexists. split; [reflexivity|]. split; reflexivity.
Qed.

(** C5: when reading or parsing one file of a batch throws, the files
    before it and after it are ingested and merged as if the failing file
    were not in the batch, nothing of the failing file reaches the merged
    collections or the metadata, and the message
    ["Failed to process <file>: <message>"] is handed to [showError],
    between those of the files before and those of the files after. *)
Theorem processFiles_isolates_failure
        (pre post : list File) (bad : File) (error : Error) :
  (readFile bad = Throw error
   \/ exists content, readFile bad = Ok content
                      /\ logParser content (name bad) = Throw error) ->
  let st := batch (pre ++ bad :: post) in
  allResults st = allResults (batch (pre ++ post))
  /\ allResults st
     = merge (allResults (batch pre)) (allResults (batch post))
  /\ fileMetadata st = fileMetadata (batch (pre ++ post))
  /\ errors st
     = errors (batch pre)
       ++ createErrorMessage (name bad) error :: errors (batch post)
  /\ createErrorMessage (name bad) error
     = ("Failed to process " ++ name bad ++ ": " ++ errorMessage error)%string.
Proof.
  intros Hfail st.
  assert (Hbad : fileStep emptyState bad
                 = {| allResults := emptyResult; fileMetadata := [];
                      errors := [createErrorMessage (name bad) error] |}).
  { unfold processFile.
    destruct Hfail as [Hr | (content & Hr & Hp)]; rewrite Hr; [|rewrite Hp];
      reflexivity. }
  subst st. rewrite !processFiles_app, processFiles_cons, Hbad.
  unfold appendState; cbn. rewrite merge_empty_l.
  repeat split; reflexivity.
Qed.

End FileHandlerFacts.

Lemma processFiles_isolates_failure_witness :
  let good1 := {| file_name := "a.log"; file_text := sampleQueryLine |} in
  let bad := {| file_name := "bad.log"; file_text := "corrupt" |} in
  let good2 := {| file_name := "b.log"; file_text := walCommitLine |} in
  let st := processFiles TextFile file_name (fun f => Ok (file_text f))
              failingParser [good1; bad; good2] in
  List.length (queries (allResults st)) = 1%nat
  /\ List.length (walCommits (allResults st)) = 1%nat
  /\ errors st = ["Failed to process bad.log: Parse failed"].
Proof.
  intros good1 bad good2 st.
  pose proof (processFiles_isolates_failure TextFile file_name
                (fun f => Ok (file_text f)) failingParser
                [good1] [good2] bad
                {| errorName := "Error"; errorMessage := "Parse failed" |}
                (or_intror (ex_intro _ "corrupt" (conj eq_refl eq_refl)))) as H.
  cbv zeta in H. destruct H as (Hres & _ & _ & Herr & _).
  change ([good1] ++ bad :: [good2]) with [good1; bad; good2] in Hres, Herr.
  fold st in Hres, Herr.
  split; [rewrite Hres; vm_compute; reflexivity|].
  split; [rewrite Hres; vm_compute; reflexivity|].
  rewrite Herr. vm_compute. reflexivity.
Defined.

(** ** Time buckets *)

Section SortFacts.
Context {A : Type} (gt : A -> A -> bool).

Lemma insertSorted_perm (x : A) (l : list A) :
  Permutation (insertSorted gt x l) (x :: l).
Proof.
  induction l as [|y l IH]; cbn [insertSorted]; [reflexivity|].
  destruct (gt x y); [|reflexivity].
  rewrite IH. apply perm_swap.
Qed.

Lemma sort_perm (l : list A) : Permutation (sort gt l) l.
Proof.
  induction l as [|x l IH]; cbn [sort]; [reflexivity|].
  now rewrite insertSorted_perm, IH.
Qed.

(** The order a comparator reads from an integer key. *)
Variable f : A -> Z.
Local Abbreviation le_f := (fun a b : A => (f a <= f b)%Z).

Lemma insertSorted_sorted (x : A) (l : list A) :
  (forall y, In y l -> gt x y = (f x >? f y)%Z) ->
  StronglySorted le_f l ->
  StronglySorted le_f (insertSorted gt x l).
Proof.
  induction l as [|y l IH]; intros Hgt Hs; cbn [insertSorted].
  - repeat constructor.
  - apply StronglySorted_inv in Hs as [Hs Hy].
    rewrite (Hgt y (or_introl eq_refl)).
    destruct (f x >? f y)%Z eqn:E.
    + constructor.
      * apply IH; [|exact Hs]. intros z Hz. apply Hgt. now right.
      * apply Forall_forall. intros z Hz.
        apply (Permutation_in _ (insertSorted_perm x l)) in Hz.
        destruct Hz as [<-|Hz]; [lia|].
        rewrite Forall_forall in Hy. now apply Hy.
    + constructor; [now constructor|].
      constructor; [lia|].
      rewrite Forall_forall in Hy |- *. intros z Hz.
      specialize (Hy z Hz). cbv beta in Hy. lia.
Qed.

Lemma sort_sorted (l : list A) :
  (forall a b, In a l -> In b l -> gt a b = (f a >? f b)%Z) ->
  StronglySorted le_f (sort gt l).
Proof.
  induction l as [|x l IH]; intros Hgt; cbn [sort]; [constructor|].
  apply insertSorted_sorted.
  - intros y Hy. apply (Permutation_in _ (sort_perm l)) in Hy.
    apply Hgt; [now left|now right].
  - apply IH. intros a b Ha Hb. apply Hgt; now right.
Qed.

Lemma sorted_strict (l : list A) :
  StronglySorted le_f l -> NoDup (map f l) ->
  StronglySorted (fun a b => (f a < f b)%Z) l.
Proof.
  induction l as [|x l IH]; intros Hs Hnd; [constructor|].
  apply StronglySorted_inv in Hs as [Hs Hx].
  cbn [map] in Hnd. apply NoDup_cons_iff in Hnd as [Hnin Hnd].
  constructor; [now apply IH|].
  rewrite Forall_forall in Hx |- *. intros y Hy.
  specialize (Hx y Hy). cbv beta in Hx.
  assert (f x <> f y) by (intros E; apply Hnin; rewrite E; now apply in_map).
  lia.
Qed.

End SortFacts.

Lemma StronglySorted_weaken {A} (R R' : A -> A -> Prop) (l : list A) :
  (forall a b, In a l -> In b l -> R a b -> R' a b) ->
  StronglySorted R l -> StronglySorted R' l.
Proof.
  induction l as [|x l IH]; intros Hw Hs; [constructor|].
  apply StronglySorted_inv in Hs as [Hs Hx]. constructor.
  - apply IH; [|exact Hs]. intros a b Ha Hb. apply Hw; now right.
  - rewrite Forall_forall in Hx |- *. intros y Hy.
    apply Hw; [now left|now right|now apply Hx].
Qed.

Lemma filter_split_perm {A} (p : A -> bool) (l : list A) :
  Permutation (filter p l ++ filter (fun x => negb (p x)) l) l.
Proof.
  induction l as [|x l IH]; cbn [filter]; [reflexivity|].
  destruct (p x); cbn [negb app].
  - now rewrite IH.
  - now rewrite <- Permutation_middle, IH.
Qed.

Lemma entries_perm {V} (o : Obj.t V) : Permutation (Obj.entries o) o.
Proof.
  unfold Obj.entries. rewrite sort_perm. apply filter_split_perm.
Qed.

Lemma key_eqb_eq (a b : Obj.key) : Obj.key_eqb a b = true <-> a = b.
Proof.
  destruct a as [x|], b as [y|]; cbn; try (split; congruence).
  rewrite Z.eqb_eq. split; congruence.
Qed.

Lemma get_found {V} (o : Obj.t V) (k : Obj.key) (g v : V) :
  Obj.get o k = Some g ->
  exists o1 o2, o = o1 ++ (k, g) :: o2 /\ Obj.set o k v = o1 ++ (k, v) :: o2.
Proof.
  induction o as [|[k' v'] o IH]; cbn [Obj.get Obj.set]; [discriminate|].
  destruct (Obj.key_eqb k' k) eqn:E.
  - intros [= ->]. apply key_eqb_eq in E. subst k'.
    exists [], o. split; reflexivity.
  - intros Hg. destruct (IH Hg) as (o1 & o2 & -> & ->).
    exists ((k', v') :: o1), o2. split; reflexivity.
Qed.

Lemma get_fresh {V} (o : Obj.t V) (k : Obj.key) (v : V) :
  Obj.get o k = None ->
  Obj.set o k v = o ++ [(k, v)] /\ ~ In k (map fst o).
Proof.
  induction o as [|[k' v'] o IH]; cbn [Obj.get Obj.set]; [intros _; split; auto|].
  destruct (Obj.key_eqb k' k) eqn:E; [discriminate|].
  intros Hg. destruct (IH Hg) as [-> Hnin]. split; [reflexivity|].
  cbn [map fst In]. intros [<-|Hin]; [|now apply Hnin].
  assert (Obj.key_eqb k' k' = true) by now apply key_eqb_eq. congruence.
Qed.

Section GroupByIntervalFacts.
Context {A : Type} {TS : Timestamped A} {TM : Timed A}.
Variable intervalMs : Z.

Lemma addItem_grouped (grouped : Obj.t (list A)) (seen : list A) (x : A) :
  Grouped intervalMs grouped seen ->
  Grouped intervalMs (addItem intervalMs grouped x) (seen ++ [x]).
Proof.
  intros (Hnd & Hits & Hperm). unfold addItem.
  set (k := intervalKey intervalMs x).
  destruct (Obj.get grouped k) as [g|] eqn:G.
  - destruct (get_found grouped k g (push g x) G) as (o1 & o2 & E & ->).
    subst grouped. repeat split.
    + rewrite map_app in Hnd |- *. exact Hnd.
    + apply in_app_or in H as [H|[H|H]].
      * apply (Hits k0 its). apply in_or_app. now left.
      * injection H as <- <-. unfold push. now destruct g.
      * apply (Hits k0 its). apply in_or_app. right. now right.
    + intros y Hy. apply in_app_or in H as [H|[H|H]].
      * apply (Hits k0 its); [|exact Hy]. apply in_or_app. now left.
      * injection H as <- <-. apply in_app_or in Hy as [Hy|[<-|[]]]; [|reflexivity].
        apply (Hits k g); [|exact Hy]. apply in_or_app. right. now left.
      * apply (Hits k0 its); [|exact Hy]. apply in_or_app. right. now right.
    + rewrite <- Hperm, !map_app, !concat_app. cbn [map List.concat snd].
      unfold push. rewrite <- !app_assoc.
      do 2 apply Permutation_app_head. cbn [app].
      apply Permutation_cons_append.
  - destruct (get_fresh grouped k (push [] x) G) as [-> Hnin]. repeat split.
    + rewrite map_app. cbn [map fst].
      apply (Permutation_NoDup (Permutation_cons_append _ _)).
      now constructor.
    + apply in_app_or in H as [H|[H|[]]]; [now apply (Hits k0 its)|].
      injection H as <- <-. discriminate.
    + intros y Hy. apply in_app_or in H as [H|[H|[]]].
      * now apply (Hits k0 its).
      * injection H as <- <-. destruct Hy as [<-|[]]. reflexivity.
    + rewrite map_app, concat_app. cbn. rewrite ?app_nil_r.
      now apply Permutation_app_tail.
Qed.

Lemma fold_addItem_grouped (rest : list A) :
  forall grouped seen,
    Grouped intervalMs grouped seen ->
    Grouped intervalMs (fold_left (addItem intervalMs) rest grouped) (seen ++ rest).
Proof.
  induction rest as [|x rest IH]; intros grouped seen Hg; cbn [fold_left].
  - now rewrite app_nil_r.
  - replace (seen ++ x :: rest) with ((seen ++ [x]) ++ rest)
      by now rewrite <- app_assoc.
    apply IH. now apply addItem_grouped.
Qed.

(** The buckets are those of the properties of [grouped], in some
    order. *)
Lemma groupByInterval_grouped (data : list A) :
  exists grouped,
    Grouped intervalMs grouped data
    /\ Permutation (groupByInterval data intervalMs) (map makeBucket grouped).
Proof.
  exists (fold_left (addItem intervalMs) data []). split.
  - apply (fold_addItem_grouped data [] []). repeat split.
    + constructor.
    + destruct H.
    + destruct H.
    + reflexivity.
  - unfold groupByInterval. rewrite sort_perm.
    apply Permutation_map, entries_perm.
Qed.

Hypothesis interval_positive : (0 < intervalMs)%Z.

Lemma intervalKey_valid (x : A) (t : Z) :
  timestamp x = ValidDate t ->
  intervalKey intervalMs x = Some (t / intervalMs * intervalMs)%Z.
Proof.
  intros Ht. unfold intervalKey. rewrite Ht. cbn [getTime].
  destruct (intervalMs =? 0)%Z eqn:E; [|reflexivity].
  apply Z.eqb_eq in E. lia.
Qed.

Variable data : list A.
Hypothesis data_valid : forall x, In x data -> timestamp x <> InvalidDate.

Lemma grouped_entry (grouped : Obj.t (list A)) (k : Obj.key) (its : list A) :
  Grouped intervalMs grouped data ->
  In (k, its) grouped ->
  (exists z, k = Some z)
  /\ forall x, In x its ->
       In x data
       /\ exists t, timestamp x = ValidDate t
                    /\ k = Some (t / intervalMs * intervalMs)%Z.
Proof.
  intros (Hnd & Hits & Hperm) Hin.
  destruct (Hits k its Hin) as [Hne Hkey].
  assert (Hx : forall x, In x its ->
             In x data
             /\ exists t, timestamp x = ValidDate t
                          /\ k = Some (t / intervalMs * intervalMs)%Z).
  { intros x Hxin.
    assert (Hd : In x data).
    { apply (Permutation_in _ Hperm). apply in_concat.
      exists its. split; [|exact Hxin].
      change its with (snd (k, its)). now apply in_map. }
    split; [exact Hd|].
    destruct (timestamp x) as [t|] eqn:Ht; [|now destruct (data_valid x Hd)].
    exists t. split; [reflexivity|].
    rewrite <- (Hkey x Hxin). now apply intervalKey_valid. }
  split; [|exact Hx].
  destruct its as [|x its]; [congruence|].
  destruct (Hx x (or_introl eq_refl)) as (_ & t & _ & ->). eauto.
Qed.

Lemma bucket_gt_valid (a b : TimeBucket A) (x y : Z) :
  bucket_timestamp a = ValidDate x -> bucket_timestamp b = ValidDate y ->
  bucket_gt a b = (bucketTime a >? bucketTime b)%Z.
Proof.
  intros Ha Hb. unfold bucket_gt, bucketTime, dateDiff. rewrite Ha, Hb.
  cbn [getTime]. rewrite !Z.gtb_ltb.
  destruct (Z.ltb_spec 0 (x - y)), (Z.ltb_spec y x); reflexivity || lia.
Qed.

End GroupByIntervalFacts.

Section ThreeRecords.
Context {A : Type} {TS : Timestamped A} {TM : Timed A}.
Variables (origin : Z) (x1 x2 x3 : A).
Hypothesis origin_phase : (origin mod 1000 < 500 \/ 900 <= origin mod 1000)%Z.
Hypothesis stamp1 : timestamp x1 = ValidDate (origin + 100).
Hypothesis stamp2 : timestamp x2 = ValidDate (origin + 500).
Hypothesis stamp3 : timestamp x3 = ValidDate (origin + 1100).

Local Abbreviation k := ((origin + 100) / 1000 * 1000)%Z.

Lemma three_records_grouped :
  fold_left (addItem 1000) [x1; x2; x3] []
  = [(Some k, [x1; x2]); (Some (k + 1000)%Z, [x3])].
Proof.
  assert (K1 : intervalKey 1000 x1 = Some k)
    by (apply intervalKey_valid; [lia|exact stamp1]).
  assert (K2 : intervalKey 1000 x2 = Some k).
  { rewrite (intervalKey_valid 1000 ltac:(lia) x2 _ stamp2).
    f_equal. f_equal. clear - origin_phase.
    Z.div_mod_to_equations. lia. }
  assert (K3 : intervalKey 1000 x3 = Some (k + 1000)%Z).
  { rewrite (intervalKey_valid 1000 ltac:(lia) x3 _ stamp3).
    f_equal. clear - origin_phase.
    Z.div_mod_to_equations. lia. }
  assert (Heq : (k =? k + 1000)%Z = false) by (apply Z.eqb_neq; lia).
  cbn [fold_left]. unfold addItem. rewrite K1, K2, K3.
  cbn [Obj.get Obj.set Obj.key_eqb push app].
  rewrite Z.eqb_refl. cbn [Obj.get Obj.set Obj.key_eqb push app].
  rewrite Heq. reflexivity.
Qed.

Lemma three_records_two_buckets :
  groupByInterval [x1; x2; x3] 1000
  = [makeBucket (Some k, [x1; x2]); makeBucket (Some (k + 1000)%Z, [x3])].
Proof.
  unfold groupByInterval. rewrite three_records_grouped.
  assert (Hgt : (k >? k + 1000)%Z = false)
    by (rewrite Z.gtb_ltb; apply Z.ltb_ge; lia).
  assert (Hd1 : (k - (k + 1000) >? 0)%Z = false)
    by (rewrite Z.gtb_ltb; apply Z.ltb_ge; lia).
  assert (Hd2 : (k + 1000 - k >? 0)%Z = true)
    by (rewrite Z.gtb_ltb; apply Z.ltb_lt; lia).
  assert (B12 : bucket_gt (makeBucket (Some k, [x1; x2]))
                          (makeBucket (Some (k + 1000)%Z, [x3])) = false)
    by (unfold bucket_gt, dateDiff; cbn [makeBucket bucket_timestamp dateOfTime getTime];
        exact Hd1).
  assert (B21 : bucket_gt (makeBucket (Some (k + 1000)%Z, [x3]))
                          (makeBucket (Some k, [x1; x2])) = true)
    by (unfold bucket_gt, dateDiff; cbn [makeBucket bucket_timestamp dateOfTime getTime];
        exact Hd2).
  unfold Obj.entries. cbn [filter fst].
  destruct (Obj.isArrayIndex (Some k)), (Obj.isArrayIndex (Some (k + 1000)%Z));
    cbn [negb sort insertSorted app map];
    unfold Obj.key_gt; cbn [fst]; rewrite ?Hgt;
    cbn [sort insertSorted app map]; rewrite ?B12, ?B21; reflexivity.
Qed.

End ThreeRecords.

(** C8, counterexample: with the origin at 500 ms the three records fall
    at 600 ms, 1000 ms and 1600 ms; the first of the two buckets holds one
    item, not two. *)
Lemma groupByInterval_origin_off_boundary :
  map timestamp offOriginQueries
  = [ValidDate (500 + 100); ValidDate (500 + 500); ValidDate (500 + 1100)]
  /\ map count (groupByInterval offOriginQueries 1000) = [1; 2]%nat
  /\ ~ (exists b1 b2, groupByInterval offOriginQueries 1000 = [b1; b2]
                      /\ List.length (items b1) = 2%nat).
Proof.
  split; [reflexivity|]. split; [vm_compute; reflexivity|].
  intros (b1 & b2 & E & Hlen).
  assert (H : map (fun b => List.length (items b))
                  (groupByInterval offOriginQueries 1000) = [1; 2]%nat)
    by (vm_compute; reflexivity).
  rewrite E in H. cbn [map] in H. injection H as H _. lia.
Qed.

(** C8, as amended: for a positive interval and records with valid dates,
    [groupByInterval] puts each record, once, in the bucket that starts at
    [floor(timestamp / intervalMs) * intervalMs], returns the buckets in
    strictly ascending order of their start, and gives each bucket the
    mean and the maximum of the [executionTimeMs] of its items and their
    number.  Three records 100 ms, 500 ms and 1100 ms after an origin
    whose phase within the second is below 500 ms or at least 900 ms (a
    whole second, for one) make, with the interval 1000 ms, two buckets,
    the first with the first two records and the mean of their
    [executionTimeMs]. *)
Theorem groupByInterval_buckets
        {A : Type} {TS : Timestamped A} {TM : Timed A}
        (data : list A) (intervalMs origin : Z) (x1 x2 x3 : A) :
  (0 < intervalMs)%Z ->
  (forall x, In x data -> timestamp x <> InvalidDate) ->
  (origin mod 1000 < 500 \/ 900 <= origin mod 1000)%Z ->
  timestamp x1 = ValidDate (origin + 100) ->
  timestamp x2 = ValidDate (origin + 500) ->
  timestamp x3 = ValidDate (origin + 1100) ->
  let buckets := groupByInterval data intervalMs in
  (forall b x, In b buckets -> In x (items b) ->
     exists t, timestamp x = ValidDate t
               /\ bucket_timestamp b = ValidDate (t / intervalMs * intervalMs))
  /\ Permutation (List.concat (map items buckets)) data
  /\ StronglySorted
       (fun a b => Date_lt (bucket_timestamp a) (bucket_timestamp b)) buckets
  /\ (forall b, In b buckets ->
        items b <> []
        /\ avgTime b = div (sum (map executionTimeMs (items b)))
                           (ofNat (List.length (items b)))
        /\ maxTime b = Math_max (map executionTimeMs (items b))
        /\ count b = List.length (items b))
  /\ (exists b1 b2,
        groupByInterval [x1; x2; x3] 1000 = [b1; b2]
        /\ items b1 = [x1; x2]
        /\ count b1 = 2%nat
        /\ avgTime b1 = div (sum [executionTimeMs x1; executionTimeMs x2]) (ofZ 2)
        /\ items b2 = [x3]).
Proof.
  intros Hpos Hvalid Hphase Hx1 Hx2 Hx3 buckets.
  set (grouped := fold_left (addItem intervalMs) data []).
  assert (Hg : Grouped intervalMs grouped data).
  { apply (fold_addItem_grouped intervalMs data [] []). repeat split.
    - constructor.
    - destruct H.
    - destruct H.
    - reflexivity. }
  assert (Hperm : Permutation buckets (map makeBucket grouped)).
  { subst buckets. unfold groupByInterval. fold grouped.
    rewrite sort_perm. apply Permutation_map, entries_perm. }
  assert (Hbucket : forall b, In b buckets ->
            exists z its, In (Some z, its) grouped /\ b = makeBucket (Some z, its)).
  { intros b Hb. apply (Permutation_in _ Hperm) in Hb.
    apply in_map_iff in Hb as ([k its] & <- & Hin).
    destruct (grouped_entry intervalMs Hpos data Hvalid grouped k its Hg Hin)
      as [[z ->] _]. eauto. }
  split; [|split; [|split; [|split]]].
  - intros b x Hb Hx. destruct (Hbucket b Hb) as (z & its & Hin & ->).
    destruct (grouped_entry intervalMs Hpos data Hvalid grouped _ its Hg Hin)
      as [_ Hits].
    destruct (Hits x Hx) as (_ & t & Ht & Hk). exists t. split; [exact Ht|].
    cbn [makeBucket bucket_timestamp]. now rewrite Hk.
  - rewrite <- flat_map_concat_map, Hperm, flat_map_concat_map, map_map.
    destruct Hg as (_ & _ & Hp). rewrite <- Hp.
    erewrite map_ext; [reflexivity|]. now intros [k its].
  - assert (Hvalidb : forall b, In b buckets ->
              bucket_timestamp b = ValidDate (bucketTime b)).
    { intros b Hb. destruct (Hbucket b Hb) as (z & its & _ & ->). reflexivity. }
    apply (StronglySorted_weaken
             (fun a b => (bucketTime a < bucketTime b)%Z)).
    { intros a b Ha Hb Hlt. rewrite (Hvalidb a Ha), (Hvalidb b Hb). exact Hlt. }
    apply sorted_strict.
    + subst buckets. unfold groupByInterval. apply sort_sorted.
      intros a b Ha Hb.
      assert (Hin : forall c, In c (map makeBucket (Obj.entries
                       (fold_left (addItem intervalMs) data []))) ->
                    In c (groupByInterval data intervalMs)).
      { intros c Hc. unfold groupByInterval.
        apply (Permutation_in _ (Permutation_sym (sort_perm _ _))). exact Hc. }
      apply (bucket_gt_valid a b (bucketTime a) (bucketTime b));
        apply Hvalidb; now apply Hin.
    + apply (Permutation_NoDup (Permutation_sym (Permutation_map bucketTime Hperm))).
      rewrite map_map.
      assert (E : map (fun e => bucketTime (makeBucket e)) grouped
                  = map (fun k : Obj.key => match k with Some z => z | None => 0%Z end)
                        (map fst grouped))
        by (rewrite map_map; apply map_ext; now intros [[z|] its]).
      rewrite E. destruct Hg as (Hnd & Hits & Hp).
      apply NoDup_map_NoDup_ForallPairs; [|exact Hnd].
      intros k1 k2 H1 H2 Heq.
      apply in_map_iff in H1 as ([k1' its1] & <- & H1).
      apply in_map_iff in H2 as ([k2' its2] & <- & H2).
      destruct (grouped_entry intervalMs Hpos data Hvalid grouped k1' its1
                  (conj Hnd (conj Hits Hp)) H1) as [[z1 ->] _].
      destruct (grouped_entry intervalMs Hpos data Hvalid grouped k2' its2
                  (conj Hnd (conj Hits Hp)) H2) as [[z2 ->] _].
      cbn in Heq |- *. congruence.
  - intros b Hb. destruct (Hbucket b Hb) as (z & its & Hin & ->).
    destruct Hg as (_ & Hits & _). destruct (Hits _ _ Hin) as [Hne _].
    cbn [makeBucket items avgTime maxTime count]. auto.
  - rewrite (three_records_two_buckets origin x1 x2 x3 Hphase Hx1 Hx2 Hx3).
    do 2 eexists. split; [reflexivity|].
    cbn [makeBucket items avgTime maxTime count map List.length].
    repeat split; reflexivity.
Qed.

Lemma groupByInterval_buckets_witness :
  let data := [queryAt 1735732801100 30; queryAt 1735732800100 10;
               queryAt 1735732800500 20] in
  map (fun b => (bucket_timestamp b, count b, avgTime b, maxTime b))
      (groupByInterval data 1000)
  = [(ValidDate 1735732800000, 2%nat, Fin (30 # 2), Fin 20);
     (ValidDate 1735732801000, 1%nat, Fin 30, Fin 30)]
  /\ exists b1 b2,
       groupByInterval [queryAt 1735732800100 10; queryAt 1735732800500 20;
                        queryAt 1735732801100 30] 1000 = [b1; b2]
       /\ items b1 = [queryAt 1735732800100 10; queryAt 1735732800500 20]
       /\ count b1 = 2%nat
       /\ avgTime b1 = div (sum [ofZ 10; ofZ 20]) (ofZ 2)
       /\ items b2 = [queryAt 1735732801100 30].
Proof.
  intros data. split; [vm_compute; reflexivity|].
  refine (proj2 (proj2 (proj2 (proj2
    (groupByInterval_buckets data 1000 1735732800000
       (queryAt 1735732800100 10) (queryAt 1735732800500 20)
       (queryAt 1735732801100 30) _ _ _ _ _ _))))).
  - reflexivity.
  - intros x [<-|[<-|[<-|[]]]]; discriminate.
  - left. reflexivity.
  - reflexivity.
  - reflexivity.
  - reflexivity.
Defined.

(* ================================================================== *)
(** * Further properties of the parser *)
(* ================================================================== *)

(** ** The matcher *)

(** A match that ends on a continuation that is harder to please ends on
    one that is easier to please. *)
Lemma starLoop_mono {A B} (m : @Matcher A) (m' : @Matcher B)
      (greedy : bool) (k : @Continuation A) (k' : @Continuation B) :
  (forall s c (j : @Continuation A) (j' : @Continuation B),
      (forall s' c', j s' c' <> None -> j' s' c' <> None) ->
      m s c j <> None -> m' s c j' <> None) ->
  (forall s c, k s c <> None -> k' s c <> None) ->
  forall fuel s c,
    starLoop m greedy k fuel s c <> None ->
    starLoop m' greedy k' fuel s c <> None.
Proof.
  intros Hm Hk. induction fuel as [|fuel IH]; intros s c; cbn [starLoop].
  - apply Hk.
  - set (again := fun s' c' =>
                    if (String.length s' <? String.length s)%nat
                    then starLoop m greedy k fuel s' c' else None).
    set (again' := fun s' c' =>
                     if (String.length s' <? String.length s)%nat
                     then starLoop m' greedy k' fuel s' c' else None).
    assert (Hagain : forall s' c', again s' c' <> None -> again' s' c' <> None).
    { intros s' c'. unfold again, again'.
      destruct (String.length s' <? String.length s)%nat; [apply IH|auto]. }
    destruct greedy.
    + destruct (m s c again) eqn:E.
      * assert (H' : m' s c again' <> None)
          by (apply (Hm s c again again' Hagain); congruence).
        destruct (m' s c again'); congruence.
      * intros Hks. apply Hk in Hks.
        destruct (m' s c again'); [discriminate|exact Hks].
    + destruct (k s c) eqn:E.
      * assert (H' : k' s c <> None) by (apply Hk; congruence).
        destruct (k' s c); congruence.
      * intros Hms. apply (Hm s c again again' Hagain) in Hms.
        destruct (k' s c); [discriminate|exact Hms].
Qed.

Lemma rmatch_mono {A B} (r : regex) :
  forall s c (k : @Continuation A) (k' : @Continuation B),
    (forall s' c', k s' c' <> None -> k' s' c' <> None) ->
    rmatch r s c k <> None -> rmatch r s c k' <> None.
Proof.
  induction r as [p| |r1 IH1 r2 IH2|r1 IH1 r2 IH2|g r IH|n r IH|];
    intros s c k k' Hk; cbn [rmatch].
  - destruct s as [|a s]; [auto|]. destruct (p a); [apply Hk|auto].
  - apply Hk.
  - apply IH1. intros s1 c1. now apply IH2.
  - destruct (rmatch r1 s c k) eqn:E.
    + intros _. assert (H' : rmatch r1 s c k' <> None)
        by (apply (IH1 s c k k' Hk); congruence).
      destruct (rmatch r1 s c k'); congruence.
    + intros H2. apply (IH2 s c k k' Hk) in H2.
      destruct (rmatch r1 s c k'); [discriminate|exact H2].
  - apply starLoop_mono; [|exact Hk]. intros s0 c0 j j' Hj. now apply IH.
  - apply IH. intros s' c'. apply Hk.
  - destruct s; [apply Hk|auto].
Qed.

(** Where a pattern [r1 r2] matches, [r1] matches. *)
Lemma exec_prefix (r1 r2 : regex) (s : string) :
  Regex.exec (RSeq r1 r2) s <> None -> Regex.exec r1 s <> None.
Proof.
  unfold Regex.exec. generalize (@nil ascii) as pre.
  induction s as [|a s IH]; intros pre; cbn [exec_from].
  - destruct (rmatch (RSeq r1 r2) "" [] (fun s' c => Some (s', c)))
      as [[s' c]|] eqn:E; [|congruence].
    intros _.
    assert (H : rmatch r1 "" [] (fun s' c => Some (s', c)) <> None).
    { cbn [rmatch] in E.
      apply (rmatch_mono r1 "" []
               (fun s1 c1 => rmatch r2 s1 c1 (fun s' c => Some (s', c))));
        [discriminate|congruence]. }
    destruct (rmatch r1 "" [] (fun s' c => Some (s', c))) as [[s1 c1]|];
      [discriminate|congruence].
  - destruct (rmatch (RSeq r1 r2) (String a s) [] (fun s' c => Some (s', c)))
      as [[s' c]|] eqn:E.
    + intros _.
      assert (H : rmatch r1 (String a s) [] (fun s' c => Some (s', c)) <> None).
      { cbn [rmatch] in E.
        apply (rmatch_mono r1 (String a s) []
                 (fun s1 c1 => rmatch r2 s1 c1 (fun s' c => Some (s', c))));
          [discriminate|congruence]. }
      destruct (rmatch r1 (String a s) [] (fun s' c => Some (s', c)))
        as [[s1 c1]|]; [discriminate|congruence].
    + intros H. apply IH in H.
      destruct (rmatch r1 (String a s) [] (fun s' c => Some (s', c)))
        as [[s1 c1]|]; [discriminate|exact H].
Qed.

Lemma exec_without_prefix (r1 r2 : regex) (s : string) :
  Regex.exec r1 s = None -> Regex.exec (RSeq r1 r2) s = None.
Proof.
  intros H. destruct (Regex.exec (RSeq r1 r2) s) eqn:E; [|reflexivity].
  exfalso. apply (exec_prefix r1 r2 s); congruence.
Qed.

(** ** Lines without a timestamp *)

(** A line in which no timestamp occurs yields no record, whatever else
    it spells: each of the five line patterns begins with the timestamp,
    and the system events are looked for only after one is found. *)
Theorem parseLine_needs_timestamp
        (newDate : string -> Date) (line fileName : string) (r : ParseResult) :
  Regex.exec (timestampGroup 1) line = None ->
  parseLine newDate line fileName r = r.
Proof.
  intros Hts. unfold parseLine.
  assert (Hq : parseQueryEntry newDate line fileName = None).
  { unfold parseQueryEntry.
    change PATTERNS.query with
      (RSeq (timestampGroup 1)
         (seq [lazy dot; lit "QueryProgress"; plus space;
               RGroup 2 (RAlt (lit "fin") (lit "exe")); lazy dot;
               lit "sql=`"; RGroup 3 (plus (noneOf ["`"%char])); lit "`";
               lazy dot; lit "time="; RGroup 4 (plus digit); lit "]"])).
    now rewrite exec_without_prefix. }
  assert (Hw : parseWalJobEntry newDate line fileName = None).
  { unfold parseWalJobEntry, PATTERNS.walJob.
    cbn [seq]. now rewrite exec_without_prefix. }
  assert (Hc : parseWalCommitEntry newDate line fileName = None).
  { unfold parseWalCommitEntry, PATTERNS.walCommit.
    cbn [seq]. now rewrite exec_without_prefix. }
  assert (Hp : parsePartitionClosingEntry newDate line fileName = None).
  { unfold parsePartitionClosingEntry, PATTERNS.partitionClosing.
    cbn [seq]. now rewrite exec_without_prefix. }
  assert (Hg : parsePgwireConnection newDate line fileName = None).
  { unfold parsePgwireConnection, PATTERNS.pgwireConnection.
    cbn [seq]. now rewrite exec_without_prefix. }
  assert (He : parseSystemEvent newDate line fileName = None).
  { unfold parseSystemEvent. now rewrite Hts. }
  now rewrite Hq, Hw, Hc, Hp, Hg, He.
Qed.

Lemma parseLine_needs_timestamp_witness :
  Regex.test PATTERNS.o3Partition untimedEventLine = true
  /\ parseLine anyDate untimedEventLine "questdb.log" emptyResult = emptyResult.
Proof.
  split; [vm_compute; reflexivity|].
  apply (parseLine_needs_timestamp anyDate untimedEventLine "questdb.log").
  vm_compute. reflexivity.
Defined.

(** ** The records of a file *)

Ltac parser_cases newDate line fileName :=
  destruct (parseQueryEntry newDate line fileName) eqn:?Hquery;
    [|destruct (parseWalJobEntry newDate line fileName) eqn:?HwalJob;
      [|destruct (parseWalCommitEntry newDate line fileName) eqn:?HwalCommit;
        [|destruct (parsePartitionClosingEntry newDate line fileName) eqn:?Hclosing;
          [|destruct (parsePgwireConnection newDate line fileName) eqn:?Hpgwire;
            [|destruct (parseSystemEvent newDate line fileName) eqn:?Hevent]]]]].

Lemma parseSystemEvent_file (newDate : string -> Date) (line fileName : string)
      (e : SystemEventRecord) :
  parseSystemEvent newDate line fileName = Some e -> event_file e = fileName.
Proof.
  unfold parseSystemEvent.
  destruct (Regex.exec (timestampGroup 1) line); [|discriminate].
  destruct (Regex.test PATTERNS.connectionLimit line); [now intros [= <-]|].
  destruct (Regex.exec PATTERNS.o3Partition line); [now intros [= <-]|].
  destruct (Regex.exec PATTERNS.partitionSquashing line); [now intros [= <-]|].
  destruct (Regex.exec PATTERNS.mergePartition line); [now intros [= <-]|].
  discriminate.
Qed.

Lemma parseLine_fromFile (newDate : string -> Date) (line fileName : string)
      (r : ParseResult) :
  fromFile fileName r -> fromFile fileName (parseLine newDate line fileName r).
Proof.
  intros (Hq & Hw & Hc & Hp & Hg & He). unfold parseLine, fromFile.
  parser_cases newDate line fileName;
    cbn [queries walJobs walCommits partitionClosings pgwireConnections
         systemEvents]; unfold push;
    repeat split; try assumption;
    apply Forall_app; (split; [assumption|]); constructor; try constructor.
  - apply parseQueryEntry_inv in Hquery as (m & _ & _ & ->). reflexivity.
  - unfold parseWalJobEntry in HwalJob.
    destruct (Regex.exec PATTERNS.walJob line); [|discriminate].
    now injection HwalJob as <-.
  - unfold parseWalCommitEntry in HwalCommit.
    destruct (Regex.exec PATTERNS.walCommit line); [|discriminate].
    now injection HwalCommit as <-.
  - unfold parsePartitionClosingEntry in Hclosing.
    destruct (Regex.exec PATTERNS.partitionClosing line); [|discriminate].
    now injection Hclosing as <-.
  - unfold parsePgwireConnection in Hpgwire.
    destruct (Regex.exec PATTERNS.pgwireConnection line); [|discriminate].
    now injection Hpgwire as <-.
  - eapply parseSystemEvent_file, Hevent.
Qed.

Lemma loop_result (newDate : string -> Date) (fileName : string) (cb : bool)
      (total : nat) (lines : list string) :
  forall (i : nat) (st : LoopState),
    result (loop newDate fileName cb total i lines st)
    = fold_left (fun r line => parseLine newDate line fileName r) lines (result st).
Proof.
  induction lines as [|line lines IH]; intros i st; cbn [loop fold_left];
    [reflexivity|].
  now rewrite IH.
Qed.

(** Every record that [parseQuestDBLog] returns names the file it was
    given, in whichever of the six collections the record is. *)
Theorem parseQuestDBLog_records_name_file
        (newDate : string -> Date) (logContent fileName : string) (cb : bool) :
  fromFile fileName (parseQuestDBLog newDate logContent fileName cb).
Proof.
  unfold parseQuestDBLog, parseQuestDBLog_traced. rewrite loop_result.
  cbn [result].
  assert (H0 : fromFile fileName emptyResult) by (repeat split; constructor).
  revert H0. generalize emptyResult as r.
  induction (Str.split "010" logContent) as [|line lines IH]; intros r Hr;
    cbn [fold_left]; [exact Hr|].
  apply IH. now apply parseLine_fromFile.
Qed.

(** *** Concatenated logs *)

Lemma split_nonempty (sep : ascii) (s : string) : Str.split sep s <> [].
Proof.
  destruct s as [|a s]; cbn [Str.split]; [discriminate|].
  destruct (Ascii.eqb a sep); [discriminate|].
  destruct (Str.split sep s); discriminate.
Qed.

Lemma split_append (sep : ascii) (a b : string) :
  Str.split sep (a ++ String sep b) = Str.split sep a ++ Str.split sep b.
Proof.
  induction a as [|x a IH]; cbn [append Str.split].
  - now rewrite Ascii.eqb_refl.
  - rewrite IH. destruct (Ascii.eqb x sep); [reflexivity|].
    pose proof (split_nonempty sep a) as Hne.
    destruct (Str.split sep a) as [|w ws]; [congruence|]. reflexivity.
Qed.

Lemma parseLine_merge (newDate : string -> Date) (line fileName : string)
      (r : ParseResult) :
  parseLine newDate line fileName r
  = merge r (parseLine newDate line fileName emptyResult).
Proof.
  unfold parseLine. parser_cases newDate line fileName;
    unfold merge, push; cbn; rewrite ?app_nil_r; destruct r; reflexivity.
Qed.

Lemma fold_parseLine_merge (newDate : string -> Date) (fileName : string)
      (lines : list string) :
  forall r,
    fold_left (fun r line => parseLine newDate line fileName r) lines r
    = merge r (fold_left (fun r line => parseLine newDate line fileName r)
                         lines emptyResult).
Proof.
  induction lines as [|line lines IH]; intros r; cbn [fold_left].
  - now rewrite merge_empty_r.
  - rewrite IH, (IH (parseLine newDate line fileName emptyResult)).
    now rewrite <- merge_assoc, <- parseLine_merge.
Qed.

(** Parsing two logs joined by a line feed gives the records of the
    first followed by the records of the second, collection by
    collection; a progress callback changes nothing to it. *)
Theorem parseQuestDBLog_concatenation
        (newDate : string -> Date) (first second fileName : string)
        (cb cb1 cb2 : bool) :
  parseQuestDBLog newDate (first ++ newline ++ second) fileName cb
  = merge (parseQuestDBLog newDate first fileName cb1)
          (parseQuestDBLog newDate second fileName cb2).
Proof.
  unfold parseQuestDBLog, parseQuestDBLog_traced. rewrite !loop_result.
  cbn [result]. unfold newline. cbn [append].
  rewrite split_append, fold_left_app.
  apply fold_parseLine_merge.
Qed.

(** ** System events *)

Lemma length_take (n : nat) (s : string) :
  String.length (Str.take n s) = Nat.min n (String.length s).
Proof.
  revert s. induction n as [|n IH]; intros [|a s]; cbn; auto.
Qed.

Lemma take_prefix (n : nat) (s : string) :
  exists rest, s = (Str.take n s ++ rest)%string.
Proof.
  revert s. induction n as [|n IH]; intros s.
  - exists s. now destruct s.
  - destruct s as [|a s]; [now exists EmptyString|].
    destruct (IH s) as [rest E]. exists rest. cbn. now rewrite <- E.
Qed.



(** ** Table names, again *)

Lemma stripShard_prefix (t : string) :
  exists suffix,
    t = (stripShard t ++ suffix)%string
    /\ (suffix = EmptyString
        \/ exists ds, isNumeral ds = true /\ suffix = String "~" ds).
Proof.
  induction t as [|a t (suffix & E & Hs)]; cbn [stripShard].
  - exists EmptyString. auto.
  - destruct (Ascii.eqb a "~" && isNumeral t) eqn:C.
    + apply andb_true_iff in C as [Ca Ct]. apply Ascii.eqb_eq in Ca. subst a.
      exists (String "~" t). split; [reflexivity|]. right. eauto.
    + exists suffix. split; [|exact Hs]. cbn [append]. now rewrite <- E.
Qed.

(** Normalization only ever cuts the end of a name: the name is its
    normalized form followed by nothing or by one shard suffix, [~] and
    digits.  What precedes the suffix is never changed. *)
Theorem normalizeTableName_cuts_suffix_only (t : string) :
  exists suffix,
    t = (normalizeTableName t ++ suffix)%string
    /\ (suffix = EmptyString
        \/ exists ds, isNumeral ds = true /\ suffix = String "~" ds).
Proof. rewrite normalizeTableName_stripShard. apply stripShard_prefix. Qed.

(* ================================================================== *)
(** * Further properties of the batch *)
(* ================================================================== *)

Section BatchFacts.
Variable File : Type.
Variable name : File -> string.
Variable readFile : File -> Result string.
Variable logParser : string -> string -> Result ParseResult.

Local Abbreviation fileStep := (processFile File name readFile logParser).
Local Abbreviation batch := (processFiles File name readFile logParser).
Local Abbreviation outcome := (parseFile name readFile logParser).

Lemma processFile_outcome (file : File) :
  allResults (fileStep emptyState file) = recordsOf (outcome file)
  /\ errors (fileStep emptyState file) = messageOf (name file) (outcome file)
  /\ (List.length (fileMetadata (fileStep emptyState file))
      <= if succeeded (outcome file) then 1 else 0)%nat.
Proof.
  unfold processFile, parseFile.
  destruct (readFile file) as [content|e]; cbn; [|auto].
  destruct (logParser content (name file)) as [r|e]; cbn; [|auto].
  rewrite merge_empty_l. split; [reflexivity|]. split; [reflexivity|].
  destruct (List.length (allTimestamps r)); cbn; lia.
Qed.

Lemma processFiles_fold (files : list File) :
  allResults (batch files)
  = fold_right merge emptyResult (map (fun f => recordsOf (outcome f)) files)
  /\ errors (batch files)
     = flat_map (fun f => messageOf (name f) (outcome f)) files
  /\ (List.length (fileMetadata (batch files))
      <= List.length (filter (fun f => succeeded (outcome f)) files))%nat.
Proof.
  induction files as [|f files (IHr & IHe & IHm)].
  - cbn. auto.
  - rewrite processFiles_cons. unfold appendState.
    cbn [allResults errors fileMetadata map fold_right flat_map filter].
    destruct (processFile_outcome f) as (Hr & He & Hm).
    rewrite Hr, He, IHr, IHe, length_app.
    split; [reflexivity|]. split; [reflexivity|].
    destruct (succeeded (outcome f)); cbn [List.length]; lia.
Qed.


End BatchFacts.

(* ================================================================== *)
(** * Further properties of the processors *)
(* ================================================================== *)

(** ** calculateTimeMetrics *)

Lemma fold_minTime_valid (ts : list Z) : forall acc,
  fold_left minTime (map Some ts) (Some acc) = Some (fold_left Z.min ts acc).
Proof. induction ts as [|t ts IH]; intros acc; cbn; [reflexivity|apply IH]. Qed.

Lemma fold_maxTime_valid (ts : list Z) : forall acc,
  fold_left maxTime2 (map Some ts) (Some acc) = Some (fold_left Z.max ts acc).
Proof. induction ts as [|t ts IH]; intros acc; cbn; [reflexivity|apply IH]. Qed.

Lemma fold_min_least (ts : list Z) : forall acc,
  let m := fold_left Z.min ts acc in
  (m <= acc)%Z /\ Forall (fun t => (m <= t)%Z) ts /\ (m = acc \/ In m ts).
Proof.
  induction ts as [|t ts IH]; intros acc; cbn [fold_left].
  - cbv zeta. split; [lia|]. split; [constructor|now left].
  - specialize (IH (Z.min acc t)). cbv zeta in *.
    destruct IH as (Hle & Hall & Hin).
    split; [lia|]. split; [constructor; [lia|exact Hall]|].
    destruct Hin as [E|Hin]; [|right; now right].
    destruct (Z.min_spec acc t) as [[_ E']|[_ E']].
    + left. now rewrite E.
    + right; left. now rewrite E.
Qed.

Lemma fold_max_greatest (ts : list Z) : forall acc,
  let m := fold_left Z.max ts acc in
  (acc <= m)%Z /\ Forall (fun t => (t <= m)%Z) ts /\ (m = acc \/ In m ts).
Proof.
  induction ts as [|t ts IH]; intros acc; cbn [fold_left].
  - cbv zeta. split; [lia|]. split; [constructor|now left].
  - specialize (IH (Z.max acc t)). cbv zeta in *.
    destruct IH as (Hle & Hall & Hin).
    split; [lia|]. split; [constructor; [lia|exact Hall]|].
    destruct Hin as [E|Hin]; [|right; now right].
    destruct (Z.max_spec acc t) as [[_ E']|[_ E']].
    + right; left. now rewrite E.
    + left. now rewrite E.
Qed.

Lemma fold_minTime_none (l : list (option Z)) :
  fold_left minTime l None = None.
Proof. induction l as [|x l IH]; [reflexivity|exact IH]. Qed.

Lemma fold_maxTime_none (l : list (option Z)) :
  fold_left maxTime2 l None = None.
Proof. induction l as [|x l IH]; [reflexivity|exact IH]. Qed.

Lemma fold_minTime_NaN (l : list (option Z)) : forall acc,
  In None l -> fold_left minTime l acc = None.
Proof.
  induction l as [|x l IH]; intros acc; [intros []|].
  intros [->|Hin]; cbn [fold_left].
  - destruct acc; apply fold_minTime_none.
  - now apply IH.
Qed.

Lemma fold_maxTime_NaN (l : list (option Z)) : forall acc,
  In None l -> fold_left maxTime2 l acc = None.
Proof.
  induction l as [|x l IH]; intros acc; [intros []|].
  intros [->|Hin]; cbn [fold_left].
  - destruct acc; apply fold_maxTime_none.
  - now apply IH.
Qed.

Lemma valid_times {A} `{Timestamped A} (data : list A) :
  Forall (fun d => timestamp d <> InvalidDate) data ->
  exists ts, map timestamp data = map ValidDate ts.
Proof.
  induction 1 as [|d ds Hd _ [ts IH]]; [now exists []|].
  destruct (timestamp d) as [t|] eqn:E; [|congruence].
  exists (t :: ts). cbn [map]. now rewrite E, IH.
Qed.

Lemma rate_bounds (n : nat) (d : Q) :
  (0 < n)%nat ->
  exists r, div (ofNat n) (max2 (ofZ 1) (Fin d)) = Fin r
            /\ 0 < r /\ r <= inject_Z (Z.of_nat n).
Proof.
  intros Hn.
  assert (Hpos : 0 < inject_Z (Z.of_nat n)) by (rewrite <- (Zlt_Qlt 0); lia).
  assert (Hdiv : forall m : Q, 1 <= m ->
            exists r, div (ofNat n) (Fin m) = Fin r
                      /\ 0 < r /\ r <= inject_Z (Z.of_nat n)).
  { intros m Hm. assert (Hm0 : 0 < m) by lra.
    unfold div, ofNat, ofZ.
    rewrite (proj1 (Qgt_alt m 0) Hm0).
    eexists; split; [reflexivity|]. split.
    - apply Qlt_shift_div_l; [exact Hm0|]. now rewrite Qmult_0_l.
    - apply Qle_shift_div_r; [exact Hm0|].
      rewrite <- (Qmult_1_r (inject_Z (Z.of_nat n))) at 1.
      apply Qmult_le_l; assumption. }
  unfold max2, ofZ.
  destruct (Qle_bool (inject_Z 1) d) eqn:E.
  - apply Hdiv. apply Qle_bool_iff in E. exact E.
  - apply Hdiv. apply Qle_refl.
Qed.

(** On data whose dates are all valid, the start and the end are the
    earliest and the latest timestamp of the data, both attained, the
    duration is their distance in seconds, and the rate is positive and at
    most the number of items. *)
Theorem calculateTimeMetrics_span {A} `{Timestamped A} (data : list A) :
  data <> [] ->
  Forall (fun d => timestamp d <> InvalidDate) data ->
  let m := calculateTimeMetrics data in
  exists lo hi : Z,
    startTime m = Some (ValidDate lo)
    /\ endTime m = Some (ValidDate hi)
    /\ Exists (fun d => timestamp d = ValidDate lo) data
    /\ Exists (fun d => timestamp d = ValidDate hi) data
    /\ Forall (fun d => exists t, timestamp d = ValidDate t /\ (lo <= t <= hi)%Z)
              data
    /\ duration m = Fin (inject_Z (hi - lo) / 1000)
    /\ exists r, metrics_rate m = Fin r
                 /\ 0 < r /\ r <= inject_Z (Z.of_nat (List.length data)).
Proof.
  intros Hne Hvalid. destruct (valid_times data Hvalid) as [ts Hts].
  destruct data as [|d ds]; [congruence|]. clear Hne.
  destruct ts as [|t0 ts]; [discriminate|].
  cbn [map] in Hts. injection Hts as Hd Hds.
  cbv zeta. unfold calculateTimeMetrics.
  replace (map (fun d0 : A => getTime (timestamp d0)) ds) with (map Some ts).
  2:{ rewrite <- (map_map timestamp getTime), Hds, map_map. reflexivity. }
  rewrite Hd. cbn [getTime].
  rewrite fold_minTime_valid, fold_maxTime_valid.
  destruct (fold_min_least ts t0) as (Hlo & Hlos & Hloin).
  destruct (fold_max_greatest ts t0) as (Hhi & His & Hhiin).
  set (lo := fold_left Z.min ts t0) in *.
  set (hi := fold_left Z.max ts t0) in *.
  assert (Hin : forall t, In t (t0 :: ts) ->
            Exists (fun d => timestamp d = ValidDate t) (d :: ds)).
  { intros t Ht. apply Exists_exists.
    assert (Hm : In (ValidDate t) (map timestamp (d :: ds))).
    { cbn [map]. rewrite Hd, Hds. now apply (in_map ValidDate (t0 :: ts)). }
    apply in_map_iff in Hm as (x & Hx & Hxin). now exists x. }
  exists lo, hi. cbn [startTime endTime duration metrics_rate dateOfTime].
  split; [reflexivity|]. split; [reflexivity|].
  split; [apply Hin; destruct Hloin as [->|?]; [now left|now right]|].
  split; [apply Hin; destruct Hhiin as [->|?]; [now left|now right]|].
  split.
  { apply Forall_forall. intros x Hx.
    assert (Hm : In (timestamp x) (map ValidDate (t0 :: ts))).
    { cbn [map]. rewrite <- Hd, <- Hds. now apply (in_map timestamp (d :: ds)). }
    apply in_map_iff in Hm as (t & Ht & Htin). exists t. split; [now symmetry|].
    rewrite Forall_forall in Hlos, His.
    destruct Htin as [<-|Htin]; [lia|].
    specialize (Hlos t Htin). specialize (His t Htin). cbv beta in *. lia. }
  cbn [dateDiff getTime].
  change (div (ofZ (hi - lo)) (ofZ 1000)) with (Fin (inject_Z (hi - lo) / 1000)).
  split; [reflexivity|].
  apply rate_bounds. cbn [List.length]. lia.
Qed.

Lemma calculateTimeMetrics_span_witness :
  let m := calculateTimeMetrics (queriesAt [3000; 1000; 2000]%Z) in
  exists lo hi : Z,
    startTime m = Some (ValidDate lo)
    /\ endTime m = Some (ValidDate hi)
    /\ Exists (fun d => timestamp d = ValidDate lo) (queriesAt [3000; 1000; 2000]%Z)
    /\ Exists (fun d => timestamp d = ValidDate hi) (queriesAt [3000; 1000; 2000]%Z)
    /\ Forall (fun d => exists t, timestamp d = ValidDate t /\ (lo <= t <= hi)%Z)
              (queriesAt [3000; 1000; 2000]%Z)
    /\ duration m = Fin (inject_Z (hi - lo) / 1000)
    /\ exists r, metrics_rate m = Fin r
                 /\ 0 < r
                 /\ r <= inject_Z (Z.of_nat (List.length (queriesAt [3000; 1000; 2000]%Z))).
Proof.
  apply (calculateTimeMetrics_span (queriesAt [3000; 1000; 2000]%Z)).
  - discriminate.
  - repeat constructor; discriminate.
Defined.

(** One item whose date is invalid spoils the metrics of the whole data:
    the start and the end are invalid dates, the duration and the rate are
    [NaN]. *)
Theorem calculateTimeMetrics_invalid_date {A} `{Timestamped A} (data : list A) :
  Exists (fun d => timestamp d = InvalidDate) data ->
  let m := calculateTimeMetrics data in
  startTime m = Some InvalidDate
  /\ endTime m = Some InvalidDate
  /\ duration m = NaN
  /\ metrics_rate m = NaN.
Proof.
  intros Hex. cbv zeta. destruct data as [|d ds]; [inversion Hex|].
  unfold calculateTimeMetrics.
  assert (Hmin : fold_left minTime (map (fun d0 : A => getTime (timestamp d0)) ds)
                   (getTime (timestamp d)) = None
                 /\ fold_left maxTime2 (map (fun d0 : A => getTime (timestamp d0)) ds)
                      (getTime (timestamp d)) = None).
  { apply Exists_cons in Hex as [E|Hex].
    - rewrite E. cbn [getTime]. split; [apply fold_minTime_none|apply fold_maxTime_none].
    - assert (Hin : In None (map (fun d0 : A => getTime (timestamp d0)) ds)).
      { apply Exists_exists in Hex as (x & Hx & E).
        apply in_map_iff. exists x. rewrite E. now split. }
      split; [now apply fold_minTime_NaN|now apply fold_maxTime_NaN]. }
  destruct Hmin as [-> ->]. cbn. auto.
Qed.

Lemma calculateTimeMetrics_invalid_date_witness :
  let m := calculateTimeMetrics (queriesAt [3000; 1000]%Z ++ [undatedQuery]) in
  startTime m = Some InvalidDate
  /\ endTime m = Some InvalidDate
  /\ duration m = NaN
  /\ metrics_rate m = NaN.
Proof.
  apply (calculateTimeMetrics_invalid_date (queriesAt [3000; 1000]%Z ++ [undatedQuery])).
  apply Exists_exists. exists undatedQuery. split; [|reflexivity].
  cbn. auto.
Defined.

(** ** filterByTimeRange *)

Lemma filter_twice {A} (f g : A -> bool) (l : list A) :
  filter f (filter g l) = filter (fun x => g x && f x) l.
Proof.
  induction l as [|x l IH]; [reflexivity|].
  cbn [filter]. destruct (g x); cbn [andb filter]; now rewrite IH.
Qed.

(** Filtering by one range and then by another is filtering by their
    intersection. *)
Theorem filterByTimeRange_twice {A} `{Timestamped A} (data : list A)
        (a b c d : Z) :
  filterByTimeRange (filterByTimeRange data (ValidDate a) (ValidDate b))
                    (ValidDate c) (ValidDate d)
  = filterByTimeRange data (ValidDate (Z.max a c)) (ValidDate (Z.min b d)).
Proof.
  unfold filterByTimeRange. rewrite filter_twice. apply filter_ext.
  intros x. unfold date_geb, date_leb. cbn [getTime].
  destruct (getTime (timestamp x)) as [t|]; [|reflexivity].
  apply Bool.eq_iff_eq_true.
  rewrite !Bool.andb_true_iff, !Z.leb_le. lia.
Qed.

(** A bound that is an invalid date lets nothing through, and no item
    with an invalid date is ever let through. *)
Theorem filterByTimeRange_invalid_dates {A} `{Timestamped A} (data : list A)
        (startTime endTime : Date) :
  filterByTimeRange data InvalidDate endTime = []
  /\ filterByTimeRange data startTime InvalidDate = []
  /\ Forall (fun item => timestamp item <> InvalidDate)
            (filterByTimeRange data startTime endTime).
Proof.
  unfold filterByTimeRange, date_geb, date_leb. split; [|split].
  - induction data as [|x data IH]; [reflexivity|].
    cbn [filter getTime]. now destruct (getTime (timestamp x)).
  - induction data as [|x data IH]; [reflexivity|].
    cbn [filter getTime]. destruct (getTime (timestamp x)); cbn [andb]; [|exact IH].
    destruct (getTime startTime); cbn [andb]; [|exact IH].
    now rewrite Bool.andb_false_r.
  - apply Forall_forall. intros x Hx. apply filter_In in Hx as [_ Hx].
    intros E. rewrite E in Hx. discriminate.
Qed.

(** A range whose end is before its start lets nothing through. *)
Lemma filterByTimeRange_reversed_range {A} `{Timestamped A} (data : list A)
        (a b : Z) :
  (b < a)%Z ->
  filterByTimeRange data (ValidDate a) (ValidDate b) = [].
Proof.
  intros Hlt. unfold filterByTimeRange, date_geb, date_leb.
  induction data as [|x data IH]; [reflexivity|].
  cbn [filter getTime]. destruct (getTime (timestamp x)) as [t|]; cbn [andb]; [|exact IH].
  destruct (a <=? t)%Z eqn:E1, (t <=? b)%Z eqn:E2; cbn [andb]; try exact IH. lia.
Qed.

(** ** Sorting numbers, calculatePercentile and calculateStatistics *)

(** A comparator that reads a total preorder on the values it is given,
    those that satisfy [P]. *)
Section SortOrder.
Context {A : Type} (gt : A -> A -> bool) (le : A -> A -> Prop) (P : A -> Prop).
Hypothesis gt_true : forall a b, P a -> P b -> gt a b = true -> le b a.
Hypothesis gt_false : forall a b, P a -> P b -> gt a b = false -> le a b.
Hypothesis le_trans : forall a b c, P a -> P b -> P c -> le a b -> le b c -> le a c.

Lemma insertSorted_ordered (x : A) (l : list A) :
  P x -> Forall P l ->
  StronglySorted le l -> StronglySorted le (insertSorted gt x l).
Proof.
  intros Hx. induction l as [|y l IH]; intros HP Hs; cbn [insertSorted].
  - repeat constructor.
  - apply StronglySorted_inv in Hs as [Hs Hy].
    apply Forall_cons_iff in HP as [HPy HP].
    destruct (gt x y) eqn:E.
    + constructor; [now apply IH|].
      apply Forall_forall. intros z Hz.
      apply (Permutation_in _ (insertSorted_perm gt x l)) in Hz.
      destruct Hz as [<-|Hz]; [now apply gt_true|].
      rewrite Forall_forall in Hy. now apply Hy.
    + constructor; [now constructor|].
      constructor; [now apply gt_false|].
      rewrite Forall_forall in Hy, HP |- *. intros z Hz.
      apply (le_trans _ y); auto.
Qed.

Lemma sort_ordered (l : list A) : Forall P l -> StronglySorted le (sort gt l).
Proof.
  induction l as [|x l IH]; intros HP; cbn [sort]; [constructor|].
  apply Forall_cons_iff in HP as [Hx HP].
  apply insertSorted_ordered; [exact Hx| |now apply IH].
  apply Forall_forall. intros y Hy.
  apply (Permutation_in _ (sort_perm gt l)) in Hy.
  rewrite Forall_forall in HP. now apply HP.
Qed.

End SortOrder.

Lemma sort_map {A B} (g : A -> B) (gt : A -> A -> bool) (gt' : B -> B -> bool)
      (l : list A) :
  (forall a b, gt' (g a) (g b) = gt a b) ->
  sort gt' (map g l) = map g (sort gt l).
Proof.
  intros Hg. induction l as [|x l IH]; [reflexivity|].
  cbn [map sort]. rewrite IH. generalize (sort gt l). clear IH.
  induction l0 as [|y l0 IH]; [reflexivity|].
  cbn [map insertSorted]. rewrite Hg.
  destruct (gt x y); cbn [map]; [now rewrite IH|reflexivity].
Qed.

Lemma num_gt_Fin (a b : Q) : num_gt (Fin a) (Fin b) = Qgt_bool a b.
Proof.
  unfold num_gt, Qgt_bool, sub, neg, add, isPositive. f_equal.
  destruct (Qle_bool a b) eqn:E1, (Qle_bool (a + - b) 0) eqn:E2; try reflexivity; exfalso.
  - apply Qle_bool_iff in E1. apply Qle_bool_false in E2. lra.
  - apply Qle_bool_iff in E2. apply Qle_bool_false in E1. lra.
Qed.

Lemma sort_numbers (qs : list Q) :
  sort num_gt (map Fin qs) = map Fin (sort Qgt_bool qs)
  /\ StronglySorted Qle (sort Qgt_bool qs)
  /\ Permutation (sort Qgt_bool qs) qs.
Proof.
  split; [apply sort_map, num_gt_Fin|]. split; [|apply sort_perm].
  apply (sort_ordered Qgt_bool Qle (fun _ => True)).
  - intros a b _ _ E. unfold Qgt_bool in E. apply Bool.negb_true_iff in E.
    apply Qlt_le_weak. now apply Qle_bool_false.
  - intros a b _ _ E. unfold Qgt_bool in E. apply Bool.negb_false_iff in E.
    now apply Qle_bool_iff.
  - intros a b c _ _ _. apply Qle_trans.
  - apply Forall_forall. intros; exact I.
Qed.

Lemma nth_sorted (l : list Q) : forall (i j : nat) (x y : Q),
  StronglySorted Qle l -> (i <= j)%nat ->
  nth_error l i = Some x -> nth_error l j = Some y -> x <= y.
Proof.
  induction l as [|a l IH]; intros i j x y Hs Hij Hx Hy.
  - destruct i; discriminate.
  - apply StronglySorted_inv in Hs as [Hs Ha].
    destruct i as [|i], j as [|j]; cbn [nth_error] in *.
    + injection Hx as <-. injection Hy as <-. apply Qle_refl.
    + injection Hx as <-. rewrite Forall_forall in Ha. apply Ha.
      eapply nth_error_In; eassumption.
    + lia.
    + apply (IH i j); [assumption|lia|assumption|assumption].
Qed.

(** An array has fewer than 2^32 elements. *)
Lemma array_length_small (n : nat) :
  (Z.of_nat n < 2 ^ 32)%Z -> (Z.of_nat n < 2 ^ 53)%Z.
Proof.
  intros H. assert (2 ^ 32 < 2 ^ 53)%Z by (apply Z.pow_lt_mono_r; lia). lia.
Qed.

(** The value [calculatePercentile] reads in an array of finite numbers
    for a percentile up to 100. *)
Lemma percentile_at_rank (qs : list Q) (q : Q) :
  qs <> [] -> (Z.of_nat (List.length qs) < 2 ^ 53)%Z -> q <= 100 ->
  exists x, nth_error qs (rank64 (List.length qs) q) = Some x
            /\ calculatePercentile (map Fin qs) (Fin q) = Some (Fin x).
Proof.
  intros Hne Hbig Hq.
  destruct (percentile_rank64 qs q Hne Hbig Hq) as [Hlt _].
  destruct (nth_error qs (rank64 (List.length qs) q)) as [x|] eqn:E.
  2:{ apply nth_error_None in E. lia. }
  exists x. split; [reflexivity|].
  rewrite calculatePercentile_rank64;
    [|destruct qs; [congruence|discriminate]|now rewrite length_map|exact Hq].
  now rewrite length_map, nth_error_map, E.
Qed.

(** On a sorted array of finite numbers, fewer than 2^32 as in every
    array, [calculatePercentile] is monotone in the percentile, up to
    100, and it returns values of the array. *)
Theorem calculatePercentile_monotone (qs : list Q) (p q : Q) :
  qs <> [] -> (Z.of_nat (List.length qs) < 2 ^ 32)%Z ->
  StronglySorted Qle qs -> p <= q -> q <= 100 ->
  exists x y,
    calculatePercentile (map Fin qs) (Fin p) = Some (Fin x)
    /\ calculatePercentile (map Fin qs) (Fin q) = Some (Fin y)
    /\ In x qs /\ In y qs /\ x <= y.
Proof.
  intros Hne Hlen Hs Hpq Hq. apply array_length_small in Hlen.
  assert (Hn : (0 < List.length qs)%nat) by (destruct qs; [congruence|cbn; lia]).
  destruct (percentile_at_rank qs p Hne Hlen) as (x & Hx & Hpx); [lra|].
  destruct (percentile_at_rank qs q Hne Hlen Hq) as (y & Hy & Hpy).
  exists x, y. split; [exact Hpx|]. split; [exact Hpy|].
  split; [eapply nth_error_In; eassumption|].
  split; [eapply nth_error_In; eassumption|].
  eapply nth_sorted;
    [exact Hs|apply (rank64_mono _ p q Hn Hlen Hpq Hq)|eassumption|eassumption].
Qed.

Lemma calculatePercentile_monotone_witness :
  exists x y,
    calculatePercentile (map Fin [1; 2; 4; 8]) (Fin 50) = Some (Fin x)
    /\ calculatePercentile (map Fin [1; 2; 4; 8]) (Fin 75) = Some (Fin y)
    /\ In x [1; 2; 4; 8] /\ In y [1; 2; 4; 8] /\ x <= y.
Proof.
  apply (calculatePercentile_monotone [1; 2; 4; 8] 50 75).
  - discriminate.
  - reflexivity.
  - repeat constructor; discriminate.
  - discriminate.
  - discriminate.
Defined.

(** On a non-empty array of finite numbers, fewer than 2^32 as in every
    array, [calculateStatistics] counts them, takes the least and the
    greatest of them as the minimum and the maximum, and returns as the
    percentiles values of the array, in their order between the two. *)
Theorem calculateStatistics_order
        (Math_sqrt : number -> number) (Math_pow : number -> number -> number)
        (qs : list Q) :
  qs <> [] ->
  (Z.of_nat (List.length qs) < 2 ^ 32)%Z ->
  let s := calculateStatistics Math_sqrt Math_pow (map Fin qs) in
  exists lo p25 med p75 p95 p99 hi : Q,
    stats_count s = List.length qs
    /\ stats_min s = Some (Fin lo) /\ stats_max s = Some (Fin hi)
    /\ In lo qs /\ In hi qs /\ Forall (fun x => lo <= x <= hi) qs
    /\ stats_p25 s = Some (Fin p25) /\ stats_median s = Some (Fin med)
    /\ stats_p75 s = Some (Fin p75) /\ stats_p95 s = Some (Fin p95)
    /\ stats_p99 s = Some (Fin p99)
    /\ In p25 qs /\ In med qs /\ In p75 qs /\ In p95 qs /\ In p99 qs
    /\ lo <= p25 /\ p25 <= med /\ med <= p75 /\ p75 <= p95 /\ p95 <= p99
    /\ p99 <= hi.
Proof.
  intros Hne Hsmall. cbv zeta.
  destruct (sort_numbers qs) as (Hsort & Hs & Hperm).
  set (ss := sort Qgt_bool qs) in *.
  assert (Hlen : List.length ss = List.length qs) by now apply Permutation_length.
  assert (Hn : (0 < List.length qs)%nat) by (destruct qs; [congruence|cbn; lia]).
  assert (Hn' : (0 < List.length ss)%nat) by lia.
  assert (Hss : ss <> []) by (intros E; rewrite E in Hlen; cbn in Hlen; lia).
  assert (Hbig : (Z.of_nat (List.length ss) < 2 ^ 53)%Z)
    by (rewrite Hlen; now apply array_length_small).
  destruct (nth_error ss 0) as [lo|] eqn:Elo.
  2:{ apply nth_error_None in Elo. lia. }
  destruct (nth_error ss (List.length ss - 1)) as [hi|] eqn:Ehi.
  2:{ apply nth_error_None in Ehi. lia. }
  destruct (percentile_at_rank ss 25 Hss Hbig) as (p25 & H25 & E25); [discriminate|].
  destruct (percentile_at_rank ss 50 Hss Hbig) as (med & H50 & E50); [discriminate|].
  destruct (percentile_at_rank ss 75 Hss Hbig) as (p75 & H75 & E75); [discriminate|].
  destruct (percentile_at_rank ss 95 Hss Hbig) as (p95 & H95 & E95); [discriminate|].
  destruct (percentile_at_rank ss 99 Hss Hbig) as (p99 & H99 & E99); [discriminate|].
  assert (Hall : Forall (fun x => lo <= x <= hi) qs).
  { apply Forall_forall. intros x Hx.
    apply (Permutation_in _ (Permutation_sym Hperm)) in Hx.
    apply In_nth_error in Hx as [k Hk].
    assert (k < List.length ss)%nat by (apply nth_error_Some; congruence).
    split.
    - apply (nth_sorted ss 0 k lo x Hs); [lia|exact Elo|exact Hk].
    - apply (nth_sorted ss k (List.length ss - 1) x hi Hs); [lia|exact Hk|exact Ehi]. }
  assert (Hmem : forall k x, nth_error ss k = Some x -> In x qs).
  { intros k x Hk. apply (Permutation_in _ Hperm). eapply nth_error_In, Hk. }
  destruct (percentile_rank64 ss 99 Hss Hbig) as [H99lt _]; [discriminate|].
  assert (H99le : (rank64 (List.length ss) 99 <= List.length ss - 1)%nat) by lia.
  exists lo, p25, med, p75, p95, p99, hi.
  unfold calculateStatistics.
  destruct qs as [|q0 qs']; [congruence|].
  cbn [map]. change (Fin q0 :: map Fin qs') with (map Fin (q0 :: qs')).
  set (qs := q0 :: qs') in *.
  cbn [stats_count stats_min stats_max stats_p25 stats_median stats_p75
       stats_p95 stats_p99 stats_mean].
  rewrite Hsort, !length_map, !nth_error_map, Elo, Ehi.
  change (ofZ 25) with (Fin 25). change (ofZ 50) with (Fin 50).
  change (ofZ 75) with (Fin 75). change (ofZ 95) with (Fin 95).
  change (ofZ 99) with (Fin 99).
  rewrite E25, E50, E75, E95, E99. cbn [option_map].
  split; [reflexivity|]. split; [reflexivity|]. split; [reflexivity|].
  split; [exact (Hmem _ _ Elo)|]. split; [exact (Hmem _ _ Ehi)|].
  split; [exact Hall|].
  do 5 (split; [reflexivity|]).
  split; [exact (Hmem _ _ H25)|]. split; [exact (Hmem _ _ H50)|].
  split; [exact (Hmem _ _ H75)|]. split; [exact (Hmem _ _ H95)|].
  split; [exact (Hmem _ _ H99)|].
  split; [apply (nth_sorted ss _ _ _ _ Hs (Nat.le_0_l _) Elo H25)|].
  split; [apply (nth_sorted ss _ _ _ _ Hs
                   (rank64_mono _ 25 50 Hn' Hbig ltac:(discriminate) ltac:(discriminate))
                   H25 H50)|].
  split; [apply (nth_sorted ss _ _ _ _ Hs
                   (rank64_mono _ 50 75 Hn' Hbig ltac:(discriminate) ltac:(discriminate))
                   H50 H75)|].
  split; [apply (nth_sorted ss _ _ _ _ Hs
                   (rank64_mono _ 75 95 Hn' Hbig ltac:(discriminate) ltac:(discriminate))
                   H75 H95)|].
  split; [apply (nth_sorted ss _ _ _ _ Hs
                   (rank64_mono _ 95 99 Hn' Hbig ltac:(discriminate) ltac:(discriminate))
                   H95 H99)|].
  apply (nth_sorted ss _ _ _ _ Hs H99le H99 Ehi).
Qed.

Lemma calculateStatistics_order_witness :
  let s := calculateStatistics (fun x => x) (fun x _ => x) (map Fin [4; 1; 8; 2]) in
  exists lo p25 med p75 p95 p99 hi : Q,
    stats_count s = List.length [4; 1; 8; 2]
    /\ stats_min s = Some (Fin lo) /\ stats_max s = Some (Fin hi)
    /\ In lo [4; 1; 8; 2] /\ In hi [4; 1; 8; 2]
    /\ Forall (fun x => lo <= x <= hi) [4; 1; 8; 2]
    /\ stats_p25 s = Some (Fin p25) /\ stats_median s = Some (Fin med)
    /\ stats_p75 s = Some (Fin p75) /\ stats_p95 s = Some (Fin p95)
    /\ stats_p99 s = Some (Fin p99)
    /\ In p25 [4; 1; 8; 2] /\ In med [4; 1; 8; 2] /\ In p75 [4; 1; 8; 2]
    /\ In p95 [4; 1; 8; 2] /\ In p99 [4; 1; 8; 2]
    /\ lo <= p25 /\ p25 <= med /\ med <= p75 /\ p75 <= p95 /\ p95 <= p99
    /\ p99 <= hi.
Proof.
  apply (calculateStatistics_order (fun x => x) (fun x _ => x) [4; 1; 8; 2]).
  - discriminate.
  - reflexivity.
Defined.

(** The mean is that of the doubles, and it need not lie between the
    minimum and the maximum: of three values 0.1 it is
    0.10000000000000002. *)
Example calculateStatistics_mean_above_maximum
        (Math_sqrt : number -> number) (Math_pow : number -> number -> number) :
  let tenth := 3602879701896397 # 36028797018963968 in
  let s := calculateStatistics Math_sqrt Math_pow [Fin tenth; Fin tenth; Fin tenth] in
  F64.round (1 # 10) = Fin tenth
  /\ stats_max s = Some (Fin tenth)
  /\ stats_mean s = Fin (7205759403792795 # 72057594037927936)
  /\ tenth < 7205759403792795 # 72057594037927936.
Proof.
  cbv zeta. split; [vm_compute; reflexivity|]. split; [vm_compute; reflexivity|].
  split; [vm_compute; reflexivity|reflexivity].
Qed.

(** ** Objects used as maps: groupByTable and aggregateWalMetrics *)

Section DictFacts.
Context {V : Type}.

Lemma getOwn_set_same (o : Dict.t V) (k : string) (v : V) :
  Dict.getOwn (Dict.set o k v) k = Some v.
Proof.
  induction o as [|[k' v'] o IH]; cbn [Dict.set Dict.getOwn].
  - now rewrite String.eqb_refl.
  - destruct (String.eqb k' k) eqn:E; cbn [Dict.getOwn]; rewrite E; [reflexivity|exact IH].
Qed.

Lemma getOwn_set_other (o : Dict.t V) (k k' : string) (v : V) :
  k <> k' -> Dict.getOwn (Dict.set o k v) k' = Dict.getOwn o k'.
Proof.
  intros Hne. induction o as [|[k0 v0] o IH]; cbn [Dict.set Dict.getOwn].
  - apply String.eqb_neq in Hne. now rewrite Hne.
  - destruct (String.eqb k0 k) eqn:E; cbn [Dict.getOwn]; [|now rewrite IH].
    apply String.eqb_eq in E. subst k0.
    apply String.eqb_neq in Hne. now rewrite Hne.
Qed.

Lemma plain_set (o : Dict.t V) (k : string) (v : V) :
  plain o -> Dict.inherited k = false -> plain (Dict.set o k v).
Proof.
  intros Ho Hk k' Hk'. rewrite getOwn_set_other; [now apply Ho|].
  intros ->. congruence.
Qed.

End DictFacts.

Section UpsertFacts.
Context {A V : Type}.
Variable key : A -> string.
Variable init : A -> V.
Variable step : V -> A -> V.
Variable error : Error.

Local Abbreviation upsertStep := (Dict.upsert key init step error).

Lemma fold_upsert_thrown (data : list A) (e : Error) :
  fold_left upsertStep data (Throw e) = Throw e.
Proof. induction data as [|x data IH]; [reflexivity|exact IH]. Qed.

(** Without a name of the prototype among the keys, the object gets for
    each key the entry folded from the items of that key, in their
    order. *)
Lemma fold_upsert (data : list A) : forall o : Dict.t V,
  Forall (fun x => Dict.inherited (key x) = false) data ->
  exists o', fold_left upsertStep data (Ok o) = Ok o'
    /\ forall k, Dict.getOwn o' k
         = match Dict.getOwn o k with
           | Some v => Some (fold_left step (withKey key k data) v)
           | None => folded init step (withKey key k data)
           end.
Proof.
  induction data as [|x data IH]; intros o Hall.
  - exists o. split; [reflexivity|]. intros k. cbn. now destruct (Dict.getOwn o k).
  - apply Forall_cons_iff in Hall as [Hx Hall].
    cbn [fold_left]. unfold Dict.upsert at 2. rewrite Hx.
    set (v0 := match Dict.getOwn o (key x) with Some v => v | None => init x end).
    assert (Hstep : match Dict.getOwn o (key x) with
                    | Some v => Ok (Dict.set o (key x) (step v x))
                    | None => Ok (Dict.set o (key x) (step (init x) x))
                    end = Ok (Dict.set o (key x) (step v0 x))).
    { subst v0. now destruct (Dict.getOwn o (key x)). }
    rewrite Hstep.
    destruct (IH (Dict.set o (key x) (step v0 x)) Hall) as (o' & Ho' & Hget).
    exists o'. split; [exact Ho'|]. intros k. rewrite Hget.
    unfold withKey. cbn [filter].
    destruct (String.eqb (key x) k) eqn:E.
    + apply String.eqb_eq in E. subst k. rewrite getOwn_set_same.
      subst v0. unfold folded. cbn [fold_left].
      now destruct (Dict.getOwn o (key x)).
    + apply String.eqb_neq in E. now rewrite getOwn_set_other.
Qed.

(** A key that is a name of the prototype makes the update throw. *)
Lemma fold_upsert_inherited (data : list A) : forall o : Dict.t V,
  plain o ->
  Exists (fun x => Dict.inherited (key x) = true) data ->
  fold_left upsertStep data (Ok o) = Throw error.
Proof.
  induction data as [|x data IH]; intros o Ho Hex; [inversion Hex|].
  cbn [fold_left]. unfold Dict.upsert at 2.
  destruct (Dict.inherited (key x)) eqn:Hx.
  - rewrite (Ho _ Hx). apply fold_upsert_thrown.
  - apply Exists_cons in Hex as [Hex|Hex]; [congruence|].
    destruct (Dict.getOwn o (key x)); apply IH; try assumption;
      now apply plain_set.
Qed.

End UpsertFacts.

Lemma plain_empty {V} : plain (@nil (string * V)).
Proof. intros k _. reflexivity. Qed.

Lemma fold_push {A} (l : list A) : forall acc, fold_left push l acc = acc ++ l.
Proof.
  induction l as [|x l IH]; intros acc; cbn [fold_left].
  - now rewrite app_nil_r.
  - rewrite IH. unfold push. now rewrite <- app_assoc.
Qed.

(** When no table name is a member of [Object.prototype], the groups of
    [groupByTable] are, for every name, the items of that table in the
    order of the data, the items without a table name under [unknown];
    a name without items has no group. *)
Lemma groupByTable_groups {A} `{Tabled A} (data : list A) :
  Forall (fun x => Dict.inherited (tableOrUnknown x) = false) data ->
  exists grouped,
    groupByTable data = Ok grouped
    /\ forall t, Dict.getOwn grouped t
         = match withKey tableOrUnknown t data with
           | [] => None
           | group => Some group
           end.
Proof.
  intros Hall. unfold groupByTable.
  destruct (fold_upsert tableOrUnknown (fun _ => []) (fun group item => push group item)
              NotAFunction data [] Hall) as (o' & Ho' & Hget).
  exists o'. split; [exact Ho'|]. intros t. rewrite Hget.
  cbn [Dict.getOwn]. unfold folded.
  destruct (withKey tableOrUnknown t data) as [|x l]; [reflexivity|].
  f_equal. exact (fold_push (x :: l) []).
Qed.

(** A table called like a member of [Object.prototype] makes
    [groupByTable] throw: the member is taken for the group of the
    table. *)
Lemma groupByTable_prototype_name {A} `{Tabled A} (data : list A) :
  Exists (fun x => Dict.inherited (tableOrUnknown x) = true) data ->
  groupByTable data = Throw NotAFunction.
Proof.
  intros Hex. unfold groupByTable.
  apply fold_upsert_inherited; [apply plain_empty|exact Hex].
Qed.

Lemma getOwn_map {V W} (f : V -> W) (o : Dict.t V) (k : string) :
  Dict.getOwn (map (fun e => (fst e, f (snd e))) o) k
  = option_map f (Dict.getOwn o k).
Proof.
  induction o as [|[k' v] o IH]; [reflexivity|].
  cbn [map Dict.getOwn fst snd]. now destruct (String.eqb k' k).
Qed.

Lemma fold_addJob (jobs : list WalJobRecord) : forall m,
  fold_left addJob jobs m
  = {| metric_table := metric_table m;
       metric_jobs := metric_jobs m ++ jobs;
       metric_totalRows := fold_left add (map rows jobs) (metric_totalRows m);
       metric_totalTime := fold_left add (map timeMs jobs) (metric_totalTime m);
       amplifications := amplifications m ++ map amplification jobs;
       avgAmplification := avgAmplification m;
       avgRate := avgRate m;
       jobCount := jobCount m |}.
Proof.
  induction jobs as [|j jobs IH]; intros m; cbn [fold_left map].
  - rewrite !app_nil_r. now destruct m.
  - rewrite IH. cbn [addJob metric_table metric_jobs metric_totalRows
                     metric_totalTime amplifications avgAmplification avgRate
                     jobCount].
    unfold push. now rewrite <- !app_assoc.
Qed.

(** When no table name is a member of [Object.prototype],
    [aggregateWalMetrics] gives every table that has jobs its jobs in the
    order of the data, the sums of their rows and times, their
    amplifications, and the averages and the count taken from these; a
    table without jobs has no entry. *)
Lemma aggregateWalMetrics_per_table (walData : list WalJobRecord) :
  Forall (fun job => Dict.inherited (walJob_table job) = false) walData ->
  exists metrics,
    aggregateWalMetrics walData = Ok metrics
    /\ forall t, Dict.getOwn metrics t
         = match withKey walJob_table t walData with
           | [] => None
           | jobs => Some (tableMetricOf t jobs)
           end.
Proof.
  intros Hall. unfold aggregateWalMetrics.
  destruct (fold_upsert walJob_table newMetric addJob TypeError walData [] Hall)
    as (o' & Ho' & Hget).
  match goal with
  | |- context [fold_left ?f ?d ?a] =>
      replace (fold_left f d a) with (Ok o') by (symmetry; exact Ho')
  end.
  eexists. split; [reflexivity|]. intros t.
  rewrite getOwn_map, Hget. cbn [Dict.getOwn]. unfold folded.
  assert (Hkey : Forall (fun j => walJob_table j = t) (withKey walJob_table t walData)).
  { apply Forall_forall. intros j Hj. apply filter_In in Hj as [_ Hj].
    now apply String.eqb_eq. }
  destruct (withKey walJob_table t walData) as [|j jobs]; [reflexivity|].
  apply Forall_cons_iff in Hkey as [Hj _].
  rewrite fold_addJob. cbn [option_map newMetric metric_table metric_jobs
    metric_totalRows metric_totalTime amplifications avgAmplification avgRate
    jobCount app addAverages].
  unfold tableMetricOf, sum, addAverages.
  cbn [metric_table metric_jobs metric_totalRows metric_totalTime amplifications].
  now rewrite Hj, length_map.
Qed.

(** A job of a table called like a member of [Object.prototype] makes
    [aggregateWalMetrics] throw. *)
Lemma aggregateWalMetrics_prototype_name (walData : list WalJobRecord) :
  Exists (fun job => Dict.inherited (walJob_table job) = true) walData ->
  aggregateWalMetrics walData = Throw TypeError.
Proof.
  intros Hex. unfold aggregateWalMetrics.
  match goal with
  | |- context [fold_left ?f ?d ?a] =>
      replace (fold_left f d a) with (@Throw (Dict.t TableMetric) TypeError)
  end; [reflexivity|].
  symmetry. apply fold_upsert_inherited; [apply plain_empty|exact Hex].
Qed.

(** ** getTopQueries *)

Section DictKeys.
Context {V : Type}.

Lemma set_keys (o : Dict.t V) (k : string) (v : V) :
  map fst (Dict.set o k v)
  = match Dict.getOwn o k with
    | Some _ => map fst o
    | None => map fst o ++ [k]
    end.
Proof.
  induction o as [|[k' v'] o IH]; cbn [Dict.set Dict.getOwn map fst app]; [reflexivity|].
  destruct (String.eqb k' k) eqn:E; cbn [map fst]; [reflexivity|].
  rewrite IH. now destruct (Dict.getOwn o k).
Qed.

Lemma getOwn_absent (o : Dict.t V) (k : string) :
  Dict.getOwn o k = None -> ~ In k (map fst o).
Proof.
  induction o as [|[k' v'] o IH]; cbn [Dict.getOwn map fst]; [intros _ []|].
  destruct (String.eqb k' k) eqn:E; [discriminate|].
  intros H [->|Hin]; [|now apply IH].
  now rewrite String.eqb_refl in E.
Qed.

Lemma getOwn_In (o : Dict.t V) (k : string) (v : V) :
  Dict.getOwn o k = Some v -> In (k, v) o.
Proof.
  induction o as [|[k' v'] o IH]; cbn [Dict.getOwn]; [discriminate|].
  destruct (String.eqb k' k) eqn:E.
  - apply String.eqb_eq in E. intros [= <-]. subst. now left.
  - intros H. right. now apply IH.
Qed.

Lemma In_getOwn (o : Dict.t V) (k : string) (v : V) :
  NoDup (map fst o) -> In (k, v) o -> Dict.getOwn o k = Some v.
Proof.
  induction o as [|[k' v'] o IH]; cbn [Dict.getOwn map fst]; [intros _ []|].
  intros Hnd Hin. apply NoDup_cons_iff in Hnd as [Hnin Hnd].
  destruct Hin as [[= -> ->]|Hin].
  - now rewrite String.eqb_refl.
  - destruct (String.eqb k' k) eqn:E; [|now apply IH].
    apply String.eqb_eq in E. subst k'. exfalso. apply Hnin.
    apply in_map_iff. now exists (k, v).
Qed.

Lemma dict_entries_perm (o : Dict.t V) : Permutation (Dict.entries o) o.
Proof.
  unfold Dict.entries. rewrite sort_perm. apply filter_split_perm.
Qed.

End DictKeys.

Section UpsertKeys.
Context {A V : Type}.
Variable key : A -> string.
Variable init : A -> V.
Variable step : V -> A -> V.
Variable error : Error.

Lemma fold_upsert_keys (data : list A) : forall o o' : Dict.t V,
  fold_left (Dict.upsert key init step error) data (Ok o) = Ok o' ->
  NoDup (map fst o) ->
  NoDup (map fst o')
  /\ (List.length o' <= List.length o + List.length data)%nat.
Proof.
  induction data as [|x data IH]; intros o o' Hfold Hnd.
  - cbn in Hfold. injection Hfold as <-. split; [exact Hnd|cbn; lia].
  - cbn [fold_left] in Hfold. unfold Dict.upsert at 2 in Hfold.
    assert (Hset : forall v,
              NoDup (map fst (Dict.set o (key x) v))
              /\ (List.length (Dict.set o (key x) v) <= S (List.length o))%nat).
    { intros v. rewrite <- (length_map fst), <- (length_map fst o), set_keys.
      destruct (Dict.getOwn o (key x)) eqn:E; [split; [exact Hnd|lia]|].
      split.
      - apply NoDup_app; [exact Hnd|repeat constructor; intros []|].
        intros k Hk [<-|[]]. now apply (getOwn_absent o (key x)).
      - rewrite length_app. cbn. lia. }
    cbn [List.length].
    destruct (Dict.getOwn o (key x)) as [v|].
    + destruct (Hset (step v x)) as [H1 H2].
      destruct (IH _ _ Hfold H1) as [H3 H4]. split; [exact H3|lia].
    + destruct (Dict.inherited (key x)).
      * now rewrite fold_upsert_thrown in Hfold.
      * destruct (Hset (step (init x) x)) as [H1 H2].
        destruct (IH _ _ Hfold H1) as [H3 H4]. split; [exact H3|lia].
Qed.

End UpsertKeys.

Lemma fold_addTime (items : list QueryRecord) : forall s,
  fold_left addTime items s
  = {| stat_query := stat_query s; stat_fullSql := stat_fullSql s;
       stat_times := stat_times s ++ map executionTimeMs items;
       stat_count := (stat_count s + List.length items)%nat;
       stat_totalTime :=
         fold_left add (map executionTimeMs items) (stat_totalTime s);
       stat_avgTime := stat_avgTime s; stat_maxTime := stat_maxTime s;
       stat_minTime := stat_minTime s;
       stat_p99 := stat_p99 s; stat_p95 := stat_p95 s; stat_p50 := stat_p50 s |}.
Proof.
  induction items as [|x items IH]; intros s; cbn [fold_left map List.length].
  - rewrite app_nil_r, Nat.add_0_r. now destruct s.
  - rewrite IH. cbn [addTime stat_query stat_fullSql stat_times stat_count
                     stat_totalTime stat_avgTime stat_maxTime stat_minTime
                     stat_p99 stat_p95 stat_p50].
    unfold push. rewrite <- app_assoc. cbn [app].
    now replace (S (stat_count s) + List.length items)%nat
      with (stat_count s + S (List.length items))%nat by lia.
Qed.

Lemma In_firstn {A} (n : nat) (l : list A) (x : A) : In x (firstn n l) -> In x l.
Proof.
  intros H. rewrite <- (firstn_skipn n l). apply in_or_app. now left.
Qed.

Lemma NoDup_firstn {A} (n : nat) (l : list A) : NoDup l -> NoDup (firstn n l).
Proof.
  intros H. rewrite <- (firstn_skipn n l) in H. now apply NoDup_app_remove_r in H.
Qed.

Lemma sorted_firstn {A} (R : A -> A -> Prop) (l : list A) : forall n,
  StronglySorted R l -> StronglySorted R (firstn n l).
Proof.
  induction l as [|x l IH]; intros n Hs; [now rewrite firstn_nil|].
  destruct n as [|n]; [constructor|].
  apply StronglySorted_inv in Hs as [Hs Hx]. cbn [firstn].
  constructor; [now apply IH|].
  rewrite Forall_forall in Hx |- *. intros y Hy. apply Hx.
  now apply In_firstn in Hy.
Qed.

Lemma sliceTo_firstn {A} (l : list A) (limit : Z) :
  exists n, sliceTo l limit = firstn n l
            /\ ((0 <= limit)%Z -> n = Z.to_nat limit).
Proof.
  unfold sliceTo. destruct (0 <=? limit)%Z eqn:E.
  - eexists. split; [reflexivity|]. reflexivity.
  - eexists. split; [reflexivity|]. intros H. apply Z.leb_gt in E. lia.
Qed.

(** What [getTopQueries] sorts and cuts: one entry for each preview of
    the data, holding the statistics of the queries of that preview. *)
Lemma getTopQueries_entries (data : list QueryRecord) (limit : Z) :
  Forall (fun x => Dict.inherited (sqlPreview x) = false) data ->
  exists entries,
    getTopQueries data limit = Ok (sliceTo (sort slower entries) limit)
    /\ Forall (fun s => queryStatOf (withKey sqlPreview (stat_query s) data) = Some s)
              entries
    /\ NoDup (map stat_query entries)
    /\ (List.length entries <= List.length data)%nat
    /\ forall x, In x data -> In (sqlPreview x) (map stat_query entries).
Proof.
  intros Hall. unfold getTopQueries.
  destruct (fold_upsert sqlPreview newStat addTime TypeError data [] Hall)
    as (o' & Ho' & Hget).
  destruct (fold_upsert_keys sqlPreview newStat addTime TypeError data [] o' Ho')
    as [Hnd Hlen]; [constructor|].
  match goal with
  | |- context [fold_left ?f ?d ?a] =>
      replace (fold_left f d a) with (Ok o') by (symmetry; exact Ho')
  end.
  exists (map addStatistics (Dict.values o')). split; [reflexivity|].
  assert (Hentry : forall k v, In (k, v) o' ->
            queryStatOf (withKey sqlPreview k data) = Some (addStatistics v)
            /\ stat_query (addStatistics v) = k).
  { intros k v Hin. apply In_getOwn in Hin; [|exact Hnd].
    rewrite Hget in Hin. cbn [Dict.getOwn] in Hin. unfold folded in Hin.
    assert (Hkey : Forall (fun x => sqlPreview x = k) (withKey sqlPreview k data)).
    { apply Forall_forall. intros x Hx. apply filter_In in Hx as [_ Hx].
      now apply String.eqb_eq. }
    destruct (withKey sqlPreview k data) as [|x items]; [discriminate|].
    apply Forall_cons_iff in Hkey as [Hx _].
    injection Hin as <-. rewrite fold_addTime.
    cbn [newStat stat_query stat_fullSql stat_times stat_count stat_totalTime
         stat_avgTime stat_maxTime stat_minTime stat_p99 stat_p95 stat_p50
         app Nat.add].
    split; [|exact Hx]. reflexivity. }
  assert (Hperm : Permutation (Dict.values o') (map snd o')).
  { unfold Dict.values. apply Permutation_map, dict_entries_perm. }
  assert (Hkeys : Permutation (map stat_query (map addStatistics (Dict.values o')))
                              (map fst o')).
  { rewrite Hperm, !map_map. apply Permutation_refl'.
    apply map_ext_in. intros [k v] Hin. cbn [fst snd].
    now apply Hentry. }
  split; [|split; [|split]].
  - apply Forall_forall. intros s Hs.
    apply in_map_iff in Hs as (v & <- & Hv).
    apply (Permutation_in _ Hperm) in Hv.
    apply in_map_iff in Hv as ([k v'] & <- & Hin). cbn [snd].
    destruct (Hentry k v' Hin) as [H1 H2]. now rewrite H2.
  - apply (Permutation_NoDup (Permutation_sym Hkeys) Hnd).
  - rewrite length_map, (Permutation_length Hperm), length_map.
    cbn [List.length] in Hlen. lia.
  - intros x Hx. apply (Permutation_in _ (Permutation_sym Hkeys)).
    assert (Hin : In x (withKey sqlPreview (sqlPreview x) data)).
    { apply filter_In. split; [exact Hx|apply String.eqb_refl]. }
    specialize (Hget (sqlPreview x)). cbn [Dict.getOwn] in Hget.
    unfold folded in Hget.
    destruct (withKey sqlPreview (sqlPreview x) data) as [|y items]; [destruct Hin|].
    apply getOwn_In in Hget. apply in_map_iff.
    eexists (_, _). split; [|exact Hget]. reflexivity.
Qed.

(** When no preview is a member of [Object.prototype], [getTopQueries]
    returns at most [limit] entries, of distinct previews, each holding
    the statistics of the queries of its preview: their number, their
    total, average and extreme times, their times in ascending order and
    the percentiles of these.  With a limit that is not below the number
    of queries, every preview of the data has its entry. *)
Lemma getTopQueries_statistics (data : list QueryRecord) (limit : Z) :
  Forall (fun x => Dict.inherited (sqlPreview x) = false) data ->
  exists top,
    getTopQueries data limit = Ok top
    /\ Forall (fun s => queryStatOf (withKey sqlPreview (stat_query s) data) = Some s)
              top
    /\ NoDup (map stat_query top)
    /\ ((0 <= limit)%Z -> (List.length top <= Z.to_nat limit)%nat)
    /\ ((Z.of_nat (List.length data) <= limit)%Z ->
        forall x, In x data -> In (sqlPreview x) (map stat_query top)).
Proof.
  intros Hall.
  destruct (getTopQueries_entries data limit Hall)
    as (entries & Htop & Hstat & Hnd & Hlen & Hin).
  destruct (sliceTo_firstn (sort slower entries) limit) as (n & Hn & Hlimit).
  exists (sliceTo (sort slower entries) limit). split; [exact Htop|].
  rewrite Hn.
  split; [|split; [|split]].
  - apply Forall_forall. intros s Hs. apply In_firstn in Hs.
    apply (Permutation_in _ (sort_perm slower entries)) in Hs.
    rewrite Forall_forall in Hstat. now apply Hstat.
  - rewrite <- firstn_map. apply NoDup_firstn.
    apply (Permutation_NoDup
             (Permutation_sym (Permutation_map stat_query (sort_perm slower entries)))).
    exact Hnd.
  - intros H0. rewrite (Hlimit H0). apply firstn_le_length.
  - intros Hbig x Hx.
    assert (H0 : (0 <= limit)%Z) by lia.
    rewrite (Hlimit H0), firstn_all2.
    + apply (Permutation_in _ (Permutation_sym
               (Permutation_map stat_query (sort_perm slower entries)))).
      now apply Hin.
    + rewrite (Permutation_length (sort_perm slower entries)). lia.
Qed.

(** A query whose preview is a member of [Object.prototype] makes
    [getTopQueries] throw. *)
Lemma getTopQueries_prototype_name (data : list QueryRecord) (limit : Z) :
  Exists (fun x => Dict.inherited (sqlPreview x) = true) data ->
  getTopQueries data limit = Throw TypeError.
Proof.
  intros Hex. unfold getTopQueries.
  match goal with
  | |- context [fold_left ?f ?d ?a] =>
      replace (fold_left f d a) with (@Throw (Dict.t QueryStat) TypeError)
  end; [reflexivity|].
  symmetry. apply fold_upsert_inherited; [apply plain_empty|exact Hex].
Qed.

Lemma finite_values {A} (f : A -> number) (items : list A) :
  Forall (fun x => exists q, f x = Fin q) items ->
  exists qs, map f items = map Fin qs.
Proof.
  induction 1 as [|x items [q Hq] _ [qs IH]]; [now exists []|].
  exists (q :: qs). cbn [map]. now rewrite Hq, IH.
Qed.

Lemma queryStatOf_ordered (items : list QueryRecord) (s : QueryStat) :
  queryStatOf items = Some s ->
  (Z.of_nat (List.length items) < 2 ^ 53)%Z ->
  Forall (fun x => exists q, executionTimeMs x = Fin q) items ->
  ordered s.
Proof.
  intros Hs Hmany Hfin. destruct (finite_values _ items Hfin) as [qs Hqs].
  assert (Hsame : List.length qs = List.length items)
    by (rewrite <- (length_map Fin qs), <- Hqs; apply length_map).
  rewrite <- Hsame in Hmany. clear Hsame.
  destruct items as [|x items]; [discriminate|].
  destruct qs as [|q0 qs']; [discriminate|].
  unfold queryStatOf in Hs. rewrite Hqs in Hs. injection Hs as <-.
  destruct (sort_numbers (q0 :: qs')) as (Hsort & Hsorted & Hperm).
  set (qs := q0 :: qs') in *. set (ss := sort Qgt_bool qs) in *.
  assert (Hss : ss <> []).
  { intros E. rewrite E in Hperm. apply Permutation_nil in Hperm. discriminate. }
  assert (Hbig : (Z.of_nat (List.length ss) < 2 ^ 53)%Z)
    by (rewrite (Permutation_length Hperm); exact Hmany).
  assert (Hn : (0 < List.length ss)%nat) by (destruct ss; [congruence|cbn; lia]).
  destruct (percentile_at_rank ss 50 Hss Hbig) as (p50 & H50 & E50); [discriminate|].
  destruct (percentile_at_rank ss 95 Hss Hbig) as (p95 & H95 & E95); [discriminate|].
  destruct (percentile_at_rank ss 99 Hss Hbig) as (p99 & H99 & E99); [discriminate|].
  exists (Qleast q0 qs'), p50, p95, p99, (Qgreatest q0 qs').
  cbn [stat_minTime stat_maxTime stat_p50 stat_p95 stat_p99].
  change (insertSorted num_gt (Fin q0) (sort num_gt (map Fin qs')))
    with (sort num_gt (map Fin qs)).
  change (Fin q0 :: map Fin qs') with (map Fin (q0 :: qs')).
  rewrite Hsort. subst qs. rewrite Math_min_Fin, Math_max_Fin.
  change (ofZ 50) with (Fin 50). change (ofZ 95) with (Fin 95).
  change (ofZ 99) with (Fin 99). rewrite E50, E95, E99.
  do 5 (split; [reflexivity|]).
  split; [apply Qleast_le, (Permutation_in _ Hperm); eapply nth_error_In; exact H50|].
  split; [apply (nth_sorted ss _ _ _ _ Hsorted
                   (rank64_mono _ 50 95 Hn Hbig ltac:(discriminate) ltac:(discriminate))
                   H50 H95)|].
  split; [apply (nth_sorted ss _ _ _ _ Hsorted
                   (rank64_mono _ 95 99 Hn Hbig ltac:(discriminate) ltac:(discriminate))
                   H95 H99)|].
  apply Qgreatest_ge, (Permutation_in _ Hperm). eapply nth_error_In; exact H99.
Qed.

(** When no preview is a member of [Object.prototype] and every execution
    time is a finite number, the entries of [getTopQueries] come with the
    greatest maximum first, and in each of them the minimum, the
    percentiles 50, 95 and 99 and the maximum are in this order.  The
    queries are fewer than 2^32, as in every array. *)
Theorem getTopQueries_order (data : list QueryRecord) (limit : Z) :
  (Z.of_nat (List.length data) < 2 ^ 32)%Z ->
  Forall (fun x => Dict.inherited (sqlPreview x) = false) data ->
  Forall (fun x => exists q, executionTimeMs x = Fin q) data ->
  exists top,
    getTopQueries data limit = Ok top
    /\ StronglySorted (fun a b => maxTimeOf b <= maxTimeOf a) top
    /\ Forall ordered top.
Proof.
  intros Hmany Hall Hfin.
  destruct (getTopQueries_entries data limit Hall)
    as (entries & Htop & Hstat & _).
  destruct (sliceTo_firstn (sort slower entries) limit) as (n & Hn & _).
  exists (sliceTo (sort slower entries) limit). split; [exact Htop|].
  rewrite Hn.
  assert (Hord : Forall ordered entries).
  { rewrite Forall_forall in Hstat |- *. intros s Hs.
    apply (queryStatOf_ordered _ s (Hstat s Hs)).
    - apply array_length_small.
      eapply Z.le_lt_trans; [|exact Hmany].
      apply Nat2Z.inj_le, filter_length_le.
    - rewrite Forall_forall in Hfin |- *. intros x Hx.
      apply filter_In in Hx as [Hx _]. now apply Hfin. }
  split.
  - apply sorted_firstn.
    apply (sort_ordered slower (fun a b => maxTimeOf b <= maxTimeOf a) ordered);
      [| | |exact Hord].
    + intros a b (? & ? & ? & ? & x & _ & _ & _ & _ & Ha & _)
               (? & ? & ? & ? & y & _ & _ & _ & _ & Hb & _) E.
      unfold slower, maxTimeOf in *. rewrite Ha, Hb in *.
      change (isPositive (sub (Fin y) (Fin x))) with (num_gt (Fin y) (Fin x)) in E.
      rewrite num_gt_Fin in E. unfold Qgt_bool in E.
      apply Bool.negb_true_iff in E. apply Qlt_le_weak. now apply Qle_bool_false.
    + intros a b (? & ? & ? & ? & x & _ & _ & _ & _ & Ha & _)
               (? & ? & ? & ? & y & _ & _ & _ & _ & Hb & _) E.
      unfold slower, maxTimeOf in *. rewrite Ha, Hb in *.
      change (isPositive (sub (Fin y) (Fin x))) with (num_gt (Fin y) (Fin x)) in E.
      rewrite num_gt_Fin in E. unfold Qgt_bool in E.
      apply Bool.negb_false_iff in E. now apply Qle_bool_iff.
    + intros a b c _ _ _ H1 H2. eapply Qle_trans; eassumption.
  - rewrite Forall_forall in Hord |- *. intros s Hs. apply Hord.
    apply In_firstn in Hs. now apply (Permutation_in _ (sort_perm slower entries)).
Qed.

Lemma getTopQueries_order_witness :
  exists top,
    getTopQueries [queryOf "SELECT a" 5; queryOf "SELECT b" 7; queryOf "SELECT a" 9] 12
    = Ok top
    /\ StronglySorted (fun a b => maxTimeOf b <= maxTimeOf a) top
    /\ Forall ordered top.
Proof.
  apply (getTopQueries_order
           [queryOf "SELECT a" 5; queryOf "SELECT b" 7; queryOf "SELECT a" 9] 12).
  - reflexivity.
  - repeat constructor.
  - repeat constructor; eexists; reflexivity.
Defined.

(** ** The outcome of the three aggregations *)

Lemma Exists_or_Forall {A} (p : A -> bool) (l : list A) :
  Exists (fun x => p x = true) l \/ Forall (fun x => p x = false) l.
Proof.
  induction l as [|x l [IH|IH]].
  - right. constructor.
  - left. now right.
  - destruct (p x) eqn:E; [left; now left|right; now constructor].
Qed.

(** [groupByTable] throws when a table is called like a member of
    [Object.prototype], which it takes for the group of the table.
    Otherwise its groups are, for every name, the items of that table in
    the order of the data, the items without a table name under
    [unknown]; a name without items has no group. *)
Theorem groupByTable_outcome {A} `{Tabled A} (data : list A) :
  (Exists (fun x => Dict.inherited (tableOrUnknown x) = true) data
   /\ groupByTable data = Throw NotAFunction)
  \/ (Forall (fun x => Dict.inherited (tableOrUnknown x) = false) data
      /\ exists grouped,
           groupByTable data = Ok grouped
           /\ forall t, Dict.getOwn grouped t
                = match withKey tableOrUnknown t data with
                  | [] => None
                  | group => Some group
                  end).
Proof.
  destruct (Exists_or_Forall (fun x => Dict.inherited (tableOrUnknown x)) data)
    as [Hex|Hall].
  - left. split; [exact Hex|now apply groupByTable_prototype_name].
  - right. split; [exact Hall|now apply groupByTable_groups].
Qed.

(** [aggregateWalMetrics] throws when a job is of a table called like a
    member of [Object.prototype].  Otherwise it gives every table that
    has jobs its jobs in the order of the data, the sums of their rows
    and times, their amplifications, and the averages and the count taken
    from these; a table without jobs has no entry. *)
Theorem aggregateWalMetrics_outcome (walData : list WalJobRecord) :
  (Exists (fun job => Dict.inherited (walJob_table job) = true) walData
   /\ aggregateWalMetrics walData = Throw TypeError)
  \/ (Forall (fun job => Dict.inherited (walJob_table job) = false) walData
      /\ exists metrics,
           aggregateWalMetrics walData = Ok metrics
           /\ forall t, Dict.getOwn metrics t
                = match withKey walJob_table t walData with
                  | [] => None
                  | jobs => Some (tableMetricOf t jobs)
                  end).
Proof.
  destruct (Exists_or_Forall (fun job => Dict.inherited (walJob_table job)) walData)
    as [Hex|Hall].
  - left. split; [exact Hex|now apply aggregateWalMetrics_prototype_name].
  - right. split; [exact Hall|now apply aggregateWalMetrics_per_table].
Qed.

(** [getTopQueries] throws when a query has a preview that is the name of
    a member of [Object.prototype].  Otherwise it returns at most [limit]
    entries, of distinct previews, each holding the statistics of the
    queries of its preview: their number, their total, average and
    extreme times, their times in ascending order and the percentiles of
    these.  With a limit that is not below the number of queries, every
    preview of the data has its entry. *)
Theorem getTopQueries_outcome (data : list QueryRecord) (limit : Z) :
  (Exists (fun x => Dict.inherited (sqlPreview x) = true) data
   /\ getTopQueries data limit = Throw TypeError)
  \/ (Forall (fun x => Dict.inherited (sqlPreview x) = false) data
      /\ exists top,
           getTopQueries data limit = Ok top
           /\ Forall (fun s => queryStatOf (withKey sqlPreview (stat_query s) data)
                               = Some s) top
           /\ NoDup (map stat_query top)
           /\ ((0 <= limit)%Z -> (List.length top <= Z.to_nat limit)%nat)
           /\ ((Z.of_nat (List.length data) <= limit)%Z ->
               forall x, In x data -> In (sqlPreview x) (map stat_query top))).
Proof.
  destruct (Exists_or_Forall (fun x => Dict.inherited (sqlPreview x)) data)
    as [Hex|Hall].
  - left. split; [exact Hex|now apply getTopQueries_prototype_name].
  - right. split; [exact Hall|now apply getTopQueries_statistics].
Qed.

(** ** groupBySecond and the degenerate cases of groupByInterval *)

Section SortUnique.
Context {A : Type} (gt : A -> A -> bool) (f : A -> Z).

Lemma sorted_perm_unique (l1 : list A) : forall l2,
  StronglySorted (fun a b => (f a < f b)%Z) l1 ->
  StronglySorted (fun a b => (f a < f b)%Z) l2 ->
  Permutation l1 l2 -> l1 = l2.
Proof.
  induction l1 as [|x l1 IH]; intros l2 H1 H2 Hp.
  - apply Permutation_nil in Hp. now subst.
  - destruct l2 as [|y l2]; [apply Permutation_sym, Permutation_nil in Hp; discriminate|].
    apply StronglySorted_inv in H1 as [H1 Hx].
    apply StronglySorted_inv in H2 as [H2 Hy].
    rewrite Forall_forall in Hx, Hy.
    assert (E : x = y).
    { assert (Hxin : In x (y :: l2)) by (apply (Permutation_in _ Hp); now left).
      assert (Hyin : In y (x :: l1))
        by (apply (Permutation_in _ (Permutation_sym Hp)); now left).
      destruct Hxin as [E|Hxin]; [now symmetry|].
      destruct Hyin as [E|Hyin]; [exact E|].
      specialize (Hx y Hyin). specialize (Hy x Hxin). cbv beta in *. lia. }
    subst y. f_equal. apply IH; [assumption|assumption|].
    now apply Permutation_cons_inv in Hp.
Qed.

(** A comparator that reads distinct keys sorts the arrays of the same
    values to the same array. *)
Lemma sort_perm_unique (l1 l2 : list A) :
  Permutation l1 l2 ->
  NoDup (map f l1) ->
  (forall a b, In a l1 -> In b l1 -> gt a b = (f a >? f b)%Z) ->
  sort gt l1 = sort gt l2.
Proof.
  intros Hp Hnd Hgt. apply sorted_perm_unique.
  - apply sorted_strict; [now apply sort_sorted|].
    apply (Permutation_NoDup
             (Permutation_sym (Permutation_map f (sort_perm gt l1))) Hnd).
  - apply sorted_strict.
    + apply sort_sorted. intros a b Ha Hb.
      apply Hgt; now apply (Permutation_in _ (Permutation_sym Hp)).
    + apply (Permutation_NoDup
               (Permutation_sym (Permutation_map f (sort_perm gt l2)))).
      apply (Permutation_NoDup (Permutation_map f Hp) Hnd).
  - now rewrite !sort_perm.
Qed.

End SortUnique.

Section GroupBySecondFacts.
Context {A : Type} {TS : Timestamped A} {TM : Timed A}.
Variable LocalTZA : Z -> bool -> Z.

Lemma fold_addToSecond (data : list A) : forall grouped,
  Forall (fun x => timestamp x <> InvalidDate) data ->
  Forall (wholeSecond LocalTZA) data ->
  fold_left (addToSecond LocalTZA) data (Ok grouped)
  = Ok (fold_left (addItem 1000) data grouped).
Proof.
  induction data as [|x data IH]; intros grouped Hall Hsec; [reflexivity|].
  apply Forall_cons_iff in Hall as [Hx Hall].
  apply Forall_cons_iff in Hsec as [Hs Hsec]. cbn [fold_left].
  rewrite <- (IH _ Hall Hsec). f_equal.
  unfold addToSecond, addItem, intervalKey. unfold wholeSecond in Hs.
  destruct (timestamp x) as [t|]; [|congruence]. cbn [getTime] in *.
  rewrite (Hs t eq_refl).
  change (1000 =? 0)%Z with false. cbv iota.
  now destruct (Obj.get grouped (Some (t / 1000 * 1000)%Z)).
Qed.

Lemma fold_addToSecond_thrown (data : list A) (e : Error) :
  fold_left (addToSecond LocalTZA) data (Throw e) = Throw e.
Proof. induction data as [|x data IH]; [reflexivity|exact IH]. Qed.

Lemma fold_addToSecond_invalid (data : list A) : forall grouped,
  Exists (fun x => timestamp x = InvalidDate) data ->
  fold_left (addToSecond LocalTZA) data (Ok grouped) = Throw RangeError.
Proof.
  induction data as [|x data IH]; intros grouped Hex; [inversion Hex|].
  cbn [fold_left]. unfold addToSecond at 2.
  destruct (timestamp x) as [t|] eqn:Ht; cbn [getTime].
  - apply Exists_cons in Hex as [Hex|Hex]; [congruence|].
    destruct (Obj.get grouped (Some (setMilliseconds0 LocalTZA t)));
      now apply IH.
  - apply fold_addToSecond_thrown.
Qed.

(** The buckets of the properties of [grouped] have valid dates, all
    distinct, when the interval is positive and the dates of the data are
    valid. *)
Lemma buckets_distinct (intervalMs : Z) (data : list A)
      (grouped : Obj.t (list A)) :
  (0 < intervalMs)%Z ->
  (forall x, In x data -> timestamp x <> InvalidDate) ->
  Grouped intervalMs grouped data ->
  (forall b, In b (map makeBucket grouped) ->
     bucket_timestamp b = ValidDate (bucketTime b))
  /\ NoDup (map bucketTime (map makeBucket grouped)).
Proof.
  intros Hpos Hvalid Hg.
  assert (Hkey : forall k its, In (k, its) grouped -> exists z, k = Some z).
  { intros k its Hin.
    now destruct (grouped_entry intervalMs Hpos data Hvalid grouped k its Hg Hin). }
  split.
  - intros b Hb. apply in_map_iff in Hb as ([k its] & <- & Hin).
    destruct (Hkey k its Hin) as [z ->]. reflexivity.
  - rewrite map_map.
    assert (E : map (fun e => bucketTime (makeBucket e)) grouped
                = map (fun k : Obj.key => match k with Some z => z | None => 0%Z end)
                      (map fst grouped))
      by (rewrite map_map; apply map_ext; now intros [[z|] its]).
    rewrite E. destruct Hg as (Hnd & _).
    apply NoDup_map_NoDup_ForallPairs; [|exact Hnd].
    intros k1 k2 H1 H2 Heq.
    apply in_map_iff in H1 as ([k1' its1] & <- & H1).
    apply in_map_iff in H2 as ([k2' its2] & <- & H2).
    destruct (Hkey _ _ H1) as [z1 ->]. destruct (Hkey _ _ H2) as [z2 ->].
    cbn in Heq |- *. congruence.
Qed.

End GroupBySecondFacts.

(** Where the offset of the local time from UTC is a fixed number of
    whole seconds, as it is on a host in UTC, the milliseconds are set to
    0 by going down to the whole second. *)
Lemma setMilliseconds0_fixed_offset (seconds t : Z) :
  setMilliseconds0 (fun _ _ => seconds * 1000)%Z t = (t / 1000 * 1000)%Z.
Proof.
  unfold setMilliseconds0, LocalTime, UTC.
  rewrite Z.mod_add by lia.
  pose proof (Z.div_mod t 1000 ltac:(lia)). lia.
Qed.

(** On data whose dates are all valid, and on a host that sets the
    milliseconds of these dates to 0 by going down to the whole second,
    [groupBySecond] returns the buckets of [groupByInterval] for the
    interval of 1000 ms. *)
Theorem groupBySecond_is_groupByInterval_1000
        {A : Type} {TS : Timestamped A} {TM : Timed A}
        (LocalTZA : Z -> bool -> Z) (data : list A) :
  Forall (fun x => timestamp x <> InvalidDate) data ->
  Forall (wholeSecond LocalTZA) data ->
  groupBySecond LocalTZA data = Ok (groupByInterval data 1000).
Proof.
  intros Hall Hsec. unfold groupBySecond, groupByInterval.
  match goal with
  | |- context [fold_left ?f ?d ?a] =>
      replace (fold_left f d a) with (Ok (fold_left (addItem 1000) data []))
        by (symmetry; exact (fold_addToSecond LocalTZA data [] Hall Hsec))
  end.
  f_equal.
  set (grouped := fold_left (addItem 1000) data []).
  assert (Hg : Grouped 1000 grouped data).
  { apply (fold_addItem_grouped 1000 data [] []). repeat split.
    - constructor.
    - destruct H.
    - destruct H.
    - reflexivity. }
  rewrite Forall_forall in Hall.
  destruct (buckets_distinct 1000 data grouped ltac:(lia) Hall Hg) as [Hvalid Hnd].
  apply (sort_perm_unique bucket_gt bucketTime).
  - apply Permutation_map, Permutation_sym, entries_perm.
  - exact Hnd.
  - intros a b Ha Hb.
    apply (bucket_gt_valid a b (bucketTime a) (bucketTime b)); now apply Hvalid.
Qed.

Lemma groupBySecond_is_groupByInterval_1000_witness :
  groupBySecond (fun _ _ => 3600000%Z) offOriginQueries
  = Ok (groupByInterval offOriginQueries 1000).
Proof.
  apply (groupBySecond_is_groupByInterval_1000
           (fun _ _ => 3600000%Z) offOriginQueries).
  - repeat constructor; discriminate.
  - repeat constructor; intros t [= <-]; reflexivity.
Defined.

(** Where the summer time ends, the two groupings differ: in
    Europe/Berlin the queries of 00:30:00.200 and of 01:30:00.500 UTC on
    26 October 2025 are both of 02:30 local time, and [groupBySecond]
    puts them in one bucket, of 00:30:00 UTC, where [groupByInterval] has
    a bucket for each. *)
Example groupBySecond_repeated_hour :
  let data := [queryAt 1761438600200 10; queryAt 1761442200500 20] in
  (exists b,
     groupBySecond berlinOffset data = Ok [b]
     /\ bucket_timestamp b = ValidDate 1761438600000
     /\ items b = data)
  /\ map bucket_timestamp (groupByInterval data 1000)
     = [ValidDate 1761438600000; ValidDate 1761442200000].
Proof. split; [eexists|]; vm_compute; repeat split. Qed.

(** An item whose date is invalid makes [groupBySecond] throw, where
    [groupByInterval] makes a bucket of it. *)
Theorem groupBySecond_invalid_date
        {A : Type} {TS : Timestamped A} {TM : Timed A}
        (LocalTZA : Z -> bool -> Z) (data : list A) :
  Exists (fun x => timestamp x = InvalidDate) data ->
  groupBySecond LocalTZA data = Throw RangeError
  /\ groupByInterval data 1000 <> [].
Proof.
  intros Hex. split.
  - unfold groupBySecond.
    match goal with
    | |- context [fold_left ?f ?d ?a] =>
        replace (fold_left f d a) with (@Throw (Obj.t (list A)) RangeError)
          by (symmetry; exact (fold_addToSecond_invalid LocalTZA data [] Hex))
    end.
    reflexivity.
  - destruct (groupByInterval_grouped 1000 data) as (grouped & (_ & _ & Hp) & Hperm).
    intros E. rewrite E in Hperm. apply Permutation_nil in Hperm.
    destruct grouped; [|discriminate]. cbn in Hp.
    apply Permutation_nil in Hp. subst data. inversion Hex.
Qed.

Lemma groupBySecond_invalid_date_witness :
  groupBySecond berlinOffset (offOriginQueries ++ [undatedQuery])
  = Throw RangeError
  /\ groupByInterval (offOriginQueries ++ [undatedQuery]) 1000 <> [].
Proof.
  apply (groupBySecond_invalid_date berlinOffset
           (offOriginQueries ++ [undatedQuery])).
  apply Exists_exists. exists undatedQuery. split; [|reflexivity].
  apply in_or_app. right. now left.
Defined.

Lemma fold_addItem_no_key {A : Type} {TS : Timestamped A} (intervalMs : Z)
      (data : list A) : forall its,
  Forall (fun x => intervalKey intervalMs x = None) data ->
  fold_left (addItem intervalMs) data [(None, its)] = [(None, its ++ data)].
Proof.
  induction data as [|x data IH]; intros its Hall; cbn [fold_left].
  - now rewrite app_nil_r.
  - apply Forall_cons_iff in Hall as [Hx Hall].
    unfold addItem at 2. rewrite Hx. cbn [Obj.get Obj.set Obj.key_eqb].
    rewrite (IH _ Hall). unfold push. now rewrite <- app_assoc.
Qed.

(** With the interval 0, or when no item has a valid date,
    [groupByInterval] puts all the items, in their order, in one bucket
    whose date is invalid. *)
Theorem groupByInterval_one_invalid_bucket
        {A : Type} {TS : Timestamped A} {TM : Timed A}
        (data : list A) (intervalMs : Z) :
  data <> [] ->
  intervalMs = 0%Z \/ Forall (fun x => timestamp x = InvalidDate) data ->
  exists b,
    groupByInterval data intervalMs = [b]
    /\ bucket_timestamp b = InvalidDate
    /\ items b = data
    /\ count b = List.length data.
Proof.
  intros Hne Hcase.
  assert (Hkey : Forall (fun x => intervalKey intervalMs x = None) data).
  { apply Forall_forall. intros x Hx. unfold intervalKey.
    destruct Hcase as [->|Hinv].
    - now destruct (getTime (timestamp x)).
    - rewrite Forall_forall in Hinv. now rewrite (Hinv x Hx). }
  destruct data as [|x data]; [congruence|].
  exists (makeBucket (None, x :: data)).
  split; [|now cbn].
  unfold groupByInterval. cbn [fold_left].
  apply Forall_cons_iff in Hkey as [Hx Hkey].
  unfold addItem at 2. rewrite Hx. cbn [Obj.get Obj.set].
  rewrite (fold_addItem_no_key intervalMs data _ Hkey).
  reflexivity.
Qed.

Lemma groupByInterval_one_invalid_bucket_witness :
  exists b,
    groupByInterval offOriginQueries 0 = [b]
    /\ bucket_timestamp b = InvalidDate
    /\ items b = offOriginQueries
    /\ count b = List.length offOriginQueries.
Proof.
  apply (groupByInterval_one_invalid_bucket offOriginQueries 0).
  - discriminate.
  - now left.
Defined.

(** ** createHistogramBins: the number of bins *)

Lemma arrayGet_nil {A} (i : number) : arrayGet (@nil A) i = None.
Proof.
  destruct i as [q| | |]; cbn [arrayGet]; try reflexivity.
  destruct (Qeq_bool q (inject_Z (Qfloor q)) && (0 <=? Qfloor q)%Z); [|reflexivity].
  now destruct (Z.to_nat (Qfloor q)).
Qed.

(** Without a bin to count in, the first value makes
    [createHistogramBins] throw: this is so for every number of bins that
    is not positive, on any data that is not empty. *)
Theorem createHistogramBins_no_bins (data : list number) (binCount : Z) :
  data <> [] ->
  (binCount <= 0)%Z ->
  createHistogramBins data binCount = Throw TypeError.
Proof.
  intros Hne Hcount. unfold createHistogramBins.
  destruct data as [|v data]; [congruence|].
  unfold emptyBins. replace (Z.to_nat binCount) with 0%nat by lia.
  cbn [List.seq map fold_left]. unfold populate at 2.
  rewrite arrayGet_nil. apply populate_thrown.
Qed.

Lemma createHistogramBins_no_bins_witness :
  createHistogramBins [ofZ 1; ofZ 2; ofZ 4] 0 = Throw TypeError.
Proof.
  apply (createHistogramBins_no_bins [ofZ 1; ofZ 2; ofZ 4] 0).
  - discriminate.
  - lia.
Defined.

(** ** utils/FileUtils.js *)

Lemma fdiv_Fin (x y : Q) : 0 < y -> fdiv (Fin x) (Fin y) = F64.round (x / y).
Proof. intros Hy. unfold fdiv. cbn [div]. now rewrite (Qcompare_pos y Hy). Qed.

(** A rounded value is between the doubles its argument is between. *)
Lemma round_between (lo hi x : Q) :
  F64.round lo = Fin lo -> F64.round hi = Fin hi -> lo <= x <= hi ->
  exists r, F64.round x = Fin r /\ lo <= r <= hi.
Proof.
  intros Hlo Hhi [H1 H2].
  pose proof (round_mono lo x H1) as M1. pose proof (round_mono x hi H2) as M2.
  rewrite Hlo in M1. rewrite Hhi in M2.
  destruct (F64.round x) as [r| | |]; cbn [nle] in M1, M2; try easy.
  now exists r.
Qed.

(** For a total that is not 0 and a current value from 0 to the total,
    [calculateProgress] is an integer from 0 to 100, the one nearest to
    the percentage or, when the percentage is within 10^-12 of the middle
    of two integers, one of the two; it is 100 at the total, and for the
    total 0 it is 0. *)
Theorem calculateProgress_percentage (current total : Q) :
  0 <= current -> current <= total -> 0 < total ->
  exists n : Z,
    calculateProgress (Fin current) (Fin total) = ofZ n
    /\ (0 <= n <= 100)%Z
    /\ inject_Z n - (1 # 2) - (1 # 1000000000000) <= current / total * 100
    /\ current / total * 100 <= inject_Z n + (1 # 2) + (1 # 1000000000000)
    /\ calculateProgress (Fin total) (Fin total) = ofZ 100
    /\ calculateProgress (Fin current) (Fin 0) = Fin 0.
Proof.
  intros H0 Hle Hpos.
  assert (Hz : Qeq_bool total 0 = false).
  { destruct (Qeq_bool total 0) eqn:E; [|reflexivity].
    apply Qeq_bool_iff in E. rewrite E in Hpos. now apply Qlt_irrefl in Hpos. }
  assert (R0 : F64.round 0 = Fin 0) by reflexivity.
  assert (R1 : F64.round 1 = Fin 1) by (vm_compute; reflexivity).
  assert (R100 : F64.round 100 = Fin 100) by (vm_compute; reflexivity).
  assert (Hratio : 0 <= current / total <= 1).
  { split.
    - apply Qle_shift_div_l; [exact Hpos|]. now rewrite Qmult_0_l.
    - apply Qle_shift_div_r; [exact Hpos|]. now rewrite Qmult_1_l. }
  set (x := current / total) in *.
  destruct (round_between 0 1 x R0 R1 Hratio) as (y & Ey & Hy).
  assert (Hy100 : 0 <= y * inject_Z 100 <= 100)
    by (change (inject_Z 100) with 100; split; lra).
  destruct (round_between 0 100 _ R0 R100 Hy100) as (z & Ez & Hz100).
  assert (Hprogress : calculateProgress (Fin current) (Fin total)
                      = ofZ (Qfloor (z + (1 # 2)))).
  { unfold calculateProgress, isZero. rewrite Hz, (fdiv_Fin _ _ Hpos).
    fold x. rewrite Ey. unfold fmul, ofZ. cbn [mul F64.rounded].
    now rewrite Ez. }
  assert (Heps : 2 ^ (-53) == 1 # 9007199254740992) by reflexivity.
  pose proof (pow2_pos (-1075)) as Peta.
  assert (Heta : 2 ^ (-1075) <= 1 # 9007199254740992)
    by (rewrite <- Heps; apply pow2_le; lia).
  destruct (round_finite_error x y (proj1 Hratio) Ey) as [Ey1 Ey2].
  destruct (round_finite_error _ z (proj1 Hy100) Ez) as [Ez1 Ez2].
  change (inject_Z 100) with 100 in Ez1, Ez2.
  rewrite Heps in Ey1, Ey2, Ez1, Ez2.
  set (eta := 2 ^ (-1075)) in *.
  exists (Qfloor (z + (1 # 2))).
  split; [exact Hprogress|].
  pose proof (Qfloor_le (z + (1 # 2))) as Hfl.
  pose proof (Qlt_floor (z + (1 # 2))) as Hlt.
  rewrite inject_Z_plus in Hlt. change (inject_Z 1) with 1 in Hlt.
  split.
  { split.
    - change 0%Z with (Qfloor 0). apply Qfloor_resp_le. lra.
    - assert (H : inject_Z (Qfloor (z + (1 # 2))) < inject_Z 101).
      { eapply Qle_lt_trans; [exact Hfl|]. change (inject_Z 101) with 101. lra. }
      rewrite <- Zlt_Qlt in H. lia. }
  split; [lra|]. split; [lra|]. split; [|reflexivity].
  unfold calculateProgress, isZero. rewrite Hz, (fdiv_Fin _ _ Hpos).
  assert (E : total / total == 1)
    by (field; intros E; rewrite E in Hpos; now apply Qlt_irrefl in Hpos).
  rewrite (round_comp _ 1 E), R1. vm_compute. reflexivity.
Qed.

Lemma calculateProgress_percentage_witness :
  exists n : Z,
    calculateProgress (Fin 23) (Fin 40) = ofZ n
    /\ (0 <= n <= 100)%Z
    /\ inject_Z n - (1 # 2) - (1 # 1000000000000) <= 23 / 40 * 100
    /\ 23 / 40 * 100 <= inject_Z n + (1 # 2) + (1 # 1000000000000)
    /\ calculateProgress (Fin 40) (Fin 40) = ofZ 100
    /\ calculateProgress (Fin 23) (Fin 0) = Fin 0.
Proof.
  apply (calculateProgress_percentage 23 40).
  - discriminate.
  - discriminate.
  - reflexivity.
Defined.

(** The integer is not always the nearest one going up: 23 of 40 are
    57.5 per cent, the doubles give 57.49999999999999, and the progress is
    57. *)
Example calculateProgress_rounds_down :
  23 / 40 * 100 == 57 + (1 # 2)
  /\ Qfloor (23 / 40 * 100 + (1 # 2)) = 58%Z
  /\ calculateProgress (ofZ 23) (ofZ 40) = ofZ 57.
Proof. split; [reflexivity|]. split; vm_compute; reflexivity. Qed.

Lemma toLowerCase_app (a b : string) :
  toLowerCase (a ++ b) = (toLowerCase a ++ toLowerCase b)%string.
Proof. induction a as [|c a IH]; cbn; [reflexivity|now rewrite IH]. Qed.

Lemma toLowerCase_split (a : string) : forall s b,
  toLowerCase s = (a ++ b)%string ->
  exists s1 s2, s = (s1 ++ s2)%string /\ toLowerCase s1 = a /\ toLowerCase s2 = b.
Proof.
  induction a as [|c a IH]; intros s b E.
  - exists EmptyString, s. auto.
  - destruct s as [|d s]; [discriminate|].
    cbn in E. injection E as Ec E.
    destruct (IH s b E) as (s1 & s2 & -> & H1 & H2).
    exists (String d s1), s2. cbn. rewrite H1, Ec. auto.
Qed.

Lemma endsWith_iff (s suffix : string) :
  endsWith s suffix = true <-> exists stem, s = (stem ++ suffix)%string.
Proof.
  split.
  - induction s as [|c s IH]; cbn [endsWith]; intros H;
      apply Bool.orb_true_iff in H as [H|H].
    + apply String.eqb_eq in H. subst suffix. now exists EmptyString.
    + discriminate.
    + apply String.eqb_eq in H. subst suffix. now exists EmptyString.
    + destruct (IH H) as [stem ->]. now exists (String c stem).
  - intros [stem ->]. induction stem as [|c stem IH].
    + cbn [append]. destruct suffix; cbn [endsWith]; now rewrite String.eqb_refl.
    + cbn [append endsWith]. rewrite IH. apply Bool.orb_true_r.
Qed.

(** [isValidLogFile] accepts exactly the files whose name ends with
    [.log] or [.txt], in whatever case, and those whose type is empty or
    one of the three types of text; a good type makes up for any name,
    and a good name for any type. *)
Theorem isValidLogFile_accepts (file : FileInfo) :
  isValidLogFile file = true
  <-> (exists stem ext,
          info_name file = (stem ++ ext)%string
          /\ (toLowerCase ext = ".log" \/ toLowerCase ext = ".txt"))
      \/ In (info_type file)
            [""; "text/plain"; "text/log"; "application/octet-stream"].
Proof.
  unfold isValidLogFile. cbn [existsb].
  rewrite !Bool.orb_false_r, !Bool.orb_true_iff, !endsWith_iff, !String.eqb_eq.
  split.
  - intros [[[stem E]|[stem E]]|[[H|[H|H]]|H]].
    + left. destruct (toLowerCase_split _ _ _ E) as (s1 & s2 & -> & _ & H2). eauto.
    + left. destruct (toLowerCase_split _ _ _ E) as (s1 & s2 & -> & _ & H2). eauto.
    + right. cbn. auto.
    + right. cbn. auto.
    + right. cbn. auto.
    + right. cbn. auto.
  - intros [(stem & ext & E & [H|H])|[H|[H|[H|[H|[]]]]]].
    + left. left. exists (toLowerCase stem). now rewrite E, toLowerCase_app, H.
    + left. right. exists (toLowerCase stem). now rewrite E, toLowerCase_app, H.
    + right. right. now symmetry.
    + right. left. left. now symmetry.
    + right. left. right. left. now symmetry.
    + right. left. right. right. now symmetry.
Qed.

(* ================================================================== *)
(** * Properties of the store *)
(* ================================================================== *)

(** ** The order of strings *)

Lemma ascii_compare_refl (a : ascii) : Ascii.compare a a = Eq.
Proof. unfold Ascii.compare. apply N.compare_refl. Qed.

Lemma ascii_compare_lt_trans (a b c : ascii) :
  Ascii.compare a b = Lt -> Ascii.compare b c = Lt -> Ascii.compare a c = Lt.
Proof.
  unfold Ascii.compare. rewrite !N.compare_lt_iff. apply N.lt_trans.
Qed.

Lemma string_compare_lt_trans (a : string) : forall b c,
  String.compare a b = Lt -> String.compare b c = Lt -> String.compare a c = Lt.
Proof.
  induction a as [|x a IH]; intros [|y b] [|z c]; cbn [String.compare];
    try discriminate; try reflexivity.
  destruct (Ascii.compare x y) eqn:E1; try discriminate;
    destruct (Ascii.compare y z) eqn:E2; try discriminate; intros H1 H2.
  - apply Ascii.compare_eq_iff in E1, E2. subst.
    rewrite ascii_compare_refl. now apply (IH b c).
  - apply Ascii.compare_eq_iff in E1. subst. now rewrite E2.
  - apply Ascii.compare_eq_iff in E2. subst. now rewrite E1.
  - now rewrite (ascii_compare_lt_trans x y z E1 E2).
Qed.

Lemma sort_strings (l : list string) :
  NoDup l -> StronglySorted (fun a b => String.compare a b = Lt) (sort string_gt l).
Proof.
  intros Hnd.
  assert (Hs : StronglySorted (fun a b => String.compare a b <> Gt)
                              (sort string_gt l)).
  { apply (sort_ordered string_gt _ (fun _ => True)).
    - intros a b _ _ E. unfold string_gt in E.
      rewrite String.compare_antisym.
      destruct (String.compare a b); try discriminate; cbn; discriminate.
    - intros a b _ _ E. unfold string_gt in E.
      destruct (String.compare a b); try discriminate.
    - intros a b c _ _ _ H1 H2.
      destruct (String.compare a b) eqn:E1; [| |congruence].
      + apply String.compare_eq_iff in E1. now subst.
      + destruct (String.compare b c) eqn:E2; [| |congruence].
        * apply String.compare_eq_iff in E2. subst. rewrite E1. discriminate.
        * rewrite (string_compare_lt_trans a b c E1 E2). discriminate.
    - apply Forall_forall. intros; exact I. }
  assert (Hnd' : NoDup (sort string_gt l))
    by (apply (Permutation_NoDup (Permutation_sym (sort_perm string_gt l)) Hnd)).
  revert Hs Hnd'. generalize (sort string_gt l). clear.
  induction l as [|x l IH]; intros Hs Hnd; [constructor|].
  apply StronglySorted_inv in Hs as [Hs Hx].
  apply NoDup_cons_iff in Hnd as [Hnin Hnd].
  constructor; [now apply IH|].
  rewrite Forall_forall in Hx |- *. intros y Hy. specialize (Hx y Hy).
  destruct (String.compare x y) eqn:E; [|reflexivity|congruence].
  apply String.compare_eq_iff in E. now subst.
Qed.

(** ** getUniqueTables and filterByTable *)

Lemma setAdd_spec (tables : list string) (t : string) :
  NoDup tables ->
  NoDup (setAdd tables t) /\ forall s, In s (setAdd tables t) <-> In s tables \/ s = t.
Proof.
  intros Hnd. unfold setAdd.
  destruct (existsb (String.eqb t) tables) eqn:E.
  - split; [exact Hnd|]. intros s. split; [auto|]. intros [H| ->]; [exact H|].
    apply existsb_exists in E as (x & Hx & Ex). apply String.eqb_eq in Ex. now subst.
  - assert (Hnin : ~ In t tables).
    { intros Hin. assert (existsb (String.eqb t) tables = true); [|congruence].
      apply existsb_exists. exists t. split; [exact Hin|apply String.eqb_refl]. }
    unfold push. split.
    + apply NoDup_app; [exact Hnd|repeat constructor; intros []|].
      intros s Hs [<-|[]]. contradiction.
    + intros s. rewrite in_app_iff. cbn. intuition.
Qed.

Lemma fold_addTable {A} {TB : Tabled A} (data : list A) : forall tables,
  NoDup tables ->
  NoDup (fold_left addTable data tables)
  /\ forall t, In t (fold_left addTable data tables)
               <-> In t tables \/ (t <> EmptyString /\ hasTable t data).
Proof.
  unfold hasTable.
  induction data as [|x data IH]; intros tables Hnd; cbn [fold_left].
  - split; [exact Hnd|]. intros t. split; [auto|].
    intros [H|[_ H]]; [exact H|inversion H].
  - assert (Hstep : NoDup (addTable tables x)
              /\ forall t, In t (addTable tables x)
                   <-> In t tables \/ (t <> EmptyString /\ table x = Some t)).
    { unfold addTable. destruct (table x) as [[|c s]|].
      - split; [exact Hnd|]. intros t. split; [auto|].
        intros [Hin|[Hne [= <-]]]; [exact Hin|congruence].
      - destruct (setAdd_spec tables (String c s) Hnd) as [H1 H2].
        split; [exact H1|]. intros t. rewrite H2. split.
        + intros [Hin| ->]; [now left|]. right. split; [discriminate|reflexivity].
        + intros [Hin|[_ [= <-]]]; auto.
      - split; [exact Hnd|]. intros t. split; [auto|].
        intros [Hin|[_ E]]; [exact Hin|discriminate]. }
    destruct Hstep as [Hnd' Hin'].
    destruct (IH _ Hnd') as [H1 H2]. split; [exact H1|].
    intros t. rewrite H2, Hin', Exists_cons. tauto.
Qed.

Lemma getUniqueTables_members (st : DataStore) :
  NoDup (getUniqueTables st)
  /\ forall t, In t (getUniqueTables st)
       <-> t <> EmptyString
           /\ (hasTable t (walData st) \/ hasTable t (errorData st)
               \/ hasTable t (partitionClosingData st)).
Proof.
  unfold getUniqueTables. cbv zeta.
  destruct (fold_addTable (walData st) [] (NoDup_nil _)) as [N1 H1].
  destruct (fold_addTable (errorData st) _ N1) as [N2 H2].
  destruct (fold_addTable (partitionClosingData st) _ N2) as [N3 H3].
  split.
  - apply (Permutation_NoDup (Permutation_sym (sort_perm _ _)) N3).
  - intros t. split.
    + intros Hin. apply (Permutation_in _ (sort_perm _ _)) in Hin.
      apply H3 in Hin. rewrite H2, H1 in Hin. cbn [In] in Hin. tauto.
    + intros Hin. apply (Permutation_in _ (Permutation_sym (sort_perm _ _))).
      apply H3. rewrite H2, H1. cbn [In]. tauto.
Qed.

(** [getUniqueTables] lists, in the strictly ascending order of their
    code units, the names that are not empty of the tables of the WAL
    jobs, of the system events and of the partition closings, each once.
    The tables of the WAL commits are not looked at. *)
Theorem getUniqueTables_listing (st : DataStore) :
  StronglySorted (fun a b => String.compare a b = Lt) (getUniqueTables st)
  /\ (forall t, In t (getUniqueTables st)
        <-> t <> EmptyString
            /\ (hasTable t (walData st) \/ hasTable t (errorData st)
                \/ hasTable t (partitionClosingData st)))
  /\ forall commits,
       getUniqueTables
         {| parsedData := parsedData st; errorData := errorData st;
            walData := walData st; store_walCommits := commits;
            partitionClosingData := partitionClosingData st;
            pgwireConnectionData := pgwireConnectionData st;
            store_fileMetadata := store_fileMetadata st;
            listeners := listeners st |}
       = getUniqueTables st.
Proof.
  split; [|split; [apply getUniqueTables_members|reflexivity]].
  unfold getUniqueTables. cbv zeta. apply sort_strings.
  destruct (fold_addTable (walData st) [] (NoDup_nil _)) as [N1 _].
  destruct (fold_addTable (errorData st) _ N1) as [N2 _].
  now destruct (fold_addTable (partitionClosingData st) _ N2) as [N3 _].
Qed.

Lemma filter_tableIs {A} {TB : Tabled A} (t : string) (data : list A) :
  (filter (tableIs t) data <> [] <-> hasTable t data)
  /\ Forall (fun item => table item = Some t) (filter (tableIs t) data).
Proof.
  assert (Hiff : forall x, tableIs t x = true <-> table x = Some t).
  { intros x. unfold tableIs. destruct (table x) as [s|]; [|split; discriminate].
    rewrite String.eqb_eq. split; congruence. }
  split; [|apply Forall_forall; intros x Hx; apply filter_In in Hx; now apply Hiff].
  unfold hasTable. rewrite Exists_exists. split.
  - intros Hne. destruct (filter (tableIs t) data) as [|x l] eqn:E; [congruence|].
    assert (Hx : In x (filter (tableIs t) data)) by (rewrite E; now left).
    apply filter_In in Hx as [Hx Ht]. exists x. split; [exact Hx|now apply Hiff].
  - intros (x & Hx & Ht) E.
    assert (Hin : In x (filter (tableIs t) data))
      by (apply filter_In; split; [exact Hx|now apply Hiff]).
    now rewrite E in Hin.
Qed.

Lemma filter_tableIs_members {A} {TB : Tabled A} (t : string) (data : list A) :
  forall x, In x (filter (tableIs t) data) <-> In x data /\ table x = Some t.
Proof.
  intros x. rewrite filter_In. unfold tableIs.
  destruct (table x) as [s|]; [|split; intros [? ?]; discriminate].
  rewrite String.eqb_eq. split; intros [? ?]; split; congruence.
Qed.

(** For a name other than [all], [filterByTable] leaves the queries, the
    connections and the file metadata as they are, and of the WAL jobs,
    the WAL commits, the system events and the partition closings it
    keeps those of that table, all of them and nothing else, in the order
    and in the number in which the store has them.  A name that is not
    empty is listed by [getUniqueTables] exactly when its view holds a WAL
    job, a system event or a partition closing. *)
Theorem filterByTable_view (st : DataStore) (tableName : string) :
  tableName <> "all" ->
  tableName <> EmptyString ->
  let view := filterByTable st tableName in
  view_queries view = parsedData st
  /\ view_pgwireConnections view = pgwireConnectionData st
  /\ view_fileMetadata view = store_fileMetadata st
  /\ Forall (fun w => walJob_table w = tableName) (view_walJobs view)
  /\ Forall (fun c => walCommit_table c = tableName) (view_walCommits view)
  /\ Forall (fun e => event_table e = Some tableName) (view_errors view)
  /\ Forall (fun p => closing_table p = tableName) (view_partitionClosings view)
  /\ (In tableName (getUniqueTables st)
      <-> view_walJobs view <> [] \/ view_errors view <> []
          \/ view_partitionClosings view <> [])
  /\ view_walJobs view
     = filter (fun w => String.eqb (walJob_table w) tableName) (walData st)
  /\ view_walCommits view
     = filter (fun c => String.eqb (walCommit_table c) tableName)
              (store_walCommits st)
  /\ view_errors view
     = filter (fun e => match event_table e with
                        | Some t => String.eqb t tableName
                        | None => false
                        end) (errorData st)
  /\ view_partitionClosings view
     = filter (fun p => String.eqb (closing_table p) tableName)
              (partitionClosingData st)
  /\ (forall w, In w (view_walJobs view)
                <-> In w (walData st) /\ walJob_table w = tableName)
  /\ (forall c, In c (view_walCommits view)
                <-> In c (store_walCommits st) /\ walCommit_table c = tableName)
  /\ (forall e, In e (view_errors view)
                <-> In e (errorData st) /\ event_table e = Some tableName)
  /\ (forall p, In p (view_partitionClosings view)
                <-> In p (partitionClosingData st)
                    /\ closing_table p = tableName).
Proof.
  intros Hall Hne. cbv zeta. unfold filterByTable.
  apply String.eqb_neq in Hall. rewrite Hall.
  cbn [view_queries view_pgwireConnections view_fileMetadata view_walJobs
       view_walCommits view_errors view_partitionClosings].
  do 3 (split; [reflexivity|]).
  split.
  { eapply Forall_impl; [|apply (filter_tableIs tableName (walData st))].
    intros w Hw. change (Some (walJob_table w) = Some tableName) in Hw.
    congruence. }
  split.
  { eapply Forall_impl; [|apply (filter_tableIs tableName (store_walCommits st))].
    intros c Hc. change (Some (walCommit_table c) = Some tableName) in Hc.
    congruence. }
  split; [apply (filter_tableIs tableName (errorData st))|].
  split.
  { eapply Forall_impl; [|apply (filter_tableIs tableName (partitionClosingData st))].
    intros p Hp. change (Some (closing_table p) = Some tableName) in Hp.
    congruence. }
  split.
  { destruct (getUniqueTables_members st) as [_ Hin]. rewrite Hin.
    rewrite (proj1 (filter_tableIs tableName (walData st))),
            (proj1 (filter_tableIs tableName (errorData st))),
            (proj1 (filter_tableIs tableName (partitionClosingData st))).
    tauto. }
  do 4 (split; [reflexivity|]).
  split.
  { intros w. rewrite (filter_tableIs_members tableName (walData st) w).
    change (table w) with (Some (walJob_table w)).
    split; intros [? ?]; split; congruence. }
  split.
  { intros c. rewrite (filter_tableIs_members tableName (store_walCommits st) c).
    change (table c) with (Some (walCommit_table c)).
    split; intros [? ?]; split; congruence. }
  split.
  { intros e. apply (filter_tableIs_members tableName (errorData st) e). }
  intros p. rewrite (filter_tableIs_members tableName (partitionClosingData st) p).
  change (table p) with (Some (closing_table p)).
  split; intros [? ?]; split; congruence.
Qed.

Lemma filterByTable_view_witness :
  let view := filterByTable sampleStore "trades" in
  view_queries view = parsedData sampleStore
  /\ view_pgwireConnections view = pgwireConnectionData sampleStore
  /\ view_fileMetadata view = store_fileMetadata sampleStore
  /\ Forall (fun w => walJob_table w = "trades") (view_walJobs view)
  /\ Forall (fun c => walCommit_table c = "trades") (view_walCommits view)
  /\ Forall (fun e => event_table e = Some "trades") (view_errors view)
  /\ Forall (fun p => closing_table p = "trades") (view_partitionClosings view)
  /\ (In "trades" (getUniqueTables sampleStore)
      <-> view_walJobs view <> [] \/ view_errors view <> []
          \/ view_partitionClosings view <> [])
  /\ view_walJobs view = [jobOf "trades" 1]
  /\ view_walCommits view = [commitOf "trades"]
  /\ view_errors view = []
  /\ view_partitionClosings view = partitionClosingData sampleStore
  /\ (forall w, In w (view_walJobs view)
                <-> In w (walData sampleStore) /\ walJob_table w = "trades")
  /\ (forall c, In c (view_walCommits view)
                <-> In c (store_walCommits sampleStore)
                    /\ walCommit_table c = "trades")
  /\ (forall e, In e (view_errors view)
                <-> In e (errorData sampleStore) /\ event_table e = Some "trades")
  /\ (forall p, In p (view_partitionClosings view)
                <-> In p (partitionClosingData sampleStore)
                    /\ closing_table p = "trades").
Proof.
  apply (filterByTable_view sampleStore "trades"); discriminate.
Defined.

(** ** Listeners and the results of a batch *)

Lemma emit_calls (st : DataStore) (event : string) (data : Payload) :
  Dict.inherited event = false ->
  emit st event data = Ok (callsOf (listenersOf st event) data).
Proof.
  intros Hi. unfold emit, listenersOf. rewrite Hi.
  now destruct (Dict.getOwn (listeners st) event).
Qed.

Lemma notify_calls (st : DataStore) (event : string) (data : Payload) :
  Dict.inherited event = false ->
  notify st event data = Ok (st, callsOf (listenersOf st event) data).
Proof. intros Hi. unfold notify. now rewrite emit_calls. Qed.

Lemma fold_addFileMetadata (entries : list FileMetadata) : forall st calls,
  exists st' calls',
    fold_left (fun s entry => s >>> fun st => addFileMetadata st entry)
              entries (Ok (st, calls)) = Ok (st', calls')
    /\ getAllData st'
       = {| view_queries := parsedData st;
            view_walJobs := walData st;
            view_walCommits := store_walCommits st;
            view_errors := errorData st;
            view_partitionClosings := partitionClosingData st;
            view_pgwireConnections := pgwireConnectionData st;
            view_fileMetadata := store_fileMetadata st ++ entries |}
    /\ listeners st' = listeners st.
Proof.
  induction entries as [|entry entries IH]; intros st calls; cbn [fold_left].
  - exists st, calls. rewrite app_nil_r. now destruct st.
  - cbn [andThen]. unfold addFileMetadata. rewrite notify_calls by reflexivity.
    match goal with
    | |- context [Ok (?s, ?c)] =>
        destruct (IH s c) as (st' & calls' & Hf & Hv & Hl)
    end.
    exists st', calls'. split; [exact Hf|].
    rewrite Hv, Hl. cbn. unfold push. now rewrite <- app_assoc.
Qed.

(** Whatever the store held, after [processFiles] it holds the merged
    collections of the batch and the metadata of its files and nothing
    else, with the listeners it had; nothing is thrown, and the calls of
    the listeners end with those of the completion event, given the
    merged collections. *)
Theorem publish_replaces_data (st : DataStore) (batch : BatchState) :
  exists st' calls,
    publish st batch = Ok (st', calls ++ callsOf (listenersOf st "filesProcessed")
                                            (AllResults (allResults batch)))
    /\ getAllData st'
       = {| view_queries := queries (allResults batch);
            view_walJobs := walJobs (allResults batch);
            view_walCommits := walCommits (allResults batch);
            view_errors := systemEvents (allResults batch);
            view_partitionClosings := partitionClosings (allResults batch);
            view_pgwireConnections := pgwireConnections (allResults batch);
            view_fileMetadata := fileMetadata batch |}
    /\ listeners st' = listeners st.
Proof.
  destruct (fold_addFileMetadata (fileMetadata batch) (reset st) [])
    as (st1 & calls1 & Hf & Hv & Hl).
  unfold publish. cbv zeta. rewrite Hf.
  unfold setQueryData, setWalData, setWalCommits, setPartitionClosingData,
    setPgwireConnectionData, setErrorData.
  repeat (cbn [andThen parsedData errorData walData store_walCommits
                 partitionClosingData pgwireConnectionData store_fileMetadata
                 listeners];
          rewrite notify_calls by reflexivity).
  cbn [andThen parsedData errorData walData store_walCommits
       partitionClosingData pgwireConnectionData store_fileMetadata listeners].
  unfold getAllData in Hv. injection Hv as _ _ _ _ _ _ Hmeta.
  cbn [reset store_fileMetadata app] in Hmeta.
  eexists. eexists. split.
  - unfold listenersOf. cbn [listeners]. rewrite Hl. cbn [reset listeners].
    reflexivity.
  - cbn. now rewrite Hmeta.
Qed.

Lemma removeFirst_last (callback : Callback) (a : list Callback) :
  ~ In callback a -> removeFirst callback (a ++ [callback]) = a.
Proof.
  induction a as [|c a IH]; intros Hnin; cbn [app removeFirst].
  - now rewrite Nat.eqb_refl.
  - destruct (Nat.eqb_spec c callback) as [->|_]; [destruct Hnin; now left|].
    rewrite IH; [reflexivity|]. intros Hin. apply Hnin. now right.
Qed.

(** For an event that is not called like a member of [Object.prototype]:
    a listener that is registered is called after those that were, with
    the data of the event; [off] takes away one registration of it, the
    earliest, so that taking away a listener that was not registered
    before leaves the calls as they were; the listeners of the other
    events, the data and, through a [reset], the listeners themselves are
    not touched. *)
Theorem listeners_on_off (st : DataStore) (event : string)
        (callback : Callback) (data : Payload) :
  Dict.inherited event = false ->
  exists st1 st2,
    on st event callback = Ok st1
    /\ off st1 event callback = Ok st2
    /\ emit st event data = Ok (callsOf (listenersOf st event) data)
    /\ emit st1 event data
       = Ok (callsOf (listenersOf st event ++ [callback]) data)
    /\ emit st2 event data
       = Ok (callsOf (removeFirst callback (listenersOf st event ++ [callback]))
                     data)
    /\ (~ In callback (listenersOf st event) ->
        emit st2 event data = emit st event data)
    /\ (forall other, other <> event ->
          emit st1 other data = emit st other data
          /\ emit st2 other data = emit st other data)
    /\ emit (reset st1) event data = emit st1 event data
    /\ getAllData st1 = getAllData st
    /\ getAllData st2 = getAllData st.
Proof.
  intros Hi.
  set (l1 := Dict.set (listeners st) event (push (listenersOf st event) callback)).
  set (l2 := Dict.set l1 event (removeFirst callback (listenersOf st event ++ [callback]))).
  assert (Hon : on st event callback = Ok (withListeners st l1)).
  { unfold on, l1, listenersOf. rewrite Hi.
    now destruct (Dict.getOwn (listeners st) event). }
  assert (Hget1 : Dict.getOwn l1 event = Some (listenersOf st event ++ [callback]))
    by apply getOwn_set_same.
  assert (Hoff : off (withListeners st l1) event callback
                 = Ok (withListeners (withListeners st l1) l2)).
  { unfold off. cbn [withListeners listeners]. now rewrite Hget1. }
  assert (Hget2 : Dict.getOwn l2 event
                  = Some (removeFirst callback (listenersOf st event ++ [callback])))
    by apply getOwn_set_same.
  exists (withListeners st l1), (withListeners (withListeners st l1) l2).
  split; [exact Hon|]. split; [exact Hoff|].
  split; [now apply emit_calls|].
  assert (E1 : emit (withListeners st l1) event data
               = Ok (callsOf (listenersOf st event ++ [callback]) data)).
  { unfold emit. cbn [withListeners listeners]. now rewrite Hget1. }
  assert (E2 : emit (withListeners (withListeners st l1) l2) event data
               = Ok (callsOf (removeFirst callback (listenersOf st event ++ [callback]))
                             data)).
  { unfold emit. cbn [withListeners listeners]. now rewrite Hget2. }
  split; [exact E1|]. split; [exact E2|].
  split.
  { intros Hnin. rewrite E2, removeFirst_last by exact Hnin.
    symmetry. now apply emit_calls. }
  split.
  { intros other Hne. unfold emit. cbn [withListeners listeners]. unfold l2, l1.
    rewrite !getOwn_set_other by congruence. split; reflexivity. }
  split; [reflexivity|]. split; reflexivity.
Qed.

Lemma listeners_on_off_witness :
  exists st1 st2,
    on sampleStore "queryDataChanged" 7%nat = Ok st1
    /\ off st1 "queryDataChanged" 7%nat = Ok st2
    /\ emit sampleStore "queryDataChanged" (Queries [])
       = Ok (callsOf (listenersOf sampleStore "queryDataChanged") (Queries []))
    /\ emit st1 "queryDataChanged" (Queries [])
       = Ok (callsOf (listenersOf sampleStore "queryDataChanged" ++ [7%nat])
                     (Queries []))
    /\ emit st2 "queryDataChanged" (Queries [])
       = Ok (callsOf (removeFirst 7%nat
                        (listenersOf sampleStore "queryDataChanged" ++ [7%nat]))
                     (Queries []))
    /\ (~ In 7%nat (listenersOf sampleStore "queryDataChanged") ->
        emit st2 "queryDataChanged" (Queries [])
        = emit sampleStore "queryDataChanged" (Queries []))
    /\ (forall other, other <> "queryDataChanged" ->
          emit st1 other (Queries []) = emit sampleStore other (Queries [])
          /\ emit st2 other (Queries []) = emit sampleStore other (Queries []))
    /\ emit (reset st1) "queryDataChanged" (Queries [])
       = emit st1 "queryDataChanged" (Queries [])
    /\ getAllData st1 = getAllData sampleStore
    /\ getAllData st2 = getAllData sampleStore.
Proof.
  apply (listeners_on_off sampleStore "queryDataChanged" 7%nat (Queries [])).
  reflexivity.
Defined.

(* ================================================================== *)
(** * The grouping of the charts *)
(* ================================================================== *)

Section ChartFacts.
Context {A : Type} {TS : Timestamped A} {TM : Timed A}.

Lemma get_chartGroups (grouped : Obj.t (list A)) (k : Obj.key) :
  Obj.get (map chartGroupOf grouped) k
  = option_map (fun its => snd (chartGroupOf (k, its))) (Obj.get grouped k).
Proof.
  induction grouped as [|[k' its] grouped IH]; [reflexivity|].
  cbn [map Obj.get chartGroupOf fst snd].
  destruct (Obj.key_eqb k' k) eqn:E; [|exact IH].
  apply key_eqb_eq in E. now subst.
Qed.

Lemma set_chartGroups (grouped : Obj.t (list A)) (k : Obj.key) (its : list A) :
  Obj.set (map chartGroupOf grouped) k (snd (chartGroupOf (k, its)))
  = map chartGroupOf (Obj.set grouped k its).
Proof.
  induction grouped as [|[k' its'] grouped IH]; [reflexivity|].
  cbn [map Obj.set chartGroupOf fst snd].
  destruct (Obj.key_eqb k' k) eqn:E; cbn [map chartGroupOf fst snd].
  - apply key_eqb_eq in E. now subst.
  - f_equal. exact IH.
Qed.

Lemma sum_push (l : list number) (x : number) : sum (l ++ [x]) = add (sum l) x.
Proof. unfold sum. now rewrite fold_left_app. Qed.

Lemma chart_addItem (intervalMs : Z) (grouped : Obj.t (list A)) (item : A) :
  ChartManager.addItem intervalMs (map chartGroupOf grouped) item
  = map chartGroupOf (addItem intervalMs grouped item).
Proof.
  unfold ChartManager.addItem, addItem. cbv zeta.
  rewrite get_chartGroups.
  set (k := intervalKey intervalMs item).
  destruct (Obj.get grouped k) as [its|]; cbn [option_map];
    rewrite <- set_chartGroups; f_equal;
    cbn [chartGroupOf fst snd group_timestamp group_items group_totalTime
         group_count]; unfold push;
    rewrite map_app; cbn [map]; rewrite sum_push, length_app;
    cbn [List.length]; f_equal; try reflexivity; lia.
Qed.

Lemma chart_fold (intervalMs : Z) (data : list A) : forall grouped,
  fold_left (ChartManager.addItem intervalMs) data (map chartGroupOf grouped)
  = map chartGroupOf (fold_left (addItem intervalMs) data grouped).
Proof.
  induction data as [|x data IH]; intros grouped; [reflexivity|].
  cbn [fold_left]. now rewrite chart_addItem, IH.
Qed.

Lemma filter_map {B C} (f : B -> C) (p : C -> bool) (l : list B) :
  filter p (map f l) = map f (filter (fun x => p (f x)) l).
Proof.
  induction l as [|x l IH]; [reflexivity|].
  cbn [map filter]. destruct (p (f x)); cbn [map]; now rewrite IH.
Qed.

Lemma chart_entries (grouped : Obj.t (list A)) :
  Obj.entries (map chartGroupOf grouped) = map chartGroupOf (Obj.entries grouped).
Proof.
  unfold Obj.entries. rewrite !filter_map, map_app. f_equal.
  apply (sort_map chartGroupOf). reflexivity.
Qed.

End ChartFacts.

